(** * The SavedModel object-graph loader (tensorflow/python/saved_model/load.py)

    A shallow embedding of [Loader], [_WrapperFunction] and [load_internal],
    and the properties of the loader's design document that can be stated
    over it.

    Python values are references into an explicit heap, dictionaries are
    [gmap]s, sets are [gset]s, and a raised exception is the [Err] branch of
    a result.  Collaborators whose code lives in other TensorFlow modules
    are fields of an environment record ([Runtime]). *)

From Stdlib Require Import Ascii String.
From stdpp Require Import gmap strings list fin_maps.

Open Scope string_scope.
Open Scope list_scope.
Open Scope nat_scope.

(** ** Exceptions and results *)

(** One constructor per raise site of load.py, named after the error
    taxonomy of the design document; the Python class and the line of the
    [raise] are given on the right.  The last group are exceptions raised by
    the Python runtime itself or inside a collaborator. *)
Inductive exn : Type :=
  | MalformedPathError                       (* ValueError, l.182 *)
  | UnknownChildError (path : string)        (* ValueError, l.255 *)
  | TypeErrorNotTrackable (path : string)    (* TypeError, l.221 *)
  | UnknownNodeKindError                     (* ValueError, l.543 *)
  | MissingDependencyError (fn_name : string) (* ValueError, l.381 *)
  | CaptureResolutionError                   (* ValueError, l.399 *)
  | UnsupportedRestoreTarget                 (* NotImplementedError, l.503 *)
  | TagMismatchError                         (* ValueError, l.891 *)
  | V1FiltersError                           (* ValueError, l.919 *)
  | FileNotFoundError                        (* l.905 *)
  | NoMatchError                             (* assert_nontrivial_match *)
  | UnmatchedObjectsError                    (* assert_existing_objects_matched *)
  | KeyError
  | IndexError
  | AttributeError
  | PyTypeError                              (* TypeError of the runtime *)
  | RuntimeError
  | NotFoundError                            (* errors.NotFoundError *)
  | ExternalError (code : nat).

(** The text of the messages the claims refer to. *)
Definition exn_message (e : exn) : string :=
  match e with
  | MalformedPathError =>
      "When passing string identifiers to node_filters, the first name must be root."
  | UnknownChildError path => "unable to find node " +:+ path
  | V1FiltersError =>
      "SavedModels saved from Tensorflow V1 or Estimator (any version) cannot be loaded with node filters."
  | _ => ""
  end.

Inductive result (A : Type) : Type :=
  | Ok (a : A)
  | Err (e : exn).
Arguments Ok {A} a.
Arguments Err {A} e.

Global Instance result_ret : MRet result := fun A a => Ok a.
Global Instance result_bind : MBind result := fun A B k r =>
  match r with
  | Ok a => k a
  | Err e => Err e
  end.

(** ** Strings: [str.split(".")], [".".join] and ["{}.{}".format] *)

Module PyStr.

(** [s.split(".")]: never empty, one more segment than there are dots. *)
Fixpoint split (s : string) : list string :=
  match s with
  | EmptyString => [""]
  | String c s' =>
      if decide (c = "."%char) then "" :: split s'
      else match split s' with
           | h :: t => String c h :: t
           | [] => [String c ""]
           end
  end.

(** [".".join(l)] *)
Definition join (l : list string) : string := String.concat "." l.

(** ["{}.{}".format(a, b)] *)
Definition format2 (a b : string) : string := a +:+ "." +:+ b.

(** The string has no dot in it. *)
Fixpoint dotless (s : string) : bool :=
  match s with
  | EmptyString => true
  | String c s' => if decide (c = "."%char) then false else dotless s'
  end.

End PyStr.

(** ** The serialized object graph (SavedObjectGraph)

    Node ids are indices into [nodes]; the protocol buffer stores them as
    int32 and the loader only ever uses them as list indices and dictionary
    keys, so they are natural numbers here. *)

Module ObjectReference.
Record t := mk { node_id : nat; local_name : string }.
End ObjectReference.

Module SlotVariableReference.
Record t := mk {
    original_variable_node_id : nat;
    slot_name : string;
    slot_variable_node_id : nat }.
End SlotVariableReference.

Module SaveableObject.
Record t := mk { save_function : nat; restore_function : nat }.
End SaveableObject.

(** The [kind] oneof of a SavedObject; [kind_not_set] is what
    [WhichOneof("kind")] reports as [None]. *)
Inductive SavedObjectKind : Type :=
  | user_object (identifier : string)
  | asset (asset_file_def_index : nat)
  | function
  | bare_concrete_function
  | variable
  | constant
  | resource
  | captured_tensor
  | kind_not_set.

Module SavedObject.
Record t := mk {
    children : list ObjectReference.t;
    slot_variables : list SlotVariableReference.t;
    kind : SavedObjectKind;
    saveable_objects : list (string * SaveableObject.t) }.
End SavedObject.

Module SavedConcreteFunction.
Record t := mk { bound_inputs : list nat }.
End SavedConcreteFunction.

Module SavedObjectGraph.
Record t := mk {
    nodes : list SavedObject.t;
    (** the [concrete_functions] map, already in the order of
        [sorted(concrete_functions.items())] *)
    concrete_functions : list (string * SavedConcreteFunction.t) }.
End SavedObjectGraph.

(** Invariant (1) of the data model: the graph has its root and every edge
    points at a node of the graph. *)
Definition valid_targets (nodes : list SavedObject.t) : Prop :=
  0 < length nodes ∧
  ∀ i proto reference,
    nodes !! i = Some proto →
    reference ∈ SavedObject.children proto →
    ObjectReference.node_id reference < length nodes.

(** The same as a test. *)
Definition valid_targets_check (nodes : list SavedObject.t) : bool :=
  bool_decide (0 < length nodes) &&
  forallb (λ proto,
             forallb (λ reference,
                        bool_decide
                          (ObjectReference.node_id reference < length nodes))
                     (SavedObject.children proto))
          nodes.

(** Local names as the path syntax needs them: within a node no two
    child edges share a local name (the data model says so), and no local
    name has a dot in it. *)
Definition names_ok (nodes : list SavedObject.t) : Prop :=
  ∀ proto, proto ∈ nodes →
    NoDup (ObjectReference.local_name <$> SavedObject.children proto) ∧
    ∀ reference, reference ∈ SavedObject.children proto →
      PyStr.dotless (ObjectReference.local_name reference) = true.

(** The same as a test. *)
Definition names_ok_check (nodes : list SavedObject.t) : bool :=
  forallb (λ proto,
             bool_decide
               (NoDup (ObjectReference.local_name
                         <$> SavedObject.children proto))
             && forallb (λ reference,
                           PyStr.dotless
                             (ObjectReference.local_name reference))
                        (SavedObject.children proto))
          nodes.

(** ** PathIndex: from dotted paths to node ids *)

Section PathIndex.

Variable nodes : list SavedObject.t.

(** The [for reference in ...children] loop of [_find_node_child]. *)
Fixpoint find_child (children : list ObjectReference.t) (child_name : string)
    : option nat :=
  match children with
  | [] => None
  | reference :: rest =>
      if decide (ObjectReference.local_name reference = child_name)
      then Some (ObjectReference.node_id reference)
      else find_child rest child_name
  end.

Definition _find_node_child (node_id : nat) (child_name path : string)
    : result nat :=
  match nodes !! node_id with
  | None => Err IndexError
  | Some proto =>
      match find_child (SavedObject.children proto) child_name with
      | Some child_id => Ok child_id
      | None => Err (UnknownChildError path)
      end
  end.

(** [for n, name in enumerate(node_path[1:])]: [n] counts from the
    position the loop has reached. *)
Fixpoint walk_names (node_path : list string) (n : nat)
    (names : list string) (int_node_id : nat) : result nat :=
  match names with
  | [] => Ok int_node_id
  | name :: rest =>
      child ← _find_node_child int_node_id name
                (PyStr.join (take (n + 2) node_path)) ;
      walk_names node_path (S n) rest child
  end.

(** The body of the loop of [_convert_node_paths_to_ints] for one string
    filter. *)
Definition resolve (node_id : string) : result nat :=
  let node_path := PyStr.split node_id in
  match node_path with
  | [] => Err IndexError
  | first :: names =>
      if decide (first = "root") then walk_names node_path 0 names 0
      else Err MalformedPathError
  end.

Fixpoint convert_loop (filters : list string) (path_to_int : gmap string nat)
    : result (gmap string nat) :=
  match filters with
  | [] => Ok path_to_int
  | node_id :: rest =>
      int_node_id ← resolve node_id;
      convert_loop rest (<[node_id := int_node_id]> path_to_int)
  end.

(** [filters] is [None] or the keys of [node_filters] in iteration order.
    The [TypeError] branch for keys that are not strings cannot be taken:
    the keys are strings by type. *)
Definition _convert_node_paths_to_ints (filters : option (list string))
    : result (option (gmap string nat)) :=
  match filters with
  | None => Ok None
  | Some l => m ← convert_loop l ∅; Ok (Some m)
  end.

(** Resolution as the design document words it: from the current node,
    follow the child edge that carries the next segment's name. *)
Inductive walks : nat → list string → nat → Prop :=
  | walks_nil cur : walks cur [] cur
  | walks_cons cur name rest proto child target :
      nodes !! cur = Some proto →
      find_child (SavedObject.children proto) name = Some child →
      walks child rest target →
      walks cur (name :: rest) target.

(** The current node has no child edge with that local name. *)
Definition no_child (cur : nat) (name : string) : Prop :=
  ∃ proto, nodes !! cur = Some proto ∧
    ∀ reference, reference ∈ SavedObject.children proto →
      ObjectReference.local_name reference ≠ name.

End PathIndex.

(** The path index holds only what resolution answers. *)
Definition index_sound (nodes : list SavedObject.t) (m : gmap string nat)
    : Prop :=
  ∀ path i, m !! path = Some i → resolve nodes path = Ok i.

(** ** Python values and the heap *)

Definition ref := nat.

Inductive value : Type :=
  | VNone
  | VStr (s : string)
  | VObj (r : ref).

Global Instance value_eq_dec : EqDecision value.
Proof. solve_decision. Defined.

(** The type of an object.  [_recreate_base_user_object] makes a new class
    [_UserObject] on every call, so there is one such class per instance
    (named by the instance's address); [_RestoredResource] is the
    module-level class of load.py; all other classes come from elsewhere. *)
Inductive class_id : Type :=
  | UserObject_cls (r : ref)
  | RestoredResource_cls
  | external_cls (n : nat).

Global Instance class_id_eq_dec : EqDecision class_id.
Proof. solve_decision. Defined.

Global Instance class_id_countable : Countable class_id.
Proof.
  refine (inj_countable'
    (λ c, match c with
          | UserObject_cls r => inl r
          | RestoredResource_cls => inr (inl ())
          | external_cls n => inr (inr n)
          end)
    (λ x, match x with
          | inl r => UserObject_cls r
          | inr (inl _) => RestoredResource_cls
          | inr (inr n) => external_cls n
          end) _).
  by intros [].
Defined.

(** What [isinstance] and the TensorFlow type predicates used by the loader
    answer for the instances of a class. *)
Record TypeFlags := mkTypeFlags {
  Trackable : bool;                 (* isinstance(_, base.Trackable) *)
  TrackableDataStructure : bool;    (* data_structures.TrackableDataStructure *)
  is_distributed_variable : bool;   (* distribute_utils.is_distributed_variable *)
  is_resource_variable : bool;      (* resource_variable_ops.is_resource_variable *)
  Asset : bool;                     (* tracking.Asset *)
  is_tf_type : bool;                (* tensor_util.is_tf_type *)
  CapturableResource : bool;        (* tracking.CapturableResource *)
  LookupInterface : bool;           (* lookup_ops.LookupInterface *)
  defines_call : bool               (* the class body or a base defines __call__ *)
}.

(** The setters the loader pairs with a node. *)
Inductive setter : Type :=
  | setattr
  | _setattr_and_track
  | noop_setter                     (* the lambda that ignores its arguments *)
  | custom_setter (n : nat).        (* supplied by a registered type or by the caller *)

Record PyObject := mkPyObject {
  obj_type : class_id;
  obj_attrs : gmap string value;            (* the instance dictionary *)
  obj_dependencies : gmap string value;     (* what _lookup_dependency reads *)
  obj_saveable_object_factories : gmap string value }.

(** What [ops.add_to_collection] was given: one op, or a list of ops. *)
Inductive collection_item : Type :=
  | item (x : value)
  | item_list (l : list value).

Record World := mkWorld {
  heap : gmap ref PyObject;
  (** the classes that received [__call__ = _call_attribute] *)
  call_attribute_types : gset class_id;
  (** ops.GraphKeys.TABLE_INITIALIZERS of the default graph *)
  TABLE_INITIALIZERS : list collection_item }.

(** The result of [saver.restore]: what the checkpoint machinery matched. *)
Record LoadStatus := mkLoadStatus {
  (** [checkpoint.object_by_proto_id]: persisted entry id and the object it
      was matched with *)
  object_by_proto_id : list (nat * value);
  (** the matches that are more than the trivial match of the root *)
  nontrivial_matches : list nat;
  (** constructed trackable objects without a persisted entry *)
  unmatched_objects : list value;
  (** persisted entries without a constructed object *)
  unmatched_entries : list nat;
  (** [CheckpointPosition(...).restore_ops()] per persisted entry *)
  restore_ops : nat → list value }.

(** Collaborators defined outside load.py. *)
Record Runtime := mkRuntime {
  rt_type_flags : nat → TypeFlags;
  (** the order in which a Python set of ints is iterated *)
  rt_iter_set : gset nat → list nat;
  (** context.executing_eagerly() *)
  rt_executing_eagerly : World → bool;
  (** revived_types.deserialize *)
  rt_deserialize : string → World → result (option (ref * setter) * World);
  (** the constructors the [_recreate_*] methods call *)
  rt_construct : SavedObjectKind → World → result (ref * World);
  (** optimizer_object.add_slot(var=..., slot_name=...) *)
  rt_add_slot : ref → value → string → World → result (ref * World);
  rt_custom_setter : nat → value → string → value → World → result World;
  (** the body of the loop of _setup_functions_structures *)
  rt_setup_function_structure : string → World → result World;
  (** the part of _setup_functions_captures after the captures are resolved *)
  rt_bind_captures : string → list value → list value → World → result World;
  (** the property obj.resource_handle of a CapturableResource *)
  rt_resource_handle : ref → World → result (value * World);
  (** saveable_object_util.restored_saved_object_factory *)
  rt_restored_saved_object_factory : value → value → World → result (value * World);
  (** TrackableSaver(ObjectGraphView(root)).restore(variables_path, options) *)
  rt_restore : value → World → result (LoadStatus * World);
  (** control_flow_ops.group applied to the restore ops *)
  rt_group : list value → World → result (value * World);
  (** node._initialize() of a CapturableResource that is not the stub of
      _RestoredResource *)
  rt_initialize : ref → World → result (value * World);
  (** calling a restored function without arguments *)
  rt_call : value → World → result (value * World);
  (** function_deserialization.load_function_def_library *)
  rt_load_function_def_library : World → result World;
  (** what adjust_debug_info_func_names(debug_info) returns; it reads the
      debug info and the function library, which are the runtime's *)
  rt_adjust_debug_info : World → result value;
  (** the debug info read with the SavedModel *)
  rt_debug_info : value;
  (** load_v1_in_v2.load(export_dir, tags) *)
  rt_load_v1 : World → result (value * World) }.

Definition no_flags : TypeFlags :=
  mkTypeFlags false false false false false false false false false.

(** [class _UserObject(tracking.AutoTrackable): pass] and
    [class _RestoredResource(tracking.TrackableResource)]. *)
Definition type_flags (rt : Runtime) (c : class_id) : TypeFlags :=
  match c with
  | UserObject_cls _ =>
      mkTypeFlags true false false false false false false false false
  | RestoredResource_cls =>
      mkTypeFlags true false false false false false true false false
  | external_cls n => rt_type_flags rt n
  end.

Definition type_of (w : World) (v : value) : option class_id :=
  match v with
  | VObj r => obj_type <$> heap w !! r
  | _ => None
  end.

(** [isinstance(v, C)] and the predicates alike, [flag] selecting [C];
    [None] and strings are instances of none of the classes asked for. *)
Definition isinstance (rt : Runtime) (w : World) (v : value)
    (flag : TypeFlags → bool) : bool :=
  match type_of w v with
  | Some c => flag (type_flags rt c)
  | None => false
  end.

(** [callable(v)]: the type provides [__call__]. *)
Definition callable (rt : Runtime) (w : World) (v : value) : bool :=
  match type_of w v with
  | Some c => defines_call (type_flags rt c)
              || bool_decide (c ∈ call_attribute_types w)
  | None => false
  end.

Definition set_heap (w : World) (h : gmap ref PyObject) : World :=
  mkWorld h (call_attribute_types w) (TABLE_INITIALIZERS w).

(** A new object at an address not in use. *)
Definition alloc (w : World) (make : ref → PyObject) : ref * World :=
  let r := fresh (dom (heap w)) in
  (r, set_heap w (<[r := make r]> (heap w))).

(** [hasattr] and [getattr] read the instance dictionary: the names the
    loader asks for are those of edges and of attributes it sets itself. *)
Definition hasattr (w : World) (v : value) (name : string) : bool :=
  match v with
  | VObj r =>
      match heap w !! r with
      | Some o => bool_decide (is_Some (obj_attrs o !! name))
      | None => false
      end
  | _ => false
  end.

Definition getattr (w : World) (v : value) (name : string) : result value :=
  match v with
  | VObj r =>
      match heap w !! r with
      | Some o =>
          match obj_attrs o !! name with
          | Some x => Ok x
          | None => Err AttributeError
          end
      | None => Err AttributeError
      end
  | _ => Err AttributeError
  end.

(** [setattr(obj, name, value)]: a store into the instance dictionary. *)
Definition py_setattr (obj : value) (name : string) (x : value) (w : World)
    : result World :=
  match obj with
  | VObj r =>
      match heap w !! r with
      | Some o =>
          Ok (set_heap w (<[r := mkPyObject (obj_type o)
                                   (<[name := x]> (obj_attrs o))
                                   (obj_dependencies o)
                                   (obj_saveable_object_factories o)]> (heap w)))
      | None => Err AttributeError
      end
  | _ => Err AttributeError
  end.

(** [obj._track_trackable(value, name)]: record the dependency. *)
Definition _track_trackable (obj : value) (x : value) (name : string)
    (w : World) : result World :=
  match obj with
  | VObj r =>
      match heap w !! r with
      | Some o =>
          Ok (set_heap w (<[r := mkPyObject (obj_type o) (obj_attrs o)
                                   (<[name := x]> (obj_dependencies o))
                                   (obj_saveable_object_factories o)]> (heap w)))
      | None => Err AttributeError
      end
  | _ => Err AttributeError
  end.

(** [node._lookup_dependency(name)]: the dependency or [None]. *)
Definition _lookup_dependency (w : World) (node : value) (name : string)
    : value :=
  match node with
  | VObj r =>
      match heap w !! r with
      | Some o => default VNone (obj_dependencies o !! name)
      | None => VNone
      end
  | _ => VNone
  end.

(** [setattr(type(obj), "__call__", _call_attribute)] *)
Definition set_call_attribute (w : World) (obj : value) : result World :=
  match type_of w obj with
  | Some c =>
      Ok (mkWorld (heap w) ({[c]} ∪ call_attribute_types w)
            (TABLE_INITIALIZERS w))
  | None => Err AttributeError
  end.

(** [ops.add_to_collection(ops.GraphKeys.TABLE_INITIALIZERS, x)] *)
Definition add_to_TABLE_INITIALIZERS (w : World) (x : collection_item) : World :=
  mkWorld (heap w) (call_attribute_types w) (TABLE_INITIALIZERS w ++ [x]).

(** ** The loader's inputs and fields *)

(** A value of a [node_filters] dictionary: an object (or [None]), or an
    [(object, setter)] tuple. *)
Inductive filter_value : Type :=
  | fv_node (node : value)
  | fv_tuple (node : value) (s : setter).

(** [filters]: a list of paths, or a dictionary in insertion order. *)
Inductive node_filters : Type :=
  | filters_list (l : list string)
  | filters_dict (d : list (string * filter_value)).

(** Iterating [node_filters] yields the paths. *)
Definition filter_keys (f : node_filters) : list string :=
  match f with
  | filters_list l => l
  | filters_dict d => d.*1
  end.

(** [if filters:] *)
Definition truthy (filters : option node_filters) : bool :=
  match filters with
  | None => false
  | Some f => bool_decide (filter_keys f ≠ [])
  end.

Record LoadOptions := mkLoadOptions {
  experimental_skip_checkpoint : bool;
  allow_partial_checkpoint : bool }.

Record Loader := mkLoader {
  _proto : SavedObjectGraph.t;
  _save_options : LoadOptions;
  _node_filters : option node_filters;
  _node_path_to_id : option (gmap string nat);
  _loaded_nodes : gmap nat (value * setter);
  _filtered_nodes : option (gset nat);
  _nodes : list value;
  _node_setters : gmap nat setter }.

(** A [for] loop whose body may raise. *)
Fixpoint for_each {A S : Type} (body : A → S → result S) (l : list A) (s : S)
    : result S :=
  match l with
  | [] => Ok s
  | x :: rest => s' ← body x s; for_each body rest s'
  end.

(** The loop of [__init__] over [filters.items()]. *)
Fixpoint init_loaded_nodes (items : list (string * filter_value))
    (node_path_to_id : gmap string nat)
    (loaded_nodes : gmap nat (value * setter))
    : result (gmap nat (value * setter)) :=
  match items with
  | [] => Ok loaded_nodes
  | (node_path, node) :: rest =>
      match node_path_to_id !! node_path with
      | None => Err KeyError
      | Some node_id =>
          init_loaded_nodes rest node_path_to_id
            (<[node_id := match node with
                          | fv_tuple n s => (n, s)
                          | fv_node n => (n, setattr)
                          end]> loaded_nodes)
      end
  end.

(** ** FilterSelector: [_retrieve_all_filtered_nodes] *)

Record FilterState := mkFilterState {
  nodes_to_visit : list string;
  all_filtered_nodes : gset nat;
  node_path_to_id : gmap string nat;
  loaded_nodes : gmap nat (value * setter) }.

(** [self._loaded_nodes.get(node_id, (None, None))[0]] *)
Definition loaded_object (loaded : gmap nat (value * setter)) (node_id : nat)
    : value :=
  match loaded !! node_id with
  | Some (node, _) => node
  | None => VNone
  end.

(** The loop over the children of the node being visited. *)
Fixpoint visit_children (rt : Runtime) (w : World) (node : value)
    (node_path : string) (children : list ObjectReference.t)
    (st : FilterState) : FilterState :=
  match children with
  | [] => st
  | reference :: rest =>
      let child_id := ObjectReference.node_id reference in
      let name := ObjectReference.local_name reference in
      let child_object := loaded_object (loaded_nodes st) child_id in
      let loaded' :=
        if bool_decide (child_object = VNone) && bool_decide (node ≠ VNone)
        then
          let child_object := _lookup_dependency w node name in
          if isinstance rt w child_object TrackableDataStructure
          then <[child_id := (child_object, noop_setter)]> (loaded_nodes st)
          else loaded_nodes st
        else loaded_nodes st in
      let child_path := PyStr.format2 node_path name in
      visit_children rt w node node_path rest
        (mkFilterState (nodes_to_visit st ++ [child_path])
           (all_filtered_nodes st)
           (<[child_path := child_id]> (node_path_to_id st))
           loaded')
  end.

(** The [while nodes_to_visit] loop; [None] when the fuel is used up.
    [node._maybe_initialize_trackable()] changes nothing the loader reads. *)
Fixpoint visit_loop (rt : Runtime) (w : World) (nodes : list SavedObject.t)
    (fuel : nat) (st : FilterState) : option (result FilterState) :=
  match fuel with
  | 0 => None
  | S fuel' =>
      match nodes_to_visit st with
      | [] => Some (Ok st)
      | node_path :: queue =>
          match node_path_to_id st !! node_path with
          | None => Some (Err KeyError)
          | Some node_id =>
              if decide (node_id ∈ all_filtered_nodes st)
              then visit_loop rt w nodes fuel'
                     (mkFilterState queue (all_filtered_nodes st)
                        (node_path_to_id st) (loaded_nodes st))
              else
                let node := loaded_object (loaded_nodes st) node_id in
                if bool_decide (node ≠ VNone)
                   && negb (isinstance rt w node Trackable)
                then Some (Err (TypeErrorNotTrackable node_path))
                else
                  match nodes !! node_id with
                  | None => Some (Err IndexError)
                  | Some proto =>
                      visit_loop rt w nodes fuel'
                        (visit_children rt w node node_path
                           (SavedObject.children proto)
                           (mkFilterState queue
                              ({[node_id]} ∪ all_filtered_nodes st)
                              (node_path_to_id st) (loaded_nodes st)))
                  end
          end
      end
  end.

(** The number of edges of the graph. *)
Definition edge_count (nodes : list SavedObject.t) : nat :=
  sum_list_with (λ proto, length (SavedObject.children proto)) nodes.

(** The edges of the nodes from [node_id] on that are not visited yet. *)
Fixpoint pending_edges (visited : gset nat) (node_id : nat)
    (nodes : list SavedObject.t) : nat :=
  match nodes with
  | [] => 0
  | proto :: rest =>
      (if decide (node_id ∈ visited) then 0
       else length (SavedObject.children proto))
      + pending_edges visited (S node_id) rest
  end.

(** Every pass of the loop takes one path off the queue, and a path is put
    on it once per filter and once per edge of a node visited for the first
    time: this many passes are enough (see [visit_loop_terminates]). *)
Definition visit_fuel (nodes : list SavedObject.t) (f : node_filters) : nat :=
  S (length (filter_keys f) + edge_count nodes).

(** Returns the ids to load ([None]: all of them) and the loader with its
    [_node_path_to_id] and [_loaded_nodes] updated. *)
Definition _retrieve_all_filtered_nodes (rt : Runtime) (w : World)
    (self : Loader) : result (option (gset nat) * Loader) :=
  match _node_filters self with
  | None => Ok (None, self)
  | Some f =>
      match _node_path_to_id self with
      | None => Err PyTypeError
      | Some path_to_id =>
          let nodes := SavedObjectGraph.nodes (_proto self) in
          match visit_loop rt w nodes (visit_fuel nodes f)
                  (mkFilterState (filter_keys f) ∅ path_to_id
                     (_loaded_nodes self)) with
          | None => Err RuntimeError
          | Some r =>
              st ← r;
              let self' :=
                mkLoader (_proto self) (_save_options self)
                  (_node_filters self) (Some (node_path_to_id st))
                  (loaded_nodes st) (_filtered_nodes self) (_nodes self)
                  (_node_setters self) in
              if decide (0 ∈ all_filtered_nodes st)
              then Ok (None, self')
              else Ok (Some (all_filtered_nodes st), self')
          end
      end
  end.

(** ** Iterating the nodes to load, and [get] *)

Definition _iter_all_nodes (rt : Runtime) (self : Loader)
    : result (list (nat * SavedObject.t)) :=
  let nodes := SavedObjectGraph.nodes (_proto self) in
  match _filtered_nodes self with
  | None => Ok (imap (λ node_id proto, (node_id, proto)) nodes)
  | Some s =>
      mapM (λ node_id,
              match nodes !! node_id with
              | Some proto => Ok (node_id, proto)
              | None => Err IndexError
              end)
           (rt_iter_set rt s)
  end.

(** [self._nodes[node_id]] *)
Definition get_id (self : Loader) (node_id : nat) : result value :=
  match _nodes self !! node_id with
  | Some v => Ok v
  | None => Err IndexError
  end.

(** [get] with a string argument. *)
Definition get_path (self : Loader) (node_id : string) : result value :=
  match _node_path_to_id self with
  | None => Err PyTypeError
  | Some path_to_id =>
      match path_to_id !! node_id with
      | None => Err KeyError
      | Some i => get_id self i
      end
  end.

(** ** NodeFactory: [_recreate] *)

(** [_UserObject(), setattr], the class being new on every call. *)
Definition _recreate_base_user_object (w : World) : (value * setter) * World :=
  let '(r, w') := alloc w (λ r, mkPyObject (UserObject_cls r) ∅ ∅ ∅) in
  ((VObj r, setattr), w').

Definition _recreate_user_object (rt : Runtime) (identifier : string)
    (w : World) : result ((value * setter) * World) :=
  '(looked_up, w1) ← rt_deserialize rt identifier w;
  match looked_up with
  | None => Ok (_recreate_base_user_object w1)
  | Some (r, s) => Ok ((VObj r, s), w1)
  end.

(** [_RestoredResource(device=proto.device), _setattr_and_track] *)
Definition _recreate_resource (w : World) : (value * setter) * World :=
  let '(r, w') := alloc w (λ _, mkPyObject RestoredResource_cls ∅ ∅ ∅) in
  ((VObj r, _setattr_and_track), w').

(** The dispatch on [proto.WhichOneof("kind")]; the constructors of assets,
    functions, variables, constants and captured tensors are the
    [Runtime]'s, each paired with [setattr]. *)
Definition _recreate (rt : Runtime) (proto : SavedObject.t) (node_id : nat)
    (w : World) : result ((value * setter) * World) :=
  match SavedObject.kind proto with
  | user_object identifier => _recreate_user_object rt identifier w
  | resource => Ok (_recreate_resource w)
  | kind_not_set => Err UnknownNodeKindError
  | k => '(r, w1) ← rt_construct rt k w; Ok ((VObj r, setattr), w1)
  end.

(** ** [_load_nodes] *)

(** What [_load_nodes] constructs, in the order it does. *)
Inductive event : Type :=
  | ev_recreate (node_id : nat) (node : value)
  | ev_add_slot (optimizer_id : nat) (optimizer_object : ref)
      (optimized_variable : value) (slot : SlotVariableReference.t)
      (slot_variable : ref)
  | ev_dummy_root (root : value).

Record NodesState := mkNodesState {
  st_nodes : gmap nat value;
  st_node_setters : gmap nat setter;
  st_world : World;
  st_log : list event }.

Definition _initialize_loaded_nodes (self : Loader)
    : gmap nat value * gmap nat setter :=
  (fst <$> _loaded_nodes self, snd <$> _loaded_nodes self).

(** The first loop: which nodes are slot variables. *)
Definition slot_variable_node_ids (iter : list (nat * SavedObject.t))
    : gset nat :=
  foldl (λ ids '(_, proto),
           foldl (λ ids slot_variable_proto,
                    {[SlotVariableReference.slot_variable_node_id
                        slot_variable_proto]} ∪ ids)
                 ids (SavedObject.slot_variables proto))
        ∅ iter.

(** [nodes.get(node_id) is not None] *)
Definition has_node (nodes : gmap nat value) (node_id : nat) : bool :=
  match nodes !! node_id with
  | Some v => bool_decide (v ≠ VNone)
  | None => false
  end.

(** The second loop: re-create everything except slot variables. *)
Fixpoint recreate_loop (rt : Runtime) (slot_ids : gset nat)
    (iter : list (nat * SavedObject.t)) (st : NodesState)
    : result NodesState :=
  match iter with
  | [] => Ok st
  | (node_id, proto) :: rest =>
      if bool_decide (node_id ∈ slot_ids) || has_node (st_nodes st) node_id
      then recreate_loop rt slot_ids rest st
      else
        '((node, s), w') ← _recreate rt proto node_id (st_world st);
        recreate_loop rt slot_ids rest
          (mkNodesState (<[node_id := node]> (st_nodes st))
             (<[node_id := s]> (st_node_setters st)) w'
             (st_log st ++ [ev_recreate node_id node]))
  end.

(** The slot variables of one optimizer. *)
Fixpoint add_slots (rt : Runtime) (optimizer_id : nat)
    (optimizer_object : value) (slots : list SlotVariableReference.t)
    (st : NodesState) : result NodesState :=
  match slots with
  | [] => Ok st
  | slot_variable_proto :: rest =>
      match st_nodes st !!
              SlotVariableReference.original_variable_node_id
                slot_variable_proto with
      | None => Err KeyError
      | Some optimized_variable =>
          match optimizer_object with
          | VObj optimizer =>
              '(slot_variable, w') ←
                rt_add_slot rt optimizer optimized_variable
                  (SlotVariableReference.slot_name slot_variable_proto)
                  (st_world st);
              let slot_id :=
                SlotVariableReference.slot_variable_node_id
                  slot_variable_proto in
              add_slots rt optimizer_id optimizer_object rest
                (mkNodesState (<[slot_id := VObj slot_variable]> (st_nodes st))
                   (<[slot_id := setattr]> (st_node_setters st)) w'
                   (st_log st ++
                      [ev_add_slot optimizer_id optimizer optimized_variable
                         slot_variable_proto slot_variable]))
          | _ => Err AttributeError
          end
      end
  end.

(** The third loop: re-create the slot variables. *)
Fixpoint slot_loop (rt : Runtime) (iter : list (nat * SavedObject.t))
    (st : NodesState) : result NodesState :=
  match iter with
  | [] => Ok st
  | (node_id, proto) :: rest =>
      match st_nodes st !! node_id with
      | None => Err KeyError
      | Some optimizer_object =>
          st' ← add_slots rt node_id optimizer_object
                  (SavedObject.slot_variables proto) st;
          slot_loop rt rest st'
      end
  end.

(** [if 0 not in nodes: nodes[0] = self._recreate_base_user_object()[0]] *)
Definition add_dummy_root (st : NodesState) : NodesState :=
  match st_nodes st !! 0 with
  | Some _ => st
  | None =>
      let '((root, _), w') := _recreate_base_user_object (st_world st) in
      mkNodesState (<[0 := root]> (st_nodes st)) (st_node_setters st) w'
        (st_log st ++ [ev_dummy_root root])
  end.

(** [[nodes.get(node_id) for node_id in range(len(self._proto.nodes))]] *)
Definition nodes_list (nodes : gmap nat value) (n : nat) : list value :=
  (λ node_id, default VNone (nodes !! node_id)) <$> seq 0 n.

(** The three loops and the dummy root, before the fields are assigned. *)
Definition load_nodes_passes (rt : Runtime) (self : Loader) (w : World)
    : result NodesState :=
  let '(nodes, node_setters) := _initialize_loaded_nodes self in
  iter ← _iter_all_nodes rt self;
  st1 ← recreate_loop rt (slot_variable_node_ids iter) iter
          (mkNodesState nodes node_setters w []);
  st2 ← slot_loop rt iter st1;
  Ok (add_dummy_root st2).

Definition _load_nodes (rt : Runtime) (self : Loader) (w : World)
    : result (Loader * World * list event) :=
  st ← load_nodes_passes rt self w;
  Ok (mkLoader (_proto self) (_save_options self) (_node_filters self)
        (_node_path_to_id self) (_loaded_nodes self) (_filtered_nodes self)
        (nodes_list (st_nodes st)
           (length (SavedObjectGraph.nodes (_proto self))))
        (st_node_setters st),
      st_world st, st_log st).

(** The node table a log leads to, from the table [nodes] it started
    with. *)
Definition replay_event (nodes : gmap nat value) (e : event) : gmap nat value :=
  match e with
  | ev_recreate node_id node => <[node_id := node]> nodes
  | ev_add_slot _ _ _ slot slot_variable =>
      <[SlotVariableReference.slot_variable_node_id slot
          := VObj slot_variable]> nodes
  | ev_dummy_root root => <[0 := root]> nodes
  end.

Definition replay (nodes : gmap nat value) (log : list event)
    : gmap nat value :=
  foldl replay_event nodes log.

(** The node an event constructs. *)
Definition constructs (e : event) (node_id : nat) (node : value) : Prop :=
  match e with
  | ev_recreate i v => i = node_id ∧ v = node
  | ev_add_slot _ _ _ slot slot_variable =>
      SlotVariableReference.slot_variable_node_id slot = node_id
      ∧ VObj slot_variable = node
  | ev_dummy_root root => node_id = 0 ∧ root = node
  end.

Definition is_add_slot (e : event) : bool :=
  match e with
  | ev_add_slot _ _ _ _ _ => true
  | _ => false
  end.

(** What holds when the second pass logs [e], [history] being the log up
    to then and [table] the node table the log started from: [e] is a call
    of [add_slot] on an object the table held for the optimizer's id, for
    one of that node's slot variables, with the table's entry for the
    original variable and the slot's name. *)
Definition add_slot_call (rt : Runtime) (iter : list (nat * SavedObject.t))
    (table : gmap nat value) (history : list event) (e : event) : Prop :=
  ∃ optimizer_id optimizer var slot slot_variable proto,
    e = ev_add_slot optimizer_id optimizer var slot slot_variable ∧
    (optimizer_id, proto) ∈ iter ∧
    slot ∈ SavedObject.slot_variables proto ∧
    (∃ k, replay table (take k history) !! optimizer_id
          = Some (VObj optimizer)) ∧
    replay table history
      !! SlotVariableReference.original_variable_node_id slot = Some var ∧
    ∃ w1 w2, rt_add_slot rt optimizer var
               (SlotVariableReference.slot_name slot) w1
             = Ok (slot_variable, w2).


(** ** EdgeWirer: [_load_edges] *)

Definition apply_setter (rt : Runtime) (s : setter) (obj : value)
    (name : string) (x : value) (w : World) : result World :=
  match s with
  | setattr => py_setattr obj name x w
  | _setattr_and_track =>
      w1 ← py_setattr obj name x w;
      if isinstance rt w1 x Trackable then _track_trackable obj x name w1
      else Ok w1
  | noop_setter => Ok w
  | custom_setter n => rt_custom_setter rt n obj name x w
  end.

(** The body of the loop of [_add_object_graph_edges]. *)
Definition add_edge (rt : Runtime) (self : Loader) (obj : value) (s : setter)
    (reference : ObjectReference.t) (w : World) : result World :=
  match _nodes self !! ObjectReference.node_id reference with
  | None => Err IndexError
  | Some child =>
      w1 ← apply_setter rt s obj (ObjectReference.local_name reference) child w;
      if bool_decide (ObjectReference.local_name reference = "__call__")
         && negb (callable rt w1 obj)
      then set_call_attribute w1 obj
      else Ok w1
  end.

Definition _add_object_graph_edges (rt : Runtime) (self : Loader)
    (proto : SavedObject.t) (node_id : nat) (w : World) : result World :=
  match _nodes self !! node_id with
  | None => Err IndexError
  | Some obj =>
      match _node_setters self !! node_id with
      | None => Err KeyError
      | Some s => for_each (add_edge rt self obj s) (SavedObject.children proto) w
      end
  end.

(** [for name in path[1:-1]]: walk from the dummy root, creating the
    objects that are missing on the way. *)
Fixpoint synthesize_path (names : list string) (current_node : value)
    (w : World) : result (value * World) :=
  match names with
  | [] => Ok (current_node, w)
  | name :: rest =>
      w1 ← (if hasattr w current_node name then Ok w
            else let '((obj, _), w') := _recreate_base_user_object w in
                 py_setattr current_node name obj w');
      next ← getattr w1 current_node name;
      synthesize_path rest next w1
  end.

(** The body of the loop over [self._node_filters] in [_load_edges]. *)
Definition attach_to_root (self : Loader) (root : value) (node_path : string)
    (w : World) : result World :=
  loaded_node ← get_path self node_path;
  let path := PyStr.split node_path in
  '(current_node, w1) ← synthesize_path (removelast (tail path)) root w;
  if hasattr w1 current_node (List.last path "") then Ok w1
  else py_setattr current_node (List.last path "") loaded_node w1.

Definition _load_edges (rt : Runtime) (self : Loader) (w : World)
    : result World :=
  iter ← _iter_all_nodes rt self;
  w1 ← for_each (λ '(node_id, object_proto),
                   _add_object_graph_edges rt self object_proto node_id)
         iter w;
  match _filtered_nodes self, _node_filters self with
  | Some s, Some f =>
      if bool_decide (0 ∉ s)
      then root ← get_id self 0;
           for_each (attach_to_root self root) (filter_keys f) w1
      else Ok w1
  | _, _ => Ok w1
  end.

(** ** FunctionCaptureRewirer *)

Definition _setup_functions_structures (rt : Runtime) (self : Loader)
    (w : World) : result World :=
  for_each (λ '(name, _), rt_setup_function_structure rt name)
    (SavedObjectGraph.concrete_functions (_proto self)) w.

(** Resolves a node id into a tensor to be captured for a function. *)
Definition _get_tensor_from_node (rt : Runtime) (self : Loader)
    (node_id : nat) (fn_name : string) (w : World) : result (value * World) :=
  match _nodes self !! node_id with
  | None => Err IndexError
  | Some obj =>
      if bool_decide (_node_filters self ≠ None) && bool_decide (obj = VNone)
      then Err (MissingDependencyError fn_name)
      else if isinstance rt w obj is_distributed_variable then Ok (obj, w)
      else if isinstance rt w obj is_resource_variable
      then h ← getattr w obj "handle"; Ok (h, w)
      else if isinstance rt w obj Asset
      then p ← getattr w obj "asset_path"; Ok (p, w)
      else if isinstance rt w obj is_tf_type then Ok (obj, w)
      else if isinstance rt w obj CapturableResource
      then match obj with
           | VObj r => rt_resource_handle rt r w
           | _ => Err AttributeError
           end
      else Err CaptureResolutionError
  end.

(** [[self._get_tensor_from_node(node_id, name) for node_id in ...]] *)
Fixpoint bound_inputs_of (rt : Runtime) (self : Loader) (fn_name : string)
    (ids : list nat) (w : World) : result (list value * World) :=
  match ids with
  | [] => Ok ([], w)
  | node_id :: rest =>
      '(t, w1) ← _get_tensor_from_node rt self node_id fn_name w;
      '(ts, w2) ← bound_inputs_of rt self fn_name rest w1;
      Ok (t :: ts, w2)
  end.

(** [[self._nodes[node_id] for node_id in ... if kind == "variable"]] *)
Definition bound_variables_of (self : Loader) (ids : list nat) : list value :=
  omap (λ node_id,
          match SavedObjectGraph.nodes (_proto self) !! node_id with
          | Some proto =>
              match SavedObject.kind proto with
              | variable => _nodes self !! node_id
              | _ => None
              end
          | None => None
          end) ids.

Definition _setup_functions_captures (rt : Runtime) (self : Loader)
    (w : World) : result World :=
  for_each (λ '(name, proto) w,
              let ids := SavedConcreteFunction.bound_inputs proto in
              '(bound_inputs, w1) ← bound_inputs_of rt self name ids w;
              rt_bind_captures rt name bound_inputs
                (bound_variables_of self ids) w1)
    (SavedObjectGraph.concrete_functions (_proto self)) w.

(** ** [_create_saveable_object_factories] *)

Definition set_factories (node : value)
    (f : gmap string value → gmap string value) (w : World) : result World :=
  match node with
  | VObj r =>
      match heap w !! r with
      | Some o =>
          Ok (set_heap w (<[r := mkPyObject (obj_type o) (obj_attrs o)
                                   (obj_dependencies o)
                                   (f (obj_saveable_object_factories o))]>
                            (heap w)))
      | None => Err AttributeError
      end
  | _ => Err AttributeError
  end.

Definition _create_saveable_object_factories (rt : Runtime) (self : Loader)
    (w : World) : result World :=
  iter ← _iter_all_nodes rt self;
  for_each (λ '(node_id, proto) w,
              node ← get_id self node_id;
              w1 ← set_factories node (λ _, ∅) w;
              for_each (λ '(name, saveable_object_proto) w,
                          save ← get_id self
                                   (SaveableObject.save_function
                                      saveable_object_proto);
                          restore ← get_id self
                                      (SaveableObject.restore_function
                                         saveable_object_proto);
                          '(factory, w2) ←
                            rt_restored_saved_object_factory rt save restore w;
                          set_factories node (insert name factory) w2)
                (SavedObject.saveable_objects proto) w1)
    iter w.

Definition _load_all (rt : Runtime) (self : Loader) (w : World)
    : result (Loader * World * list event) :=
  '(self1, w1, log) ← _load_nodes rt self w;
  w2 ← _load_edges rt self1 w1;
  w3 ← _setup_functions_structures rt self1 w2;
  w4 ← _setup_functions_captures rt self1 w3;
  w5 ← _create_saveable_object_factories rt self1 w4;
  Ok (self1, w5, log).

(** ** CheckpointRestorer: [_restore_checkpoint] *)

(** Modelled from the spec: [assert_nontrivial_match] of the load status
    (tensorflow/python/training/tracking/util.py), "fails with NoMatchError
    if zero non-trivial matches occurred". *)
Definition assert_nontrivial_match (load_status : LoadStatus) : result unit :=
  match nontrivial_matches load_status with
  | [] => Err NoMatchError
  | _ => Ok ()
  end.

(** Modelled from the spec: [assert_existing_objects_matched] of the load
    status (same module), "fails with UnmatchedObjectsError if any
    constructed trackable object lacks a corresponding persisted entry, or
    vice versa". *)
Definition assert_existing_objects_matched (load_status : LoadStatus)
    : result unit :=
  match unmatched_objects load_status, unmatched_entries load_status with
  | [], [] => Ok ()
  | _, _ => Err UnmatchedObjectsError
  end.

(** Modelled from the spec: [expect_partial] only silences the warnings
    about unmatched entries. *)
Definition expect_partial (load_status : LoadStatus) : LoadStatus :=
  load_status.

(** The restore followed by the assertion the options select. *)
Definition restore_and_assert (rt : Runtime) (self : Loader) (w : World)
    : result (LoadStatus * World) :=
  root ← get_id self 0;
  if allow_partial_checkpoint (_save_options self)
  then '(status, w1) ← rt_restore rt root w;
       let load_status := expect_partial status in
       _ ← assert_nontrivial_match load_status;
       Ok (load_status, w1)
  else '(load_status, w1) ← rt_restore rt root w;
       _ ← assert_existing_objects_matched load_status;
       Ok (load_status, w1).

(** The body of the loop over [checkpoint.object_by_proto_id] that wires
    the restore ops into initializers when not executing eagerly. *)
Definition wire_restore_ops (rt : Runtime) (load_status : LoadStatus)
    (entry : nat * value) (w : World) : result World :=
  let '(object_id, obj) := entry in
  match restore_ops load_status object_id with
  | [] => Ok w
  | op :: more =>
      if isinstance rt w obj is_resource_variable
      then match more with
           | [] => py_setattr obj "_initializer_op" op w
           | _ => '(g, w1) ← rt_group rt (op :: more) w;
                  py_setattr obj "_initializer_op" g w1
           end
      else if isinstance rt w obj LookupInterface
      then Ok (add_to_TABLE_INITIALIZERS w (item_list (op :: more)))
      else Err UnsupportedRestoreTarget
  end.

Definition _restore_checkpoint (rt : Runtime) (self : Loader) (w : World)
    : result World :=
  '(load_status, w1) ← restore_and_assert rt self w;
  if rt_executing_eagerly rt w1 then Ok w1
  else for_each (wire_restore_ops rt load_status)
         (object_by_proto_id load_status) w1.

(** ** [Loader.__init__] *)

(** [node._initialize()]: an attribute of the instance (the restored
    function an edge has put there) shadows the method of the class, which
    for [_RestoredResource] is the stub that raises [RuntimeError]. *)
Definition _initialize (rt : Runtime) (node : ref) (w : World)
    : result (value * World) :=
  match heap w !! node with
  | None => Err AttributeError
  | Some o =>
      match obj_attrs o !! "_initialize" with
      | Some f => rt_call rt f w
      | None =>
          match obj_type o with
          | RestoredResource_cls => Err RuntimeError
          | UserObject_cls _ => Err AttributeError
          | external_cls _ => rt_initialize rt node w
          end
      end
  end.

(** The body of [for node in self._nodes] at the end of [__init__]. *)
Definition initialize_node (rt : Runtime) (node : value) (w : World)
    : result World :=
  if isinstance rt w node CapturableResource
  then match node with
       | VObj r =>
           '(init_op, w1) ← _initialize rt r w;
           if rt_executing_eagerly rt w1 then Ok w1
           else Ok (add_to_TABLE_INITIALIZERS w1 (item init_op))
       | _ => Ok w
       end
  else Ok w.

(** The part of [__init__] guarded by
    [not save_options.experimental_skip_checkpoint]. *)
Definition restore_and_initialize (rt : Runtime) (self : Loader) (w : World)
    : result World :=
  if experimental_skip_checkpoint (_save_options self) then Ok w
  else w1 ← _restore_checkpoint rt self w;
       for_each (initialize_node rt) (_nodes self) w1.

(** [self._filtered_nodes = filtered] *)
Definition with_filtered_nodes (self : Loader) (filtered : option (gset nat))
    : Loader :=
  mkLoader (_proto self) (_save_options self) (_node_filters self)
    (_node_path_to_id self) (_loaded_nodes self) filtered (_nodes self)
    (_node_setters self).

(** What the end of [__init__] does between the worlds [w] and [w']:
    the checkpoint is restored first, and then, for every node of
    [_nodes] in order, in the world [wi] the loop has reached, a node that
    is a capturable resource has its [_initialize] called, and when not
    executing eagerly the op it returns is appended to TABLE_INITIALIZERS
    before the loop goes on. *)
Definition resources_initialized (rt : Runtime) (self : Loader)
    (w w' : World) : Prop :=
  ∃ w1, _restore_checkpoint rt self w = Ok w1 ∧
    ∀ before node after, _nodes self = before ++ node :: after →
      ∃ wi wi',
        for_each (initialize_node rt) before w1 = Ok wi ∧
        for_each (initialize_node rt) after wi' = Ok w' ∧
        if isinstance rt wi node CapturableResource
        then ∃ r init_op wc,
               node = VObj r ∧
               _initialize rt r wi = Ok (init_op, wc) ∧
               wi' = if rt_executing_eagerly rt wc then wc
                     else add_to_TABLE_INITIALIZERS wc (item init_op)
        else wi' = wi.

Definition Loader_init (rt : Runtime) (object_graph_proto : SavedObjectGraph.t)
    (save_options : LoadOptions) (filters : option node_filters) (w : World)
    : result (Loader * World * list event) :=
  w0 ← rt_load_function_def_library rt w;
  node_path_to_id ←
    _convert_node_paths_to_ints (SavedObjectGraph.nodes object_graph_proto)
      (filter_keys <$> filters);
  loaded_nodes ←
    match filters, node_path_to_id with
    | Some (filters_dict d), Some path_to_id => init_loaded_nodes d path_to_id ∅
    | _, _ => Ok ∅
    end;
  let self0 :=
    mkLoader object_graph_proto save_options filters node_path_to_id
      loaded_nodes None [] ∅ in
  '(filtered, self1) ← _retrieve_all_filtered_nodes rt w0 self0;
  let self2 := with_filtered_nodes self1 filtered in
  '(self3, w1, log) ← _load_all rt self2 w0;
  w2 ← restore_and_initialize rt self3 w1;
  Ok (self3, w2, log).

(** ** The entry points *)

Record MetaGraphDef := mkMetaGraphDef {
  object_graph_def : option SavedObjectGraph.t;   (* HasField / the field *)
  meta_info_def_tags : list string;
  tensorflow_version : string;
  tensorflow_git_version : string }.

Record SavedModel := mkSavedModel { meta_graphs : list MetaGraphDef }.

(** [{node_id: loader.get(node_id) for node_id in filters}] *)
Fixpoint collect_filtered (loader : Loader) (paths : list string)
    (acc : gmap string value) : result (gmap string value) :=
  match paths with
  | [] => Ok acc
  | node_id :: rest =>
      v ← get_path loader node_id;
      collect_filtered loader rest (<[node_id := v]> acc)
  end.

(** The branch of [load_internal] for a SavedModel with an object graph. *)
Definition load_object_graph (rt : Runtime) (meta_graph_def : MetaGraphDef)
    (object_graph_proto : SavedObjectGraph.t) (tags : option (list string))
    (options : LoadOptions) (filters : option node_filters) (w : World)
    : result (gmap string value * World) :=
  if match tags with
     | Some t => bool_decide ((list_to_set t : gset string)
                              ≠ list_to_set (meta_info_def_tags meta_graph_def))
     | None => false
     end
  then Err TagMismatchError
  else
    match Loader_init rt object_graph_proto options filters w with
    | Err NotFoundError => Err FileNotFoundError
    | Err e => Err e
    | Ok (loader, w1, _) =>
        root ← get_id loader 0;
        debug_info ← rt_adjust_debug_info rt w1;
        w2 ← py_setattr root "graph_debug_info" debug_info w1;
        w3 ← py_setattr root "tensorflow_version"
               (VStr (tensorflow_version meta_graph_def)) w2;
        w4 ← py_setattr root "tensorflow_git_version"
               (VStr (tensorflow_git_version meta_graph_def)) w3;
        match filters with
        | Some f =>
            if truthy filters
            then m ← collect_filtered loader (filter_keys f) ∅; Ok (m, w4)
            else Ok ({["root" := root]}, w4)
        | None => Ok ({["root" := root]}, w4)
        end
    end.

(** The branch for SavedModels without an object graph (TensorFlow V1,
    Estimator). *)
Definition load_v1 (rt : Runtime) (filters : option node_filters) (w : World)
    : result (gmap string value * World) :=
  if truthy filters then Err V1FiltersError
  else
    '(root, w1) ← rt_load_v1 rt w;
    w2 ← py_setattr root "graph_debug_info" (rt_debug_info rt) w1;
    Ok ({["root" := root]}, w2).

(** [saved_model_proto] is what [parse_saved_model_with_debug_info] read
    from [export_dir]; [tags] is already flattened; [loader_cls] is
    [Loader].  The byte swap on big-endian hosts rewrites tensor contents
    only. *)
Definition load_internal (rt : Runtime) (saved_model_proto : SavedModel)
    (tags : option (list string)) (options : LoadOptions)
    (filters : option node_filters) (w : World)
    : result (gmap string value * World) :=
  match meta_graphs saved_model_proto with
  | [meta_graph_def] =>
      match object_graph_def meta_graph_def with
      | Some object_graph_proto =>
          load_object_graph rt meta_graph_def object_graph_proto tags options
            filters w
      | None => load_v1 rt filters w
      end
  | _ => load_v1 rt filters w
  end.

(** [load_partial(export_dir, filters, tags, options)] *)
Definition load_partial (rt : Runtime) (saved_model_proto : SavedModel)
    (filters : option node_filters) (tags : option (list string))
    (options : LoadOptions) (w : World) : result (gmap string value * World) :=
  load_internal rt saved_model_proto tags options filters w.

(** [loaded[path]] for the mapping [loaded] a load has returned. *)
Definition item_of (loaded : result (gmap string value * World))
    (path : string) : option value :=
  match loaded with
  | Ok (m, _) => m !! path
  | Err _ => None
  end.

(** [getattr(... getattr(v, name1) ..., namek)] *)
Fixpoint follow (w : World) (v : value) (names : list string) : option value :=
  match names with
  | [] => Some v
  | name :: rest =>
      match getattr w v name with
      | Ok x => follow w x rest
      | Err _ => None
      end
  end.

(** [loaded[path].name1. ... .namek] *)
Definition reach (loaded : result (gmap string value * World))
    (path : string) (names : list string) : option value :=
  match loaded with
  | Ok (m, w) => m !! path ≫= λ v, follow w v names
  | Err _ => None
  end.

(** [load(export_dir, tags, options)]: [load_internal(...)["root"]] *)
Definition load (rt : Runtime) (saved_model_proto : SavedModel)
    (tags : option (list string)) (options : LoadOptions) (w : World)
    : result (value * World) :=
  '(m, w1) ← load_internal rt saved_model_proto tags options None w;
  match m !! "root" with
  | Some root => Ok (root, w1)
  | None => Err KeyError
  end.

(** ** [_WrapperFunction]: captured inputs at call time *)

Module WrapperFunction.

(** What the surroundings answer when the function is called:
    [ds_context.get_replica_context()] (the replica, if any) and
    [values_util.is_saving_non_distributed()]. *)
Record ExecutionContext := mkContext {
  get_replica_context : option nat;
  is_saving_non_distributed : bool }.

(** The graph operations [_unused_handle] adds; operands are positions in
    the graph. *)
Inductive op : Type :=
  | placeholder_with_default (default : bool)
  | Assert (condition : nat) (data : list string)
  | placeholder_resource (control_inputs : list nat).

(** A captured input: a distributed variable, or anything else (a tensor,
    a handle, the output of a graph operation). *)
Inductive captured : Type :=
  | distributed (var : nat)
  | handle_tensor (var : nat) (replica : option nat)
  | other (t : nat)
  | output_of (op_index : nat).

Definition error_message : string :=
  "Trying to access a placeholder that is not supposed to be executed. This means you are executing a graph generated from the cross-replica context in an in-replica context.".

(** Returns a placeholder as a handle that is not supposed to be accessed. *)
Definition _unused_handle (graph : list op) : captured * list op :=
  let condition := length graph in
  let graph1 := graph ++ [placeholder_with_default false] in
  let assert_op := length graph1 in
  let graph2 := graph1 ++ [Assert condition [error_message]] in
  let handle := length graph2 in
  (output_of handle, graph2 ++ [placeholder_resource [assert_op]]).

Definition is_distributed_variable (x : captured) : bool :=
  match x with
  | distributed _ => true
  | _ => false
  end.

(** [x.handle if is_distributed_variable(x) else x]; [handle] is the
    variable's [handle] property, which reads the context itself. *)
Definition get_handle (handle : ExecutionContext → nat → captured)
    (ctx : ExecutionContext) (x : captured) : captured :=
  match x with
  | distributed var => handle ctx var
  | _ => x
  end.

(** [list(map(get_unused_handle, captured_inputs))] *)
Fixpoint map_get_unused_handle (captured_inputs : list captured)
    (graph : list op) : list captured * list op :=
  match captured_inputs with
  | [] => ([], graph)
  | x :: rest =>
      let '(y, graph1) :=
        if is_distributed_variable x then _unused_handle graph
        else (x, graph) in
      let '(ys, graph2) := map_get_unused_handle rest graph1 in
      (y :: ys, graph2)
  end.

(** The captured inputs [_call_flat] hands to
    [ConcreteFunction._call_flat], and the graph afterwards. *)
Definition _call_flat (handle : ExecutionContext → nat → captured)
    (ctx : ExecutionContext) (captured_inputs : list captured)
    (graph : list op) : list captured * list op :=
  if bool_decide (get_replica_context ctx ≠ None)
     || is_saving_non_distributed ctx
  then (get_handle handle ctx <$> captured_inputs, graph)
  else map_get_unused_handle captured_inputs graph.

(** A restored function keeps the captures [_setup_functions_captures]
    gave it. *)
Record ConcreteFunction := mkConcreteFunction {
  _captured_inputs : list captured }.

(** One invocation: the caller passes [self.captured_inputs]; the function
    object is left as it was. *)
Definition invoke (handle : ExecutionContext → nat → captured)
    (self : ConcreteFunction) (ctx : ExecutionContext) (graph : list op)
    : ConcreteFunction * list captured * list op :=
  let '(resolved, graph') :=
    _call_flat handle ctx (_captured_inputs self) graph in
  (self, resolved, graph').

(** The placeholder at [i] can only run after an assertion on a condition
    that is false unless fed. *)
Definition guarded_by_false_assertion (graph : list op) (x : captured) : Prop :=
  ∃ i a c data,
    x = output_of i ∧
    graph !! i = Some (placeholder_resource [a]) ∧
    graph !! a = Some (Assert c data) ∧
    graph !! c = Some (placeholder_with_default false).

End WrapperFunction.

(** ** Scenarios

    The graph of the design document's scenarios: the root with a child
    ["child_layer"], which has a child ["v"], a variable. *)

Module Scenario.

Definition edge (name : string) (target : nat) : ObjectReference.t :=
  ObjectReference.mk target name.

Definition object_node (children : list ObjectReference.t) : SavedObject.t :=
  SavedObject.mk children [] (user_object "_generic_user_object") [].

Definition variable_node : SavedObject.t := SavedObject.mk [] [] variable [].

Definition nodes : list SavedObject.t :=
  [ object_node [edge "child_layer" 1];
    object_node [edge "v" 2];
    variable_node ].

Definition graph : SavedObjectGraph.t := SavedObjectGraph.mk nodes [].

(** A runtime without registered types: class 0 is a resource variable,
    1 an asset, 2 a tensor, 3 a function, 4 a distributed variable, 5 a
    lookup table, 6 an optimizer, 7 [tf.Module], 8 a trackable list. *)
Definition flags_of (n : nat) : TypeFlags :=
  match n with
  | 0 => mkTypeFlags true false false true false false false false false
  | 1 => mkTypeFlags true false false false true false false false false
  | 2 => mkTypeFlags false false false false false true false false false
  | 3 => mkTypeFlags true false false false false false false false true
  | 4 => mkTypeFlags true false true true false false false false false
  | 5 => mkTypeFlags true false false false false false true true false
  | 6 => mkTypeFlags true false false false false false false false false
  | 7 => mkTypeFlags true false false false false false false false false
  | 8 => mkTypeFlags true true false false false false false false false
  | _ => no_flags
  end.

Definition new_object (c : nat) (w : World) : ref * World :=
  alloc w (λ _, mkPyObject (external_cls c) ∅ ∅ ∅).

Definition new_value (c : nat) (w : World) : result (value * World) :=
  let '(r, w') := new_object c w in Ok (VObj r, w').

Definition construct (k : SavedObjectKind) (w : World) : result (ref * World) :=
  Ok (new_object
        match k with
        | variable => 0
        | asset _ => 1
        | constant | captured_tensor => 2
        | function | bare_concrete_function => 3
        | _ => 7
        end w).

(** No restore ops, nothing persisted, nothing constructed. *)
Definition empty_status : LoadStatus :=
  mkLoadStatus [] [] [] [] (λ _, []).

(** The runtime whose [restore] reports [status]. *)
Definition runtime_restoring (status : LoadStatus) (eager : bool) : Runtime :=
  {| rt_type_flags := flags_of;
     rt_iter_set := elements;
     rt_executing_eagerly := λ _, eager;
     rt_deserialize := λ _ w, Ok (None, w);
     rt_construct := construct;
     rt_add_slot := λ _ _ _ w, Ok (new_object 0 w);
     rt_custom_setter := λ _ obj name x w, py_setattr obj name x w;
     rt_setup_function_structure := λ _ w, Ok w;
     rt_bind_captures := λ _ _ _ w, Ok w;
     rt_resource_handle := λ _ w, new_value 2 w;
     rt_restored_saved_object_factory := λ _ _ w, new_value 9 w;
     rt_restore := λ _ w, Ok (status, w);
     rt_group := λ _ w, new_value 2 w;
     rt_initialize := λ _ w, new_value 2 w;
     rt_call := λ _ w, new_value 2 w;
     rt_load_function_def_library := λ w, Ok w;
     rt_adjust_debug_info := λ _, Ok VNone;
     rt_debug_info := VNone;
     rt_load_v1 := λ w, new_value 7 w |}.

Definition runtime : Runtime := runtime_restoring empty_status true.

Definition empty_world : World := mkWorld ∅ ∅ [].

(** A SavedModel written by TensorFlow 1: one meta graph, no object
    graph. *)
Definition v1_saved_model : SavedModel :=
  mkSavedModel [mkMetaGraphDef None ["serve"] "1.15.0" ""].

Definition saved_model : SavedModel :=
  mkSavedModel [mkMetaGraphDef (Some graph) ["serve"] "2.6.0" ""].

Definition skip_checkpoint : LoadOptions := mkLoadOptions true false.

(** A graph with an optimizer (node 1) that keeps the slot ["m"] (node 3)
    for the variable of node 2. *)
Definition optimizer_nodes : list SavedObject.t :=
  [ object_node [edge "optimizer" 1; edge "v" 2];
    SavedObject.mk [] [SlotVariableReference.mk 2 "m" 3]
      (user_object "optimizer") [];
    variable_node;
    variable_node ].


(** A graph with a dot in a local name: node 0 has the children
    ["a.b"] (node 1), ["a"] (node 2) and ["c"] (node 3), and node 2 has the
    child ["b"] (node 3). *)
Definition dotted_nodes : list SavedObject.t :=
  [ object_node [edge "a.b" 1; edge "a" 2; edge "c" 3];
    object_node [];
    object_node [edge "b" 3];
    object_node [] ].

Definition dotted_model : SavedModel :=
  mkSavedModel
    [mkMetaGraphDef (Some (SavedObjectGraph.mk dotted_nodes [])) ["serve"]
       "2.6.0" ""].

Definition dotted_filters : node_filters :=
  filters_list ["root.a.b"; "root.c"; "root.a"; "root"].

(** A graph whose node 1 is the child ["a"] and the child ["b"] of the
    root. *)
Definition shared_nodes : list SavedObject.t :=
  [ object_node [edge "a" 1; edge "b" 1]; variable_node ].

Definition shared_graph : SavedObjectGraph.t :=
  SavedObjectGraph.mk shared_nodes [].

Definition shared_model : SavedModel :=
  mkSavedModel [mkMetaGraphDef (Some shared_graph) ["serve"] "2.6.0" ""].

Definition shared_filters : node_filters := filters_list ["root.a"; "root.b"].

(** The filters of the design document's partial-load scenario. *)
Definition scenario_filters : node_filters :=
  filters_list ["root.child_layer"; "root.child_layer.v"].

(** The scenario graph with a fourth node that no edge leads to. *)
Definition detached_nodes : list SavedObject.t := nodes ++ [variable_node].

(** The loader for the filters [["root"]] on that graph, after
    [_convert_node_paths_to_ints]. *)
Definition detached_loader : Loader :=
  mkLoader (SavedObjectGraph.mk detached_nodes []) skip_checkpoint
    (Some (filters_list ["root"])) (Some {["root" := 0]}) ∅ None [] ∅.

(** A world with a resource variable at address 0 whose handle is the
    tensor at address 1, and two [tf.Module] objects at 2 and 3. *)
Definition small_world : World :=
  mkWorld
    (<[0 := mkPyObject (external_cls 0) {["handle" := VObj 1]} ∅ ∅]>
       (<[1 := mkPyObject (external_cls 2) ∅ ∅ ∅]>
          (<[2 := mkPyObject (external_cls 7) ∅ ∅ ∅]>
             (<[3 := mkPyObject (external_cls 7) ∅ ∅ ∅]> ∅))))
    ∅ [].

(** A loader after [_load_nodes] over [small_world]: node 0 is the
    variable, node 1 a module, node 2 was not loaded. *)
Definition small_loader : Loader :=
  mkLoader (SavedObjectGraph.mk [] []) skip_checkpoint
    (Some (filters_list ["root"])) (Some ∅) ∅ None
    [VObj 0; VObj 2; VNone] {[0 := setattr; 1 := setattr]}.

(** A restore that matched the variable of node 2 and left the persisted
    entry 5 without an object. *)
Definition partial_status : LoadStatus :=
  mkLoadStatus [(2, VObj 0)] [2] [] [5] (λ _, []).

Definition allow_partial : LoadOptions := mkLoadOptions false true.

Definition partial_loader : Loader :=
  mkLoader (SavedObjectGraph.mk [] []) allow_partial None None ∅ None
    [VObj 2; VObj 3; VObj 0] {[0 := setattr; 1 := setattr; 2 := setattr]}.

Definition strict : LoadOptions := mkLoadOptions false false.

(** A graph with a resource (node 1) initialized by the function of
    node 2. *)
Definition table_nodes : list SavedObject.t :=
  [ object_node [edge "table" 1];
    SavedObject.mk [edge "_initialize" 2] [] resource [];
    SavedObject.mk [] [] function [] ].

Definition table_graph : SavedObjectGraph.t :=
  SavedObjectGraph.mk table_nodes [].

(** The runtime when building a graph (not executing eagerly). *)
Definition graph_runtime : Runtime := runtime_restoring empty_status false.

End Scenario.

(** ** Descendants and the traversal's invariant *)

(** [j] is [i] or a descendant of [i] through child edges. *)
Inductive reaches (nodes : list SavedObject.t) : nat → nat → Prop :=
  | reaches_refl i : reaches nodes i i
  | reaches_step i proto reference j :
      nodes !! i = Some proto →
      reference ∈ SavedObject.children proto →
      reaches nodes (ObjectReference.node_id reference) j →
      reaches nodes i j.

(** [i] is the node of one of the filters [F], or a descendant of one. *)
Definition requested (nodes : list SavedObject.t) (F : list string) (i : nat)
    : Prop :=
  ∃ P k, P ∈ F ∧ resolve nodes P = Ok k ∧ reaches nodes k i.

(** [k] has been visited, or a path to it waits in the queue. *)
Definition pending_or_visited (nodes : list SavedObject.t) (st : FilterState)
    (k : nat) : Prop :=
  k ∈ all_filtered_nodes st
  ∨ ∃ p, p ∈ nodes_to_visit st ∧ resolve nodes p = Ok k.

(** What the [while] loop of [_retrieve_all_filtered_nodes] keeps true, for
    the filters [F] and the nodes [L0] the caller supplied. *)
Definition traversal_inv (rt : Runtime) (w : World)
    (nodes : list SavedObject.t) (F : list string)
    (L0 : gmap nat (value * setter)) (st : FilterState) : Prop :=
  index_sound nodes (node_path_to_id st) ∧
  (∀ P k, P ∈ F → resolve nodes P = Ok k → pending_or_visited nodes st k) ∧
  (∀ i proto reference,
     i ∈ all_filtered_nodes st → nodes !! i = Some proto →
     reference ∈ SavedObject.children proto →
     pending_or_visited nodes st (ObjectReference.node_id reference)) ∧
  (∀ i, i ∈ all_filtered_nodes st →
     requested nodes F i ∧ is_Some (nodes !! i)) ∧
  (∀ p j, p ∈ nodes_to_visit st → resolve nodes p = Ok j →
     requested nodes F j) ∧
  (∀ j node s, L0 !! j = Some (node, s) → node ≠ VNone →
     loaded_nodes st !! j = Some (node, s)) ∧
  (∀ j node s, j ∈ all_filtered_nodes st → L0 !! j = Some (node, s) →
     node ≠ VNone → isinstance rt w node Trackable = true).

(** A Python set is iterated in some order that enumerates its elements
    once each. *)
Definition set_order_ok (rt : Runtime) : Prop :=
  ∀ s : gset nat, rt_iter_set rt s ≡ₚ elements s.

(** The loaded-node table [__init__] starts from. *)
Definition initial_loaded_nodes (f : node_filters) (m : gmap string nat)
    : result (gmap nat (value * setter)) :=
  match f with
  | filters_dict d => init_loaded_nodes d m ∅
  | filters_list _ => Ok ∅
  end.

(** The slot variables of the optimizers among the requested nodes. *)
Definition requested_slot (nodes : list SavedObject.t) (F : list string)
    (i : nat) : Prop :=
  ∃ optimizer_id proto slot,
    requested nodes F optimizer_id ∧
    nodes !! optimizer_id = Some proto ∧
    slot ∈ SavedObject.slot_variables proto ∧
    SlotVariableReference.slot_variable_node_id slot = i.

(** ** Attributes under the dummy root *)

(** Attributes are only added between [w] and [w']: what [getattr]
    answered in [w] it answers in [w']. *)
Definition extends (w w' : World) : Prop :=
  ∀ v name x, getattr w v name = Ok x → getattr w' v name = Ok x.

(** The attribute names [_load_edges] follows from the dummy root for a
    filter: the segments after ["root"], and the last one again when it is
    the only one. *)
Definition names_from_root (node_path : string) : list string :=
  removelast (tail (PyStr.split node_path))
  ++ [List.last (PyStr.split node_path) ""].

(** ** [adjust_debug_info_func_names]

    The method by itself, as load.py has it: the debug info is the list of
    file names and the traces by key, in the order the loop meets the
    keys; [concrete_functions] maps the name of a restored function to
    [function_def.signature.name]; [None] stands for the [ValueError] of
    the unpacking [node, func = key.split("@")]. *)

Module DebugInfo.

(** [s.split(sep)] for a separator of one character. *)
Fixpoint split_on (sep : ascii) (s : string) : list string :=
  match s with
  | EmptyString => [""]
  | String c s' =>
      if decide (c = sep) then "" :: split_on sep s'
      else match split_on sep s' with
           | h :: t => String c h :: t
           | [] => [String c ""]
           end
  end.

Record GraphDebugInfo (T : Type) := mk {
  files : list string;
  traces : list (string * T) }.

Arguments mk {T} files traces.
Arguments files {T} g.
Arguments traces {T} g.

(** [new_func]: the signature name if [func] is a restored function,
    the empty string otherwise. *)
Definition new_func (concrete_functions : gmap string string) (func : string)
    : string :=
  default "" (concrete_functions !! func).

(** The loop over [debug_info.traces]. *)
Fixpoint rewrite_traces {T} (concrete_functions : gmap string string)
    (traces : list (string * T)) (output : gmap string T)
    : option (gmap string T) :=
  match traces with
  | [] => Some output
  | (key, trace) :: rest =>
      match split_on "@" key with
      | [node; func] =>
          rewrite_traces concrete_functions rest
            (<[node +:+ "@" +:+ new_func concrete_functions func := trace]>
               output)
      | _ => None
      end
  end.

Definition adjust_debug_info_func_names {T}
    (concrete_functions : gmap string string)
    (debug_info : GraphDebugInfo T) : option (list string * gmap string T) :=
  output_traces ← rewrite_traces concrete_functions (traces debug_info) ∅;
  Some (files debug_info, output_traces).

(** Two traces of the function ["f"], restored as ["f1"], and one of a
    function that was not restored. *)
Definition sample_debug_info : GraphDebugInfo nat :=
  mk ["model.py"] [("a@f", 1); ("b@f", 2); ("a@g", 3)].

Definition sample_functions : gmap string string :=
  {["f" := "f1"]}.

End DebugInfo.

(** ** More scenarios *)

(** The loader for the filters [["root.child_layer"]] on the scenario
    graph, after [_convert_node_paths_to_ints]. *)
Definition layer_loader : Loader :=
  mkLoader Scenario.graph Scenario.skip_checkpoint
    (Some (filters_list ["root.child_layer"]))
    (Some {["root.child_layer" := 1]}) ∅ None [] ∅.


(** A supplied object for the variable of the optimizer graph: the
    loader, before [_load_nodes], of the load over [Scenario.small_world]
    that asks for the root and gives the variable at address 0, with a
    setter of the caller's, for ["root.v"]. *)
Definition reusing_loader : Loader :=
  mkLoader (SavedObjectGraph.mk Scenario.optimizer_nodes [])
    Scenario.skip_checkpoint
    (Some (filters_dict [("root", fv_node VNone);
                         ("root.v", fv_tuple (VObj 0) (custom_setter 0))]))
    (Some (<["root.optimizer" := 1]> (<["root.v" := 2]> {["root" := 0]})))
    (<[2 := (VObj 0, custom_setter 0)]> {[0 := (VNone, setattr)]})
    None [] ∅.

(** The optimizer graph with a fifth node that no edge leads to, and the
    loader, before [_load_nodes], of the load over [Scenario.small_world]
    that asks for the optimizer (node 1) and gives the variable at address
    0 for ["root.v"] (node 2). *)
Definition optimizer_only_loader : Loader :=
  mkLoader
    (SavedObjectGraph.mk (Scenario.optimizer_nodes ++ [Scenario.variable_node])
       [])
    Scenario.skip_checkpoint
    (Some (filters_dict [("root.optimizer", fv_node VNone);
                         ("root.v", fv_node (VObj 0))]))
    (Some (<["root.v" := 2]> {["root.optimizer" := 1]}))
    (<[2 := (VObj 0, setattr)]> {[1 := (VNone, setattr)]})
    (Some {[1; 2]}) [] ∅.

(** A graph whose node 1 has no kind, and the loader, before
    [_load_nodes], of the load over [Scenario.small_world] that asks for
    the root and gives the module at address 2 for ["root.x"] (node 1). *)
Definition kindless_loader : Loader :=
  mkLoader
    (SavedObjectGraph.mk
       [Scenario.object_node [Scenario.edge "x" 1];
        SavedObject.mk [] [] kind_not_set []] [])
    Scenario.skip_checkpoint
    (Some (filters_dict [("root", fv_node VNone);
                         ("root.x", fv_node (VObj 2))]))
    (Some (<["root.x" := 1]> {["root" := 0]}))
    (<[1 := (VObj 2, setattr)]> {[0 := (VNone, setattr)]})
    None [] ∅.

(** The partial load of the optimizer graph that asks for the variable
    only. *)
Definition variable_only_filters : node_filters := filters_list ["root.v"].

(** The scenario SavedModel under other tags: twice ["serve"], and
    ["train"]. *)
Definition repeated_tags : list string := ["serve"; "serve"].

Definition other_tags : list string := ["train"].

(** A graph with a cycle: the root has the child ["a"] (node 1), node 1
    has the children ["back"] (the root) and ["self"] (node 1). *)
Definition cyclic_nodes : list SavedObject.t :=
  [ Scenario.object_node [Scenario.edge "a" 1];
    Scenario.object_node [Scenario.edge "back" 0; Scenario.edge "self" 1] ].

Definition cyclic_loader : Loader :=
  mkLoader (SavedObjectGraph.mk cyclic_nodes []) Scenario.skip_checkpoint
    (Some (filters_list ["root.a"])) (Some {["root.a" := 1]}) ∅ None [] ∅.

(** A world in which the module at address 0 tracks the list at address 1
    (class 8, a trackable data structure) under the name ["v"]. *)
Definition tracking_world : World :=
  mkWorld
    (<[0 := mkPyObject (external_cls 7) ∅ {["v" := VObj 1]} ∅]>
       (<[1 := mkPyObject (external_cls 8) ∅ ∅ ∅]> ∅))
    ∅ [].

(** The loader for that module supplied as ["root.child_layer"] of the
    scenario graph. *)
Definition tracking_loader : Loader :=
  mkLoader Scenario.graph Scenario.skip_checkpoint
    (Some (filters_dict [("root.child_layer", fv_node (VObj 0))]))
    (Some {["root.child_layer" := 1]}) {[1 := (VObj 0, setattr)]} None [] ∅.

(** A loader after [_load_nodes] over [Scenario.small_world] for the
    scenario graph: the modules at 2 and 3 and the variable at 0, node 1
    paired with the setter [s]. *)
Definition wired_loader (s : setter) : Loader :=
  mkLoader Scenario.graph Scenario.skip_checkpoint None None ∅ None
    [VObj 2; VObj 3; VObj 0] {[0 := setattr; 1 := s; 2 := setattr]}.

(** A loader after [_load_nodes] for the filters
    [["root.child_layer.v"]] on the scenario graph over
    [Scenario.small_world]: the dummy root is the module at 2, the
    variable is the object at 0. *)
Definition rooted_loader : Loader :=
  mkLoader Scenario.graph Scenario.skip_checkpoint
    (Some (filters_list ["root.child_layer.v"]))
    (Some {["root.child_layer.v" := 2]}) ∅ (Some {[2]})
    [VObj 2; VNone; VObj 0] {[2 := setattr]}.

(** The scenario graph with a function that captures the variable of
    node 2, and a loader for it after [_load_nodes] over
    [Scenario.small_world]. *)
Definition capturing_graph : SavedObjectGraph.t :=
  SavedObjectGraph.mk Scenario.nodes [("f", SavedConcreteFunction.mk [2])].

Definition capturing_loader : Loader :=
  mkLoader capturing_graph Scenario.skip_checkpoint None None ∅ None
    [VObj 2; VObj 3; VObj 0] {[0 := setattr; 1 := setattr; 2 := setattr]}.


(** The optimizer graph with an edge ["s"] from the root to the slot
    variable (node 3), and the loader, before [_load_nodes], of the load
    over [Scenario.small_world] that asks for the root and gives the
    module at address 3, with a setter of the caller's, for ["root.s"]. *)
Definition slotted_nodes : list SavedObject.t :=
  [ Scenario.object_node
      [Scenario.edge "optimizer" 1; Scenario.edge "v" 2; Scenario.edge "s" 3];
    SavedObject.mk [] [SlotVariableReference.mk 2 "m" 3]
      (user_object "optimizer") [];
    Scenario.variable_node;
    Scenario.variable_node ].

Definition slot_supplied_loader : Loader :=
  mkLoader (SavedObjectGraph.mk slotted_nodes []) Scenario.skip_checkpoint
    (Some (filters_dict [("root", fv_node VNone);
                         ("root.s", fv_tuple (VObj 3) (custom_setter 0))]))
    (Some (<["root.optimizer" := 1]>
             (<["root.s" := 3]> (<["root.v" := 2]> {["root" := 0]}))))
    (<[3 := (VObj 3, custom_setter 0)]> {[0 := (VNone, setattr)]})
    None [] ∅.

(** * Properties *)

Lemma bind_Ok_inv {A B} (r : result A) (k : A → result B) b :
  r ≫= k = Ok b → ∃ a, r = Ok a ∧ k a = Ok b.
Proof. destruct r as [a|e]; simpl; [eauto | discriminate]. Qed.

Ltac inv_bind H :=
  let a := fresh "a" in
  let Ha := fresh "H" a in
  apply bind_Ok_inv in H; destruct H as (a & Ha & H).

(** ** Strings *)

Lemma split_nonempty s : PyStr.split s ≠ [].
Proof.
  destruct s as [|c s]; simpl; [done|].
  case_decide; [done|]. by destruct (PyStr.split s).
Qed.

Lemma split_dotless s : PyStr.dotless s = true → PyStr.split s = [s].
Proof.
  induction s as [|c s IH]; simpl; [done|].
  case_decide; [done|]. intros Hs. by rewrite (IH Hs).
Qed.

(** Appending [".name"] with a dot-free [name] appends one segment. *)
Lemma split_format2 a b :
  PyStr.dotless b = true →
  PyStr.split (PyStr.format2 a b) = PyStr.split a ++ [b].
Proof.
  intros Hb. unfold PyStr.format2. induction a as [|c a IH]; simpl.
  - by rewrite split_dotless.
  - case_decide; [by rewrite IH|].
    rewrite IH. pose proof (split_nonempty a) as Hne.
    by destruct (PyStr.split a).
Qed.

(** ** PathIndex *)

Section PathIndexFacts.

Variable nodes : list SavedObject.t.

Lemma find_child_None children name :
  find_child children name = None ↔
  ∀ reference, reference ∈ children →
    ObjectReference.local_name reference ≠ name.
Proof.
  induction children as [|r rest IH]; simpl.
  - split; [|done]. intros _ reference Hin. by apply elem_of_nil in Hin.
  - case_decide as Heq.
    + split; [done|]. intros Hall. exfalso.
      apply (Hall r); [left | done].
    + rewrite IH. split.
      * intros Hall reference Hin.
        apply elem_of_cons in Hin as [->|Hin]; [done | by apply Hall].
      * intros Hall reference Hin. apply Hall. by right.
Qed.

Lemma find_child_Some children name child :
  find_child children name = Some child →
  ∃ reference, reference ∈ children ∧
    ObjectReference.local_name reference = name ∧
    ObjectReference.node_id reference = child.
Proof.
  induction children as [|r rest IH]; simpl; [done|].
  case_decide as Heq.
  - intros [= <-]. exists r. split; [left | done].
  - intros Hf. destruct (IH Hf) as (r' & Hin & Hn & Hc).
    exists r'. split; [by right | done].
Qed.

Lemma walk_names_walks node_path n names cur target :
  walks nodes cur names target →
  walk_names nodes node_path n names cur = Ok target.
Proof.
  intros Hw. revert n.
  induction Hw as [cur | cur name rest proto child target Hp Hf _ IH];
    intros n; simpl; [done|].
  unfold _find_node_child. rewrite Hp, Hf. simpl. apply IH.
Qed.

Lemma walk_names_Ok node_path n names cur target :
  walk_names nodes node_path n names cur = Ok target →
  walks nodes cur names target.
Proof.
  revert n cur. induction names as [|name rest IH]; intros n cur; simpl.
  - intros [= ->]. constructor.
  - unfold _find_node_child.
    destruct (nodes !! cur) as [proto|] eqn:Hp; [|done].
    destruct (find_child _ name) as [child|] eqn:Hf; [|done].
    simpl. intros Hw. econstructor; eauto.
Qed.

(** The error names the node that was not found: the path up to and
    including the segment that has no edge. *)
Lemma walk_names_missing node_path n names cur k mid name :
  walks nodes cur (take k names) mid →
  names !! k = Some name →
  no_child nodes mid name →
  walk_names nodes node_path n names cur
  = Err (UnknownChildError (PyStr.join (take (n + k + 2) node_path))).
Proof.
  revert n names cur. induction k as [|k IH]; intros n names cur Hw Hk Hno.
  - destruct names as [|name' rest]; [done|].
    simpl in Hk. injection Hk as ->. simpl in Hw. inversion Hw; subst.
    destruct Hno as (proto & Hp & Hall).
    simpl. unfold _find_node_child. rewrite Hp.
    apply find_child_None in Hall. rewrite Hall. simpl.
    by rewrite Nat.add_0_r.
  - destruct names as [|name' rest]; [done|].
    simpl in Hk, Hw. inversion Hw as [|? ? ? proto child ? Hp Hf Hw']; subst.
    simpl. unfold _find_node_child. rewrite Hp, Hf. simpl.
    rewrite (IH (S n) rest child Hw' Hk Hno).
    by replace (S n + k + 2) with (n + S k + 2) by lia.
Qed.

(** With every edge pointing into the graph, a walk that starts inside
    the graph either arrives or stops at a missing child. *)
Lemma walk_names_total node_path n names cur :
  valid_targets nodes → cur < length nodes →
  (∃ target, walk_names nodes node_path n names cur = Ok target) ∨
  (∃ path, walk_names nodes node_path n names cur
           = Err (UnknownChildError path)).
Proof.
  intros [_ Hvalid]. revert n cur.
  induction names as [|name rest IH]; intros n cur Hcur; simpl; [eauto|].
  unfold _find_node_child.
  destruct (lookup_lt_is_Some_2 nodes cur Hcur) as [proto Hp]. rewrite Hp.
  destruct (find_child _ name) as [child|] eqn:Hf; simpl; [|eauto].
  apply IH. apply find_child_Some in Hf as (r & Hin & _ & <-). eauto.
Qed.

Lemma convert_loop_Err before path after m e :
  Forall (λ p, ∃ i, resolve nodes p = Ok i) before →
  resolve nodes path = Err e →
  convert_loop nodes (before ++ path :: after) m = Err e.
Proof.
  intros Hb He. revert m. induction Hb as [|p before [i Hi] _ IH]; intros m.
  - simpl. by rewrite He.
  - simpl. rewrite Hi. simpl. apply IH.
Qed.

Lemma convert_loop_lookup filters m m' path :
  convert_loop nodes filters m = Ok m' →
  (path ∈ filters → ∃ i, resolve nodes path = Ok i ∧ m' !! path = Some i) ∧
  (path ∉ filters → m' !! path = m !! path).
Proof.
  revert m. induction filters as [|p rest IH]; intros m Hc.
  - injection Hc as ->. split; [|done]. intros Hin. by apply elem_of_nil in Hin.
  - simpl in Hc. inv_bind Hc. destruct (IH _ Hc) as [IHin IHout].
    split.
    + intros Hin. destruct (decide (path ∈ rest)) as [Hrest|Hrest]; [eauto|].
      apply elem_of_cons in Hin as [->|Hin]; [|done].
      exists a. split; [done|]. rewrite (IHout Hrest).
      apply lookup_insert_eq.
    + intros Hnot. rewrite IHout.
      * apply lookup_insert_ne. intros ->. apply Hnot. left.
      * intros Hin. apply Hnot. by right.
Qed.

End PathIndexFacts.

Lemma valid_targets_check_correct nodes :
  valid_targets_check nodes = true → valid_targets nodes.
Proof.
  unfold valid_targets_check. intros H.
  apply andb_prop in H as [H0 Hall]. apply bool_decide_eq_true in H0.
  split; [done|]. intros i proto reference Hi Hin.
  rewrite forallb_forall in Hall.
  assert (Hp : In proto nodes).
  { apply list_elem_of_In. eapply list_elem_of_lookup_2; eauto. }
  specialize (Hall _ Hp). rewrite forallb_forall in Hall.
  apply list_elem_of_In in Hin. specialize (Hall _ Hin).
  by apply bool_decide_eq_true in Hall.
Qed.

(** C8, as amended.  A filter path is split on ["."]; if its first
    segment is not ["root"] the conversion of the filters fails with
    MalformedPathError; otherwise the segments are followed through
    child-edge lookups from node 0, and as soon as the current node has no
    edge named like the next segment the conversion fails with
    UnknownChildError carrying the path of the child that was not found
    (the segments up to and including the missing one); in a graph whose
    edges all point at nodes, every path from ["root"] that does not lead
    to a node fails with UnknownChildError.  [before] are filters that
    precede the path and resolve. *)
Theorem resolve_path_errors nodes path before after :
  valid_targets nodes →
  Forall (λ p, ∃ i, resolve nodes p = Ok i) before →
  ∃ first names,
    PyStr.split path = first :: names ∧
    (first ≠ "root" →
       _convert_node_paths_to_ints nodes (Some (before ++ path :: after))
       = Err MalformedPathError) ∧
    (first = "root" →
       (∀ k cur name,
          walks nodes 0 (take k names) cur →
          names !! k = Some name →
          no_child nodes cur name →
          _convert_node_paths_to_ints nodes (Some (before ++ path :: after))
          = Err (UnknownChildError
                   (PyStr.join (take (k + 2) (PyStr.split path))))) ∧
       ((∀ target, ¬ walks nodes 0 names target) →
          ∃ missing,
            _convert_node_paths_to_ints nodes (Some (before ++ path :: after))
            = Err (UnknownChildError missing)) ∧
       (∀ target, walks nodes 0 names target → resolve nodes path = Ok target)).
Proof.
  intros Hvalid Hbefore.
  destruct (PyStr.split path) as [|first names] eqn:Hsplit.
  { by apply split_nonempty in Hsplit. }
  exists first, names. split; [done|].
  assert (Hconv : ∀ e, resolve nodes path = Err e →
            _convert_node_paths_to_ints nodes (Some (before ++ path :: after))
            = Err e).
  { intros e He. simpl. by rewrite (convert_loop_Err nodes before path after ∅ e). }
  split; [|intros ->; split; [|split]].
  - intros Hne. apply Hconv. unfold resolve. rewrite Hsplit.
    by rewrite decide_False.
  - intros k cur name Hw Hk Hno. apply Hconv. unfold resolve.
    rewrite Hsplit. rewrite decide_True by done.
    by rewrite (walk_names_missing nodes _ 0 names 0 k cur name).
  - intros Hnone.
    destruct (walk_names_total nodes ("root" :: names) 0 names 0 Hvalid)
      as [[target Ht]|[missing Hm]].
    + apply Hvalid.
    + apply walk_names_Ok in Ht. by destruct (Hnone target).
    + exists missing. apply Hconv. unfold resolve. rewrite Hsplit.
      by rewrite decide_True.
  - intros target Hw. unfold resolve. rewrite Hsplit.
    rewrite decide_True by done. by apply walk_names_walks.
Qed.

(** The theorem on the scenario graph, for the filters
    [["root.child_layer"; "root.child_layer.w"]]. *)
Lemma resolve_path_errors_witness :
  valid_targets Scenario.nodes ∧
  Forall (λ p, ∃ i, resolve Scenario.nodes p = Ok i) ["root.child_layer"] ∧
  ∃ first names,
    PyStr.split "root.child_layer.w" = first :: names ∧
    (first ≠ "root" →
       _convert_node_paths_to_ints Scenario.nodes
         (Some (["root.child_layer"] ++ "root.child_layer.w" :: []))
       = Err MalformedPathError) ∧
    (first = "root" →
       (∀ k cur name,
          walks Scenario.nodes 0 (take k names) cur →
          names !! k = Some name →
          no_child Scenario.nodes cur name →
          _convert_node_paths_to_ints Scenario.nodes
            (Some (["root.child_layer"] ++ "root.child_layer.w" :: []))
          = Err (UnknownChildError
                   (PyStr.join
                      (take (k + 2) (PyStr.split "root.child_layer.w"))))) ∧
       ((∀ target, ¬ walks Scenario.nodes 0 names target) →
          ∃ missing,
            _convert_node_paths_to_ints Scenario.nodes
              (Some (["root.child_layer"] ++ "root.child_layer.w" :: []))
            = Err (UnknownChildError missing)) ∧
       (∀ target, walks Scenario.nodes 0 names target →
          resolve Scenario.nodes "root.child_layer.w" = Ok target)).
Proof.
  assert (Hv : valid_targets Scenario.nodes).
  { apply valid_targets_check_correct. vm_compute. reflexivity. }
  assert (Hb : Forall (λ p, ∃ i, resolve Scenario.nodes p = Ok i)
                 ["root.child_layer"]).
  { constructor; [|constructor]. exists 1. vm_compute. reflexivity. }
  split; [exact Hv|]. split; [exact Hb|].
  exact (resolve_path_errors Scenario.nodes "root.child_layer.w"
           ["root.child_layer"] [] Hv Hb).
Defined.

(** C8 as stated does not hold: the error does not carry the parent's
    path.  Looking up ["w"] under ["root.child_layer"] reports
    ["root.child_layer.w"], not ["root.child_layer"]. *)
Lemma resolve_path_parent_counterexample :
  _convert_node_paths_to_ints Scenario.nodes (Some ["root.child_layer.w"])
  = Err (UnknownChildError "root.child_layer.w") ∧
  walks Scenario.nodes 0 ["child_layer"] 1 ∧
  no_child Scenario.nodes 1 "w" ∧
  _convert_node_paths_to_ints Scenario.nodes (Some ["root.child_layer.w"])
  ≠ Err (UnknownChildError "root.child_layer").
Proof.
  split; [vm_compute; reflexivity|]. split; [|split].
  - eapply walks_cons; [reflexivity | reflexivity | constructor].
  - eexists. split; [reflexivity|]. intros reference Hin.
    apply list_elem_of_singleton in Hin as ->. simpl. discriminate.
  - vm_compute. discriminate.
Qed.

(** ** The entry points *)

(** C9.  A load with non-empty filters of a SavedModel whose meta graphs
    carry no object graph fails with the error saying that such
    SavedModels cannot be loaded with node filters; no mapping is
    returned. *)
Theorem load_partial_v1_filters rt saved_model_proto filters tags options w :
  truthy filters = true →
  (∀ meta_graph_def, meta_graph_def ∈ meta_graphs saved_model_proto →
     object_graph_def meta_graph_def = None) →
  load_partial rt saved_model_proto filters tags options w = Err V1FiltersError ∧
  exn_message V1FiltersError =
    "SavedModels saved from Tensorflow V1 or Estimator (any version) cannot be loaded with node filters.".
Proof.
  intros Hf Hnone. split; [|done].
  unfold load_partial, load_internal.
  assert (Hv1 : load_v1 rt filters w = Err V1FiltersError).
  { unfold load_v1. by rewrite Hf. }
  destruct (meta_graphs saved_model_proto) as [|m [|m' rest]] eqn:Hm; [done| |done].
  rewrite (Hnone m); [done|]. left.
Qed.

(** The theorem for [load_partial(v1_model, ["root"])]. *)
Lemma load_partial_v1_filters_witness :
  truthy (Some (filters_list ["root"])) = true ∧
  load_partial Scenario.runtime Scenario.v1_saved_model
    (Some (filters_list ["root"])) None Scenario.skip_checkpoint
    Scenario.empty_world = Err V1FiltersError.
Proof.
  split; [reflexivity|].
  refine (proj1 (load_partial_v1_filters Scenario.runtime
                   Scenario.v1_saved_model (Some (filters_list ["root"]))
                   None Scenario.skip_checkpoint Scenario.empty_world _ _)).
  - reflexivity.
  - intros m Hm. apply list_elem_of_singleton in Hm as ->. reflexivity.
Defined.

(** ** FunctionCaptureRewirer *)

(** C4.  Resolving a bound input that refers to the loaded node [obj]:
    a distributed variable resolves to itself; otherwise a resource
    variable to its [handle]; otherwise an asset to its [asset_path];
    otherwise a tensor to itself; otherwise a capturable resource to its
    [resource_handle] (the property runs the resource's own action);
    anything else fails with CaptureResolutionError; and in a filtered
    load a node that was never loaded ([None]) fails with
    MissingDependencyError. *)
Theorem get_tensor_from_node_cases rt self node_id fn_name w obj :
  _nodes self !! node_id = Some obj →
  let loaded := _node_filters self = None ∨ obj ≠ VNone in
  let is_a := isinstance rt w obj in
  (_node_filters self ≠ None → obj = VNone →
     _get_tensor_from_node rt self node_id fn_name w
     = Err (MissingDependencyError fn_name)) ∧
  (loaded → is_a is_distributed_variable = true →
     _get_tensor_from_node rt self node_id fn_name w = Ok (obj, w)) ∧
  (loaded → is_a is_distributed_variable = false →
     is_a is_resource_variable = true →
     _get_tensor_from_node rt self node_id fn_name w
     = (h ← getattr w obj "handle"; Ok (h, w))) ∧
  (loaded → is_a is_distributed_variable = false →
     is_a is_resource_variable = false → is_a Asset = true →
     _get_tensor_from_node rt self node_id fn_name w
     = (p ← getattr w obj "asset_path"; Ok (p, w))) ∧
  (loaded → is_a is_distributed_variable = false →
     is_a is_resource_variable = false → is_a Asset = false →
     is_a is_tf_type = true →
     _get_tensor_from_node rt self node_id fn_name w = Ok (obj, w)) ∧
  (loaded → is_a is_distributed_variable = false →
     is_a is_resource_variable = false → is_a Asset = false →
     is_a is_tf_type = false → is_a CapturableResource = true →
     ∃ r, obj = VObj r ∧
       _get_tensor_from_node rt self node_id fn_name w
       = rt_resource_handle rt r w) ∧
  (loaded → is_a is_distributed_variable = false →
     is_a is_resource_variable = false → is_a Asset = false →
     is_a is_tf_type = false → is_a CapturableResource = false →
     _get_tensor_from_node rt self node_id fn_name w
     = Err CaptureResolutionError).
Proof.
  intros Hobj loaded is_a. subst is_a. unfold _get_tensor_from_node.
  rewrite Hobj.
  assert (Hl : loaded →
            bool_decide (_node_filters self ≠ None) && bool_decide (obj = VNone)
            = false).
  { intros [Hf|Hobj'].
    - by rewrite (bool_decide_eq_false_2 _ (λ H, H Hf)).
    - rewrite (bool_decide_eq_false_2 _ Hobj'). apply andb_false_r. }
  split; [|repeat split].
  - intros Hf ->. by rewrite !bool_decide_eq_true_2.
  - intros H1 ->. by rewrite (Hl H1).
  - intros H1 -> ->. by rewrite (Hl H1).
  - intros H1 -> -> ->. by rewrite (Hl H1).
  - intros H1 -> -> -> ->. by rewrite (Hl H1).
  - intros H1 -> -> -> -> Hc. rewrite (Hl H1), Hc.
    unfold isinstance, type_of in Hc. destruct obj as [| |r]; try done.
    by exists r.
  - intros H1 -> -> -> -> ->. by rewrite (Hl H1).
Qed.

(** The theorem for the variable at node 0 of [small_loader]. *)
Lemma get_tensor_from_node_cases_witness :
  _nodes Scenario.small_loader !! 0 = Some (VObj 0) ∧
  _get_tensor_from_node Scenario.runtime Scenario.small_loader 0 "f"
    Scenario.small_world
  = (h ← getattr Scenario.small_world (VObj 0) "handle";
     Ok (h, Scenario.small_world)).
Proof.
  split; [reflexivity|].
  refine (proj1 (proj2 (proj2 (get_tensor_from_node_cases Scenario.runtime
            Scenario.small_loader 0 "f" Scenario.small_world (VObj 0) _)))
            _ _ _).
  - reflexivity.
  - right. discriminate.
  - vm_compute. reflexivity.
  - vm_compute. reflexivity.
Defined.

(** ** [_WrapperFunction] *)

Section WrapperFunctionFacts.

Import WrapperFunction.

Variable handle : ExecutionContext → nat → captured.

Lemma guarded_app graph more x :
  guarded_by_false_assertion graph x →
  guarded_by_false_assertion (graph ++ more) x.
Proof.
  intros (i & a & c & data & -> & Hi & Ha & Hc).
  exists i, a, c, data. split; [done|].
  split_and!; by apply lookup_app_l_Some.
Qed.

Lemma unused_handle_guarded graph :
  guarded_by_false_assertion (_unused_handle graph).2 (_unused_handle graph).1
  ∧ ∃ more, (_unused_handle graph).2 = graph ++ more.
Proof.
  unfold _unused_handle. simpl.
  set (graph1 := graph ++ [placeholder_with_default false]).
  set (graph2 := graph1 ++ [Assert (length graph) [error_message]]).
  split.
  - exists (length graph2), (length graph1), (length graph), [error_message].
    split; [done|]. split_and!.
    + by apply list_lookup_middle.
    + apply lookup_app_l_Some. by apply list_lookup_middle.
    + do 2 apply lookup_app_l_Some. by apply list_lookup_middle.
  - eexists. subst graph2 graph1. by rewrite <- !(assoc app).
Qed.

Lemma map_get_unused_handle_spec captured_inputs graph :
  Forall2 (λ x y,
             match x with
             | distributed _ =>
                 guarded_by_false_assertion
                   (map_get_unused_handle captured_inputs graph).2 y
             | _ => y = x
             end)
    captured_inputs (map_get_unused_handle captured_inputs graph).1
  ∧ ∃ more, (map_get_unused_handle captured_inputs graph).2 = graph ++ more.
Proof.
  revert graph. induction captured_inputs as [|x rest IH]; intros graph.
  - simpl. split; [constructor|]. exists []. by rewrite app_nil_r.
  - simpl.
    destruct (is_distributed_variable x) eqn:Hx.
    + destruct (unused_handle_guarded graph) as [Hg [more1 Hm1]].
      destruct (_unused_handle graph) as [y graph1]. simpl in Hg, Hm1.
      destruct (IH graph1) as [Hrest [more2 Hm2]].
      destruct (map_get_unused_handle rest graph1) as [ys graph2].
      simpl in *. split.
      * constructor; [|done]. destruct x; try done.
        rewrite Hm2. by apply guarded_app.
      * exists (more1 ++ more2). by rewrite Hm2, Hm1, (assoc app).
    + destruct (IH graph) as [Hrest Hm].
      destruct (map_get_unused_handle rest graph) as [ys graph2].
      simpl in *. split; [|done].
      constructor; [|done]. by destruct x.
Qed.

(** C5.  Two consecutive invocations of a restored function, in the
    contexts [ctx1] and [ctx2]: the function object is left as it was, and
    what the second invocation resolves its captures to is decided by
    [ctx2] alone.  In a replica context, or while saving a
    non-distributed artifact, each captured distributed variable becomes
    its handle in that context and the rest is passed as it is; otherwise
    each captured distributed variable becomes a placeholder that runs
    only after an assertion on a false condition, and the rest is passed
    as it is. *)
Theorem call_flat_per_invocation self ctx1 ctx2 graph :
  let '(self1, _, graph1) := invoke handle self ctx1 graph in
  let '(self2, resolved, graph2) := invoke handle self1 ctx2 graph1 in
  self1 = self ∧ self2 = self ∧
  if bool_decide (get_replica_context ctx2 ≠ None)
     || is_saving_non_distributed ctx2
  then
    graph2 = graph1 ∧
    Forall2 (λ x y,
               match x with
               | distributed var => y = handle ctx2 var
               | _ => y = x
               end)
      (_captured_inputs self) resolved
  else
    Forall2 (λ x y,
               match x with
               | distributed _ => guarded_by_false_assertion graph2 y
               | _ => y = x
               end)
      (_captured_inputs self) resolved.
Proof.
  unfold invoke.
  destruct (_call_flat handle ctx1 (_captured_inputs self) graph)
    as [resolved1 graph1].
  unfold _call_flat.
  destruct (bool_decide (get_replica_context ctx2 ≠ None)
            || is_saving_non_distributed ctx2).
  - split; [done|]. split; [done|]. split; [done|].
    apply Forall2_fmap_r, Forall_Forall2_diag, Forall_forall.
    intros x _. by destruct x.
  - pose proof (map_get_unused_handle_spec (_captured_inputs self) graph1)
      as [Hspec _].
    destruct (map_get_unused_handle (_captured_inputs self) graph1)
      as [resolved graph2].
    done.
Qed.

End WrapperFunctionFacts.

(** ** EdgeWirer *)

(** C7.  Applying a child edge named ["__call__"] to [obj]: after the
    node's setter has run (in [w1]), if [obj] is not callable the loader
    stores [_call_attribute] on the type of [obj]; no instance is touched
    by that, and every object of that type is callable afterwards.  If
    [obj] is callable already, nothing more happens. *)
Theorem call_marker_attaches_to_type rt self obj s reference w w' :
  ObjectReference.local_name reference = "__call__" →
  add_edge rt self obj s reference w = Ok w' →
  ∃ child w1,
    _nodes self !! ObjectReference.node_id reference = Some child ∧
    apply_setter rt s obj "__call__" child w = Ok w1 ∧
    if callable rt w1 obj then w' = w1
    else
      ∃ c, type_of w1 obj = Some c ∧
        call_attribute_types w' = {[c]} ∪ call_attribute_types w1 ∧
        heap w' = heap w1 ∧
        ∀ other, type_of w' other = Some c → callable rt w' other = true.
Proof.
  intros Hname Hedge. unfold add_edge in Hedge.
  destruct (_nodes self !! _) as [child|]; [|done].
  rewrite Hname in Hedge. inv_bind Hedge.
  exists child, a. split; [done|]. split; [done|].
  rewrite bool_decide_eq_true_2 in Hedge by done. simpl in Hedge.
  destruct (callable rt a obj); simpl in Hedge; [by injection Hedge|].
  unfold set_call_attribute in Hedge.
  destruct (type_of a obj) as [c|] eqn:Hc; [|done].
  injection Hedge as <-. exists c. simpl. split_and!; try done.
  intros other Ho. unfold callable.
  assert (type_of (mkWorld (heap a) ({[c]} ∪ call_attribute_types a)
                     (TABLE_INITIALIZERS a)) other = Some c) as -> by done.
  simpl. rewrite (bool_decide_eq_true_2 (c ∈ _)); [|set_solver].
  apply orb_true_r.
Qed.

(** The theorem for an edge ["__call__"] on the module at address 2 of
    [small_world]; the module at address 3 has the same type. *)
Lemma call_marker_attaches_to_type_witness :
  callable Scenario.runtime Scenario.small_world (VObj 3) = false ∧
  ∃ w',
    add_edge Scenario.runtime Scenario.small_loader (VObj 2) setattr
      (Scenario.edge "__call__" 0) Scenario.small_world = Ok w' ∧
    callable Scenario.runtime w' (VObj 3) = true ∧
    ∃ child w1,
      _nodes Scenario.small_loader
        !! ObjectReference.node_id (Scenario.edge "__call__" 0) = Some child ∧
      apply_setter Scenario.runtime setattr (VObj 2) "__call__" child
        Scenario.small_world = Ok w1 ∧
      if callable Scenario.runtime w1 (VObj 2) then w' = w1
      else
        ∃ c, type_of w1 (VObj 2) = Some c ∧
          call_attribute_types w' = {[c]} ∪ call_attribute_types w1 ∧
          heap w' = heap w1 ∧
          ∀ other, type_of w' other = Some c →
            callable Scenario.runtime w' other = true.
Proof.
  split; [vm_compute; reflexivity|].
  destruct (add_edge Scenario.runtime Scenario.small_loader (VObj 2) setattr
              (Scenario.edge "__call__" 0) Scenario.small_world)
    as [w'|e] eqn:Hedge; [|vm_compute in Hedge; discriminate].
  exists w'. split; [reflexivity|].
  pose proof (call_marker_attaches_to_type Scenario.runtime
                Scenario.small_loader (VObj 2) setattr
                (Scenario.edge "__call__" 0) Scenario.small_world w'
                eq_refl Hedge) as Hthm.
  split; [|exact Hthm].
  vm_compute in Hedge. injection Hedge as <-. vm_compute. reflexivity.
Defined.

(** ** Loops *)

Lemma for_each_app {A S} (body : A → S → result S) l1 l2 s s' :
  for_each body (l1 ++ l2) s = Ok s' ↔
  ∃ s1, for_each body l1 s = Ok s1 ∧ for_each body l2 s1 = Ok s'.
Proof.
  revert s. induction l1 as [|x l1 IH]; intros s; simpl.
  - split; [eauto|]. by intros (s1 & [= ->] & H).
  - split.
    + intros H. inv_bind H. apply IH in H as (s1 & H1 & H2).
      exists s1. by rewrite Ha.
    + intros (s1 & H1 & H2). inv_bind H1. rewrite Ha. simpl.
      apply IH. eauto.
Qed.

(** ** CheckpointRestorer and the end of [__init__] *)

(** C2.  With [status] what the restore reports for the root: in
    allow-partial mode the restore and its assertion fail with
    NoMatchError when there is no non-trivial match and succeed otherwise,
    whatever entries are unmatched; in strict mode they fail with
    UnmatchedObjectsError when a constructed object has no persisted
    entry or a persisted entry has no constructed object, and succeed
    otherwise.  [_restore_checkpoint] fails whenever they fail, and when
    executing eagerly succeeds whenever they succeed. *)
Theorem restore_checkpoint_modes rt self w root status w1 :
  get_id self 0 = Ok root →
  rt_restore rt root w = Ok (status, w1) →
  (if allow_partial_checkpoint (_save_options self)
   then
     match nontrivial_matches status with
     | [] => restore_and_assert rt self w = Err NoMatchError
     | _ => restore_and_assert rt self w = Ok (status, w1)
     end
   else
     match unmatched_objects status, unmatched_entries status with
     | [], [] => restore_and_assert rt self w = Ok (status, w1)
     | _, _ => restore_and_assert rt self w = Err UnmatchedObjectsError
     end) ∧
  (∀ e, restore_and_assert rt self w = Err e →
     _restore_checkpoint rt self w = Err e) ∧
  (rt_executing_eagerly rt w1 = true →
   restore_and_assert rt self w = Ok (status, w1) →
   _restore_checkpoint rt self w = Ok w1).
Proof.
  intros Hroot Hrestore. split; [|split].
  - unfold restore_and_assert. rewrite Hroot. simpl.
    destruct (allow_partial_checkpoint _); rewrite Hrestore; simpl.
    + unfold assert_nontrivial_match, expect_partial.
      by destruct (nontrivial_matches status).
    + unfold assert_existing_objects_matched.
      by destruct (unmatched_objects status), (unmatched_entries status).
  - intros e He. unfold _restore_checkpoint. by rewrite He.
  - intros Heager Hok. unfold _restore_checkpoint. rewrite Hok. simpl.
    by rewrite Heager.
Qed.

Lemma restore_and_initialize_spec rt self w w' :
  experimental_skip_checkpoint (_save_options self) = false →
  restore_and_initialize rt self w = Ok w' →
  resources_initialized rt self w w'.
Proof.
  intros Hskip Hrun. unfold restore_and_initialize in Hrun.
  rewrite Hskip in Hrun. inv_bind Hrun. exists a. split; [done|].
  intros before node after Hnodes. rewrite Hnodes in Hrun.
  apply for_each_app in Hrun as (wi & Hbefore & Hrest).
  simpl in Hrest. inv_bind Hrest. rename a0 into wi'.
  exists wi, wi'. split; [done|]. split; [done|].
  unfold initialize_node in Ha0.
  destruct (isinstance rt wi node CapturableResource) eqn:Hc.
  - unfold isinstance, type_of in Hc. destruct node as [| |r]; try done.
    inv_bind Ha0. destruct a0 as [init_op wc].
    exists r, init_op, wc. split; [done|]. split; [done|].
    destruct (rt_executing_eagerly rt wc); by injection Ha0.
  - by injection Ha0.
Qed.

(** C2 on a restore in allow-partial mode that leaves a persisted entry
    unmatched. *)
Lemma restore_checkpoint_modes_witness :
  get_id Scenario.partial_loader 0 = Ok (VObj 2) ∧
  rt_restore (Scenario.runtime_restoring Scenario.partial_status true)
    (VObj 2) Scenario.small_world
  = Ok (Scenario.partial_status, Scenario.small_world) ∧
  unmatched_entries Scenario.partial_status = [5] ∧
  restore_and_assert (Scenario.runtime_restoring Scenario.partial_status true)
    Scenario.partial_loader Scenario.small_world
  = Ok (Scenario.partial_status, Scenario.small_world).
Proof.
  split; [reflexivity|]. split; [reflexivity|]. split; [reflexivity|].
  exact (proj1 (restore_checkpoint_modes
                  (Scenario.runtime_restoring Scenario.partial_status true)
                  Scenario.partial_loader Scenario.small_world (VObj 2)
                  Scenario.partial_status Scenario.small_world
                  eq_refl eq_refl)).
Defined.

(** ** FilterSelector: the traversal ends *)

Section Traversal.

Variable rt : Runtime.
Variable w : World.
Variable nodes : list SavedObject.t.

Lemma visit_children_queue node node_path children st :
  nodes_to_visit (visit_children rt w node node_path children st)
  = nodes_to_visit st
    ++ ((λ r, PyStr.format2 node_path (ObjectReference.local_name r))
          <$> children).
Proof.
  revert st. induction children as [|r rest IH]; intros st; simpl.
  - by rewrite app_nil_r.
  - rewrite IH. simpl. by rewrite <- (assoc app).
Qed.

Lemma visit_children_visited node node_path children st :
  all_filtered_nodes (visit_children rt w node node_path children st)
  = all_filtered_nodes st.
Proof.
  revert st. induction children as [|r rest IH]; intros st; simpl; [done|].
  by rewrite IH.
Qed.

Lemma pending_edges_ext (v1 v2 : gset nat) (k : nat) l :
  (∀ j : nat, (k ≤ j)%nat → j ∈ v1 ↔ j ∈ v2) →
  pending_edges v1 k l = pending_edges v2 k l.
Proof.
  revert k. induction l as [|proto rest IH]; intros k Hext; simpl; [done|].
  rewrite (IH (S k)) by (intros j Hj; apply Hext; lia).
  f_equal. destruct (Hext k (le_n k)) as [H12 H21].
  repeat case_decide; try done; tauto.
Qed.

Lemma pending_edges_empty (k : nat) l : pending_edges ∅ k l = edge_count l.
Proof.
  revert k. induction l as [|proto rest IH]; intros k; simpl; [done|].
  rewrite IH. by rewrite decide_False by set_solver.
Qed.

(** Visiting a node takes its edges out of the pending ones. *)
Lemma pending_edges_visit (visited : gset nat) (k : nat) l (i : nat) proto :
  l !! i = Some proto →
  k + i ∉ visited →
  pending_edges ({[k + i]} ∪ visited) k l
  + length (SavedObject.children proto)
  = pending_edges visited k l.
Proof.
  revert k i. induction l as [|p rest IH]; intros k i Hi Hnot; [done|].
  destruct i as [|i]; simpl in *.
  - injection Hi as ->. rewrite Nat.add_0_r in *.
    rewrite decide_True by set_solver. rewrite decide_False by done.
    rewrite (pending_edges_ext ({[k]} ∪ visited) visited (S k)); [lia|].
    intros j Hj. rewrite elem_of_union, elem_of_singleton.
    split; [intros [->|?]; [lia|done] | auto].
  - replace (k + S i) with (S k + i) in * by lia.
    rewrite <- (IH (S k) i Hi Hnot).
    assert (k ∈ {[S k + i]} ∪ visited ↔ k ∈ visited) as Hk.
    { rewrite elem_of_union, elem_of_singleton.
      split; [intros [?|?]; [lia|done] | auto]. }
    repeat case_decide; try tauto; lia.
Qed.

(** The measure of the loop: the queue and the edges still to come. *)
Lemma visit_loop_terminates (fuel : nat) st :
  (length (nodes_to_visit st) + pending_edges (all_filtered_nodes st) 0 nodes
   < fuel)%nat →
  is_Some (visit_loop rt w nodes fuel st).
Proof.
  revert st. induction fuel as [|fuel IH]; intros st Hfuel; [lia|].
  simpl. destruct st as [queue visited path_to_id loaded]. simpl in *.
  destruct queue as [|node_path queue]; [eauto|]. simpl in Hfuel.
  destruct (path_to_id !! node_path) as [node_id|]; [|eauto].
  case_decide as Hvisited.
  - apply IH. simpl. lia.
  - destruct (_ && _); [eauto|].
    destruct (nodes !! node_id) as [proto|] eqn:Hproto; [|eauto].
    apply IH. rewrite visit_children_queue, visit_children_visited. simpl.
    rewrite length_app, length_fmap.
    pose proof (pending_edges_visit visited 0 nodes node_id proto Hproto
                  Hvisited) as Hpending.
    simpl in Hpending. lia.
Qed.

(** More fuel does not change the outcome. *)
Lemma visit_loop_mono (fuel fuel' : nat) st r :
  visit_loop rt w nodes fuel st = Some r →
  (fuel ≤ fuel')%nat →
  visit_loop rt w nodes fuel' st = Some r.
Proof.
  revert fuel' st. induction fuel as [|fuel IH]; intros fuel' st Hrun Hle;
    [done|].
  destruct fuel' as [|fuel']; [lia|]. simpl in *.
  destruct (nodes_to_visit st) as [|node_path queue]; [done|].
  destruct (node_path_to_id st !! node_path) as [node_id|]; [|done].
  case_decide.
  - apply IH; [done | lia].
  - destruct (_ && _); [done|].
    destruct (nodes !! node_id) as [proto|]; [|done].
    apply IH; [done | lia].
Qed.

(** The fuel [_retrieve_all_filtered_nodes] starts with is enough: the
    branch for used-up fuel is never taken. *)
Lemma visit_fuel_enough f path_to_id loaded :
  is_Some (visit_loop rt w nodes (visit_fuel nodes f)
             (mkFilterState (filter_keys f) ∅ path_to_id loaded)).
Proof.
  apply visit_loop_terminates. simpl.
  rewrite pending_edges_empty. unfold visit_fuel. lia.
Qed.

End Traversal.

(** ** FilterSelector: the path index stays sound *)

Lemma names_ok_check_correct nodes :
  names_ok_check nodes = true → names_ok nodes.
Proof.
  unfold names_ok_check. rewrite forallb_forall. intros Hall proto Hin.
  apply list_elem_of_In in Hin. specialize (Hall _ Hin).
  apply andb_prop in Hall as [Hnodup Hdots].
  apply bool_decide_eq_true in Hnodup. split; [done|].
  intros reference Hr. rewrite forallb_forall in Hdots.
  apply Hdots. by apply list_elem_of_In.
Qed.

Section PathIndexSound.

Variable rt : Runtime.
Variable w : World.
Variable nodes : list SavedObject.t.
Hypothesis Hnames : names_ok nodes.

Lemma resolve_walks path i :
  resolve nodes path = Ok i ↔
  ∃ names, PyStr.split path = "root" :: names ∧ walks nodes 0 names i.
Proof.
  unfold resolve. destruct (PyStr.split path) as [|first names] eqn:Hsplit.
  { split; [done|]. by intros (? & ? & _). }
  case_decide as Hroot.
  - subst first. split.
    + intros Hw. exists names. split; [done|]. by eapply walk_names_Ok.
    + intros (names' & [= <-] & Hw). by apply walk_names_walks.
  - split; [done|]. intros (names' & [= -> _] & _). done.
Qed.

Lemma walks_snoc cur names mid name proto child :
  walks nodes cur names mid →
  nodes !! mid = Some proto →
  find_child (SavedObject.children proto) name = Some child →
  walks nodes cur (names ++ [name]) child.
Proof.
  intros Hw Hp Hf. induction Hw as [cur|cur n rest p c t Hp' Hf' _ IH].
  - simpl. econstructor; eauto. constructor.
  - simpl. econstructor; eauto.
Qed.

(** With distinct names, an edge is the one its name finds. *)
Lemma find_child_unique children reference :
  NoDup (ObjectReference.local_name <$> children) →
  reference ∈ children →
  find_child children (ObjectReference.local_name reference)
  = Some (ObjectReference.node_id reference).
Proof.
  induction children as [|r rest IH]; intros Hnodup Hin.
  - by apply elem_of_nil in Hin.
  - simpl in *. apply NoDup_cons in Hnodup as [Hfresh Hnodup].
    apply elem_of_cons in Hin as [->|Hin].
    + by rewrite decide_True.
    + rewrite decide_False; [by apply IH|].
      intros Heq. apply Hfresh. rewrite Heq.
      by apply list_elem_of_fmap_2.
Qed.

(** The path registered for a child resolves to the child. *)
Lemma resolve_child node_path node_id proto reference :
  resolve nodes node_path = Ok node_id →
  nodes !! node_id = Some proto →
  reference ∈ SavedObject.children proto →
  resolve nodes
    (PyStr.format2 node_path (ObjectReference.local_name reference))
  = Ok (ObjectReference.node_id reference).
Proof.
  intros Hres Hp Hin.
  destruct (Hnames proto) as [Hnodup Hdots].
  { eapply list_elem_of_lookup_2; eauto. }
  apply resolve_walks in Hres as (names & Hsplit & Hw).
  apply resolve_walks. exists (names ++ [ObjectReference.local_name reference]).
  split.
  - rewrite split_format2 by auto. by rewrite Hsplit.
  - eapply walks_snoc; eauto. by apply find_child_unique.
Qed.

Lemma visit_children_sound node node_path node_id proto children st :
  resolve nodes node_path = Ok node_id →
  nodes !! node_id = Some proto →
  children ⊆ SavedObject.children proto →
  index_sound nodes (node_path_to_id st) →
  index_sound nodes
    (node_path_to_id (visit_children rt w node node_path children st))
  ∧ ∀ path, is_Some (node_path_to_id st !! path) →
      is_Some (node_path_to_id
                 (visit_children rt w node node_path children st) !! path).
Proof.
  intros Hres Hp. revert st.
  induction children as [|r rest IH]; intros st Hsub Hsound; simpl; [done|].
  match goal with
  | |- context [visit_children _ _ _ _ rest ?s] =>
      destruct (IH s) as [IHs IHd]
  end.
  - intros x Hx. apply Hsub. by right.
  - simpl. intros path i. rewrite lookup_insert.
    destruct (decide (_ = path)) as [Heq|Heq]; [|by apply Hsound].
    intros [= <-]. subst path. eapply resolve_child; eauto.
    apply Hsub. left.
  - split; [exact IHs|]. intros path Hpath. apply IHd. simpl.
    rewrite lookup_insert. destruct (decide (_ = path)); [by eexists | done].
Qed.

Lemma visit_loop_sound fuel st st' :
  index_sound nodes (node_path_to_id st) →
  visit_loop rt w nodes fuel st = Some (Ok st') →
  index_sound nodes (node_path_to_id st')
  ∧ ∀ path, is_Some (node_path_to_id st !! path) →
      is_Some (node_path_to_id st' !! path).
Proof.
  revert st. induction fuel as [|fuel IH]; intros st Hsound Hrun; [done|].
  simpl in Hrun.
  destruct (nodes_to_visit st) as [|node_path queue] eqn:Hqueue.
  { by injection Hrun as <-. }
  destruct (node_path_to_id st !! node_path) as [node_id|] eqn:Hid; [|done].
  case_decide.
  - by apply IH in Hrun.
  - destruct (_ && _); [done|].
    destruct (nodes !! node_id) as [proto|] eqn:Hproto; [|done].
    edestruct (visit_children_sound (loaded_object (loaded_nodes st) node_id)
                 node_path node_id proto (SavedObject.children proto)
                 (mkFilterState queue ({[node_id]} ∪ all_filtered_nodes st)
                    (node_path_to_id st) (loaded_nodes st)))
      as [Hs Hd]; eauto.
    apply IH in Hrun as [Hs' Hd']; [|done].
    split; [done|]. intros path Hpath. apply Hd', Hd. done.
Qed.

(** After the traversal the index still maps every filter to the node it
    resolves to. *)
Lemma retrieve_keeps_filters self filtered self' f :
  _node_filters self = Some f →
  (∃ m, _node_path_to_id self = Some m ∧
        convert_loop nodes (filter_keys f) ∅ = Ok m) →
  SavedObjectGraph.nodes (_proto self) = nodes →
  _retrieve_all_filtered_nodes rt w self = Ok (filtered, self') →
  ∃ m', _node_path_to_id self' = Some m' ∧
    ∀ path, path ∈ filter_keys f →
      ∃ i, resolve nodes path = Ok i ∧ m' !! path = Some i.
Proof.
  intros Hf (m & Hm & Hconv) Hnodes Hret.
  unfold _retrieve_all_filtered_nodes in Hret.
  rewrite Hf, Hm, Hnodes in Hret.
  destruct (visit_loop _ _ _ _ _) as [r|] eqn:Hloop; [|done].
  inv_bind Hret. rename a into st.
  assert (Hsound0 : index_sound nodes m).
  { intros path i Hpath.
    destruct (convert_loop_lookup nodes _ _ _ path Hconv) as [Hin Hout].
    destruct (decide (path ∈ filter_keys f)) as [Hk|Hk].
    - destruct (Hin Hk) as (j & Hj & Hmj). congruence.
    - rewrite (Hout Hk) in Hpath. done. }
  subst r.
  destruct (visit_loop_sound _ (mkFilterState (filter_keys f) ∅ m
                                 (_loaded_nodes self)) _ Hsound0 Hloop)
    as [Hsound Hdom].
  exists (node_path_to_id st). split.
  { by destruct (decide (0 ∈ _)); injection Hret as _ <-. }
  intros path Hk.
  destruct (convert_loop_lookup nodes _ _ _ path Hconv) as [Hin _].
  destruct (Hin Hk) as (i & Hi & Hmi). exists i. split; [done|].
  destruct (Hdom path) as [j Hj]; [by simpl; eauto|].
  specialize (Hsound _ _ Hj). congruence.
Qed.

End PathIndexSound.

(** ** [_load_nodes]: the two passes *)

Section LoadNodes.

Variable rt : Runtime.

Lemma recreate_object proto node_id w node s w' :
  _recreate rt proto node_id w = Ok ((node, s), w') → ∃ r, node = VObj r.
Proof.
  unfold _recreate, _recreate_user_object, _recreate_base_user_object,
    _recreate_resource, alloc.
  intros H. destruct (SavedObject.kind proto); simpl in H;
    try (inv_bind H; destruct a as [r w1]; injection H as <- _ _; by eexists);
    try by (injection H as <- _ _; eexists).
  - inv_bind H. destruct a as [[[r s']|] w1]; injection H as <- _ _;
      by eexists.
  - done.
Qed.

Lemma slot_ids_inner (ids : gset nat) slots (i : nat) :
  i ∈ foldl (λ ids sp, {[SlotVariableReference.slot_variable_node_id sp]} ∪ ids)
        ids slots
  ↔ i ∈ ids ∨ ∃ sp, sp ∈ slots ∧
                 SlotVariableReference.slot_variable_node_id sp = i.
Proof.
  revert ids. induction slots as [|sp slots IH]; intros ids; simpl.
  - split; [auto|]. intros [?|(sp & Hin & _)]; [done|].
    by apply elem_of_nil in Hin.
  - rewrite IH. split.
    + intros [Hi|(sp' & Hin & Heq)].
      * apply elem_of_union in Hi as [Hi|Hi]; [|auto].
        apply elem_of_singleton in Hi. right. exists sp. split; [left|done].
      * right. exists sp'. split; [by right|done].
    + intros [Hi|(sp' & Hin & Heq)].
      { left. apply elem_of_union. by right. }
      apply elem_of_cons in Hin as [->|Hin].
      { left. apply elem_of_union. left. by apply elem_of_singleton. }
      right. eauto.
Qed.

Lemma slot_ids_spec iter (i : nat) :
  i ∈ slot_variable_node_ids iter ↔
  ∃ j proto sp, (j, proto) ∈ iter ∧ sp ∈ SavedObject.slot_variables proto ∧
    SlotVariableReference.slot_variable_node_id sp = i.
Proof.
  unfold slot_variable_node_ids.
  assert (Hgen : ∀ ids : gset nat,
            i ∈ foldl (λ ids '(_, proto),
                         foldl (λ ids sp,
                                  {[SlotVariableReference.slot_variable_node_id
                                      sp]} ∪ ids)
                               ids (SavedObject.slot_variables proto))
                  ids iter
            ↔ i ∈ ids ∨
              ∃ j proto sp, (j, proto) ∈ iter ∧
                sp ∈ SavedObject.slot_variables proto ∧
                SlotVariableReference.slot_variable_node_id sp = i).
  { induction iter as [|[j proto] iter IH]; intros ids; simpl.
    - split; [auto|]. intros [?|(j & proto & sp & Hin & _)]; [done|].
      by apply elem_of_nil in Hin.
    - rewrite IH, slot_ids_inner. split.
      + intros [[Hi|(sp & Hin & Heq)]|(j' & proto' & sp & Hin & Hsp & Heq)].
        * auto.
        * right. exists j, proto, sp. split; [left|done].
        * right. exists j', proto', sp. split; [by right|done].
      + intros [Hi|(j' & proto' & sp & Hin & Hsp & Heq)]; [auto|].
        apply elem_of_cons in Hin as [[= -> ->]|Hin].
        * left. right. eauto.
        * right. eauto 6. }
  rewrite Hgen. split; [|auto]. intros [Hi|H]; [set_solver|done].
Qed.

Lemma has_node_insert nodes (i j : nat) r :
  has_node nodes i = true → has_node (<[j := VObj r]> nodes) i = true.
Proof.
  unfold has_node. rewrite lookup_insert. by case_decide.
Qed.

Lemma has_node_insert_eq nodes (i : nat) r :
  has_node (<[i := VObj r]> nodes) i = true.
Proof. unfold has_node. by rewrite lookup_insert_eq. Qed.

(** The first pass: it logs only objects it has re-created, none of them a
    slot variable, and leaves every node of the iteration that is not a
    slot variable in the table. *)
Lemma recreate_loop_spec slot_ids iter st st' :
  recreate_loop rt slot_ids iter st = Ok st' →
  ∃ log1,
    st_log st' = st_log st ++ log1 ∧
    st_nodes st' = replay (st_nodes st) log1 ∧
    (∀ e, e ∈ log1 →
       ∃ i r proto, e = ev_recreate i (VObj r) ∧ (i ∉ slot_ids)
                    ∧ (i, proto) ∈ iter) ∧
    (∀ i, has_node (st_nodes st) i = true → has_node (st_nodes st') i = true) ∧
    (∀ i proto, (i, proto) ∈ iter →
       i ∈ slot_ids ∨ has_node (st_nodes st') i = true).
Proof.
  revert st. induction iter as [|[node_id proto] iter IH]; intros st Hrun.
  - injection Hrun as <-. exists []. rewrite app_nil_r.
    split_and!; try done. intros e He. by apply elem_of_nil in He.
    intros i proto Hin. by apply elem_of_nil in Hin.
  - simpl in Hrun.
    destruct (bool_decide (node_id ∈ slot_ids) || has_node (st_nodes st) node_id)
      eqn:Hskip.
    + destruct (IH _ Hrun) as (log1 & Hlog & Hnodes & Hev & Hmono & Hall).
      exists log1. split_and!; try done.
      * intros e He. destruct (Hev e He) as (i & r & p & ? & ? & ?).
        exists i, r, p. split_and!; try done. by right.
      * intros i p Hin. apply elem_of_cons in Hin as [[= -> ->]|Hin]; [|eauto].
        apply orb_prop in Hskip as [Hs|Hs].
        -- left. by apply bool_decide_eq_true in Hs.
        -- right. by apply Hmono.
    + apply orb_false_elim in Hskip as [Hslot Hhas].
      apply bool_decide_eq_false in Hslot.
      inv_bind Hrun. destruct a as [[node s] w'].
      destruct (recreate_object _ _ _ _ _ _ Ha) as [r ->].
      destruct (IH _ Hrun) as (log1 & Hlog & Hnodes & Hev & Hmono & Hall).
      simpl in *. exists (ev_recreate node_id (VObj r) :: log1).
      split_and!.
      * rewrite Hlog. by rewrite <- (assoc app).
      * done.
      * intros e He. apply elem_of_cons in He as [->|He].
        -- exists node_id, r, proto. split_and!; try done. left.
        -- destruct (Hev e He) as (i & r' & p & ? & ? & ?).
           exists i, r', p. split_and!; try done. by right.
      * intros i Hi. apply Hmono. by apply has_node_insert.
      * intros i p Hin. apply elem_of_cons in Hin as [[= -> ->]|Hin]; [|eauto].
        right. apply Hmono. apply has_node_insert_eq.
Qed.

Lemma replay_app table log1 log2 :
  replay table (log1 ++ log2) = replay (replay table log1) log2.
Proof. apply foldl_app. Qed.

(** The slot variables of one optimizer. *)
Lemma add_slots_spec iter table history optimizer_id optimizer_object slots
    proto st st' :
  st_nodes st = replay table history →
  (∃ k, replay table (take k history) !! optimizer_id
        = Some optimizer_object) →
  (optimizer_id, proto) ∈ iter →
  slots ⊆ SavedObject.slot_variables proto →
  add_slots rt optimizer_id optimizer_object slots st = Ok st' →
  ∃ log2,
    st_log st' = st_log st ++ log2 ∧
    st_nodes st' = replay table (history ++ log2) ∧
    (∀ k e, log2 !! k = Some e →
       add_slot_call rt iter table (history ++ take k log2) e) ∧
    (∀ i, has_node (st_nodes st) i = true → has_node (st_nodes st') i = true) ∧
    (∀ sp, sp ∈ slots →
       has_node (st_nodes st')
         (SlotVariableReference.slot_variable_node_id sp) = true).
Proof.
  intros Htable Hopt Hiter. revert st history Htable Hopt.
  induction slots as [|sp slots IH]; intros st history Htable Hopt Hsub Hrun.
  - injection Hrun as <-. exists []. rewrite !app_nil_r.
    split_and!; try done. intros sp Hin. by apply elem_of_nil in Hin.
  - simpl in Hrun.
    destruct (st_nodes st !! _) as [var|] eqn:Hvar; [|done].
    destruct optimizer_object as [| |optimizer]; try done.
    inv_bind Hrun. destruct a as [slot_variable w'].
    set (e0 := ev_add_slot optimizer_id optimizer var sp slot_variable) in *.
    destruct Hopt as [k0 Hk0].
    match type of Hrun with
    | add_slots _ _ _ _ ?s = _ =>
        destruct (IH s (history ++ [e0]))
          as (log2 & Hlog & Hnodes & Hev & Hmono & Hslots)
    end.
    + simpl. rewrite replay_app, <- Htable. done.
    + exists (k0 `min` length history). rewrite take_app_le by lia.
      destruct (decide (k0 ≤ length history)) as [Hle|Hgt].
      * by rewrite Nat.min_l.
      * rewrite Nat.min_r by lia. rewrite firstn_all.
        by rewrite take_ge in Hk0 by lia.
    + set_solver.
    + done.
    + simpl in *. exists (e0 :: log2). split_and!.
      * rewrite Hlog. by rewrite <- (assoc app).
      * rewrite Hnodes. by rewrite <- (assoc app).
      * intros [|k] e He; simpl in He.
        -- injection He as <-. simpl. rewrite app_nil_r.
           exists optimizer_id, optimizer, var, sp, slot_variable, proto.
           split_and!; try done.
           ++ apply Hsub. left.
           ++ eauto.
           ++ by rewrite <- Htable.
           ++ eauto.
        -- specialize (Hev k e He). simpl.
           by rewrite <- (assoc app) in Hev.
      * intros i Hi. apply Hmono. by apply has_node_insert.
      * intros sp' Hin. apply elem_of_cons in Hin as [->|Hin]; [|by apply Hslots].
        apply Hmono. apply has_node_insert_eq.
Qed.

(** The second pass. *)
Lemma slot_loop_spec iter0 table history iter st st' :
  st_nodes st = replay table history →
  iter ⊆ iter0 →
  slot_loop rt iter st = Ok st' →
  ∃ log2,
    st_log st' = st_log st ++ log2 ∧
    st_nodes st' = replay table (history ++ log2) ∧
    (∀ k e, log2 !! k = Some e →
       add_slot_call rt iter0 table (history ++ take k log2) e) ∧
    (∀ i, has_node (st_nodes st) i = true → has_node (st_nodes st') i = true) ∧
    (∀ i proto sp, (i, proto) ∈ iter →
       sp ∈ SavedObject.slot_variables proto →
       has_node (st_nodes st')
         (SlotVariableReference.slot_variable_node_id sp) = true).
Proof.
  revert st history.
  induction iter as [|[node_id proto] iter IH]; intros st history Htable Hsub Hrun.
  - injection Hrun as <-. exists []. rewrite !app_nil_r.
    split_and!; try done. intros i proto sp Hin. by apply elem_of_nil in Hin.
  - simpl in Hrun.
    destruct (st_nodes st !! node_id) as [optimizer_object|] eqn:Hopt; [|done].
    inv_bind Hrun. rename a into st1.
    destruct (add_slots_spec iter0 table history node_id optimizer_object
                (SavedObject.slot_variables proto) proto st st1)
      as (loga & Hloga & Hnodesa & Heva & Hmonoa & Hslotsa); try done.
    { exists (length history). rewrite firstn_all. by rewrite <- Htable. }
    { apply Hsub. left. }
    destruct (IH st1 (history ++ loga)) as (logb & Hlogb & Hnodesb & Hevb
                                             & Hmonob & Hslotsb); try done.
    { set_solver. }
    exists (loga ++ logb). split_and!.
    + rewrite Hlogb, Hloga. by rewrite <- (assoc app).
    + rewrite Hnodesb. by rewrite <- (assoc app).
    + intros k e He. apply lookup_app_Some in He as [He|[Hk He]].
      * rewrite take_app_le by (apply lookup_lt_Some in He; lia).
        by apply Heva.
      * rewrite take_app_ge by done. rewrite (assoc app). by apply Hevb.
    + auto.
    + intros i p sp Hin Hsp. apply elem_of_cons in Hin as [[= -> ->]|Hin].
      * apply Hmonob. by apply Hslotsa.
      * eapply Hslotsb; eauto.
Qed.

Lemma replay_snoc table log e :
  replay table (log ++ [e]) = replay_event (replay table log) e.
Proof. by rewrite replay_app. Qed.

(** An entry of the table was constructed by an event of the log or was
    there from the start. *)
Lemma replay_lookup table log (i : nat) v :
  replay table log !! i = Some v →
  (∃ e, e ∈ log ∧ constructs e i v) ∨ table !! i = Some v.
Proof.
  induction log as [|e log IH] using rev_ind; [by right|].
  rewrite replay_snoc. intros Hlook.
  assert (Hold : replay table log !! i = Some v →
            (∃ e0, e0 ∈ log ++ [e] ∧ constructs e0 i v) ∨ table !! i = Some v).
  { intros H. destruct (IH H) as [(e0 & Hin & Hc)|Ht]; [|by right].
    left. exists e0. split; [|done]. apply elem_of_app. by left. }
  assert (Hnew : constructs e i v →
            (∃ e0, e0 ∈ log ++ [e] ∧ constructs e0 i v) ∨ table !! i = Some v).
  { intros Hc. left. exists e. split; [|done]. apply elem_of_app. right. left. }
  destruct e as [j x|oid opt var sp sv|root]; simpl in Hlook;
    rewrite lookup_insert in Hlook; case_decide; simplify_eq; auto;
    by apply Hnew.
Qed.

Lemma load_nodes_passes_spec self w st :
  load_nodes_passes rt self w = Ok st →
  let table := fst <$> _loaded_nodes self in
  ∃ iter log1 log2 log3,
    _iter_all_nodes rt self = Ok iter ∧
    st_log st = log1 ++ log2 ++ log3 ∧
    st_nodes st = replay table (log1 ++ log2 ++ log3) ∧
    (∀ e, e ∈ log1 →
       ∃ i r proto, e = ev_recreate i (VObj r) ∧
         (i ∉ slot_variable_node_ids iter) ∧ (i, proto) ∈ iter) ∧
    (∀ k e, log2 !! k = Some e →
       add_slot_call rt iter table (log1 ++ take k log2) e) ∧
    (log3 = [] ∨
     ∃ root, log3 = [ev_dummy_root root] ∧
       (0 ∉ slot_variable_node_ids iter)) ∧
    (∀ i proto, (i, proto) ∈ iter → has_node (st_nodes st) i = true).
Proof.
  intros Hrun table. unfold load_nodes_passes, _initialize_loaded_nodes in Hrun.
  inv_bind Hrun. rename a into iter. inv_bind Hrun. rename a into st1.
  inv_bind Hrun. rename a into st2. injection Hrun as <-.
  destruct (recreate_loop_spec _ _ _ _ Ha0)
    as (log1 & Hlog1 & Hnodes1 & Hev1 & Hmono1 & Hall1).
  simpl in Hlog1, Hnodes1. fold table in Hnodes1.
  destruct (slot_loop_spec iter table log1 iter st1 st2)
    as (log2 & Hlog2 & Hnodes2 & Hev2 & Hmono2 & Hslots2); try done.
  assert (Hall2 : ∀ i proto, (i, proto) ∈ iter →
            has_node (st_nodes st2) i = true).
  { intros i proto Hin. destruct (Hall1 i proto Hin) as [Hslot|Hhas]; [|auto].
    apply slot_ids_spec in Hslot as (j & p & sp & Hj & Hsp & <-). eauto. }
  unfold add_dummy_root.
  destruct (st_nodes st2 !! 0) as [root|] eqn:Hroot.
  - exists iter, log1, log2, []. rewrite !app_nil_r.
    split_and!; try done.
    + by rewrite Hlog2, Hlog1.
    + eauto.
  - unfold _recreate_base_user_object, alloc. simpl.
    exists iter, log1, log2,
      [ev_dummy_root (VObj (fresh (dom (heap (st_world st2)))))].
    split_and!; try done.
    + simpl. rewrite Hlog2, Hlog1. by rewrite <- (assoc app).
    + simpl. rewrite Hnodes2. by rewrite !(assoc app), replay_snoc.
    + right. eexists. split; [done|]. intros Hslot.
      apply slot_ids_spec in Hslot as (j & p & sp & Hj & Hsp & Heq).
      specialize (Hslots2 j p sp Hj Hsp). rewrite Heq in Hslots2.
      unfold has_node in Hslots2. by rewrite Hroot in Hslots2.
    + intros i proto Hin. simpl. specialize (Hall2 i proto Hin).
      unfold has_node in *. rewrite lookup_insert. case_decide; [|done].
      subst i. by rewrite Hroot in Hall2.
Qed.

End LoadNodes.



(** ** Requesting the root *)

Lemma nodes_list_lookup table (n i : nat) :
  i < n → nodes_list table n !! i = Some (default VNone (table !! i)).
Proof.
  intros Hi. unfold nodes_list. rewrite list_lookup_fmap.
  by rewrite lookup_seq_lt.
Qed.

(** Whatever the iteration, a [_load_nodes] that completes has an object
    for every node of the iteration. *)
Lemma load_nodes_materializes rt self w self' w' log iter i proto :
  _load_nodes rt self w = Ok (self', w', log) →
  _iter_all_nodes rt self = Ok iter →
  (i, proto) ∈ iter →
  i < length (SavedObjectGraph.nodes (_proto self)) →
  ∃ v, _nodes self' !! i = Some v ∧ v ≠ VNone.
Proof.
  intros Hrun Hiter Hin Hi. unfold _load_nodes in Hrun. inv_bind Hrun.
  rename a into st. injection Hrun as <- _ _.
  destruct (load_nodes_passes_spec rt self w st Ha)
    as (iter' & _ & _ & _ & Hiter' & _ & _ & _ & _ & _ & Hall).
  rewrite Hiter in Hiter'. injection Hiter' as <-.
  specialize (Hall i proto Hin). simpl.
  rewrite nodes_list_lookup by done. unfold has_node in Hall.
  destruct (st_nodes st !! i) as [v|]; [|done].
  exists v. split; [done|]. by apply bool_decide_eq_true in Hall.
Qed.

(** C3.  If the traversal of the filters (run with whatever fuel lets it
    finish) visits node 0, then [_retrieve_all_filtered_nodes] returns
    [None]; with that the loader iterates the whole serialized array, as
    it does without filters, and a [_load_nodes] that completes has an
    object for every node of the array, reachable from node 0 or not. *)
Theorem root_visited_loads_all rt w self f m fuel st :
  _node_filters self = Some f →
  _node_path_to_id self = Some m →
  visit_loop rt w (SavedObjectGraph.nodes (_proto self)) fuel
    (mkFilterState (filter_keys f) ∅ m (_loaded_nodes self)) = Some (Ok st) →
  0 ∈ all_filtered_nodes st →
  ∃ self1,
    _retrieve_all_filtered_nodes rt w self = Ok (None, self1) ∧
    _proto self1 = _proto self ∧
    _iter_all_nodes rt (with_filtered_nodes self1 None)
    = Ok (imap (λ node_id proto, (node_id, proto))
            (SavedObjectGraph.nodes (_proto self))) ∧
    ∀ w1 self2 w2 log,
      _load_nodes rt (with_filtered_nodes self1 None) w1 = Ok (self2, w2, log) →
      ∀ i, i < length (SavedObjectGraph.nodes (_proto self)) →
        ∃ v, _nodes self2 !! i = Some v ∧ v ≠ VNone.
Proof.
  intros Hf Hm Hloop Hroot.
  set (nodes := SavedObjectGraph.nodes (_proto self)) in *.
  destruct (visit_fuel_enough rt w nodes f m (_loaded_nodes self)) as [r Hr].
  assert (r = Ok st) as ->.
  { pose proof (visit_loop_mono rt w nodes _ (fuel `max` visit_fuel nodes f)
                  _ _ Hloop (Nat.le_max_l _ _)) as H1.
    pose proof (visit_loop_mono rt w nodes _ (fuel `max` visit_fuel nodes f)
                  _ _ Hr (Nat.le_max_r _ _)) as H2.
    congruence. }
  eexists. split.
  { unfold _retrieve_all_filtered_nodes. rewrite Hf, Hm. fold nodes.
    rewrite Hr. simpl. by rewrite decide_True. }
  split; [done|]. split; [done|].
  intros w1 self2 w2 log Hload i Hi.
  destruct (lookup_lt_is_Some_2 nodes i Hi) as [proto Hproto].
  eapply (load_nodes_materializes _ _ _ _ _ _ _ i proto Hload); [done| |done].
  apply list_elem_of_lookup. exists i. simpl. rewrite list_lookup_imap.
  unfold nodes in Hproto. by rewrite Hproto.
Qed.

(** C3 on the graph with a detached node, for the filters [["root"]]:
    node 3 is loaded although no edge leads to it. *)
Lemma root_visited_loads_all_witness :
  ∃ st self1 self2 w2 log,
    visit_loop Scenario.runtime Scenario.empty_world Scenario.detached_nodes 5
      (mkFilterState ["root"] ∅ {["root" := 0]} ∅) = Some (Ok st) ∧
    0 ∈ all_filtered_nodes st ∧
    (3 ∉ all_filtered_nodes st) ∧
    _retrieve_all_filtered_nodes Scenario.runtime Scenario.empty_world
      Scenario.detached_loader = Ok (None, self1) ∧
    _load_nodes Scenario.runtime (with_filtered_nodes self1 None)
      Scenario.empty_world = Ok (self2, w2, log) ∧
    ∃ v, _nodes self2 !! 3 = Some v ∧ v ≠ VNone.
Proof.
  set (st := mkFilterState [] ({[0; 1; 2]} : gset nat)
               (<["root.child_layer.v" := 2]>
                  (<["root.child_layer" := 1]> {["root" := 0]})) ∅).
  assert (Hloop : visit_loop Scenario.runtime Scenario.empty_world
                    Scenario.detached_nodes 5
                    (mkFilterState ["root"] ∅ {["root" := 0]} ∅)
                  = Some (Ok st)) by (vm_compute; reflexivity).
  assert (Hroot : 0 ∈ all_filtered_nodes st)
    by (apply (bool_decide_unpack _); vm_compute; exact I).
  assert (Hthree : 3 ∉ all_filtered_nodes st)
    by (apply (bool_decide_unpack _); vm_compute; exact I).
  destruct (root_visited_loads_all Scenario.runtime Scenario.empty_world
              Scenario.detached_loader (filters_list ["root"])
              {["root" := 0]} 5 st eq_refl eq_refl Hloop Hroot)
    as (self1 & Hret & _ & _ & Hall).
  destruct (_load_nodes Scenario.runtime (with_filtered_nodes self1 None)
              Scenario.empty_world) as [[[self2 w2] log]|e] eqn:Hload.
  - exists st, self1, self2, w2, log. split_and!; try done.
    apply (Hall _ _ _ _ Hload 3). vm_compute. lia.
  - exfalso. vm_compute in Hret. injection Hret as <-.
    vm_compute in Hload. discriminate.
Defined.

(** ** Object identity across paths *)

Lemma load_nodes_fields rt self w self' w' log :
  _load_nodes rt self w = Ok (self', w', log) →
  _node_path_to_id self' = _node_path_to_id self.
Proof.
  unfold _load_nodes. intros H. inv_bind H. by injection H as <- _ _.
Qed.

Lemma load_all_fields rt self w self' w' log :
  _load_all rt self w = Ok (self', w', log) →
  _node_path_to_id self' = _node_path_to_id self.
Proof.
  unfold _load_all. intros H. inv_bind H. destruct a as [[self1 w1] log1].
  do 4 inv_bind H. injection H as <- _ _. by eapply load_nodes_fields.
Qed.

(** After [__init__] the path index maps every filter to the node it
    resolves to. *)
Lemma Loader_init_index rt graph options f w loader w' log :
  names_ok (SavedObjectGraph.nodes graph) →
  Loader_init rt graph options (Some f) w = Ok (loader, w', log) →
  ∃ m, _node_path_to_id loader = Some m ∧
    ∀ path, path ∈ filter_keys f →
      ∃ i, resolve (SavedObjectGraph.nodes graph) path = Ok i
           ∧ m !! path = Some i.
Proof.
  intros Hnames Hinit. unfold Loader_init in Hinit.
  inv_bind Hinit. rename a into w0.
  inv_bind Hinit. rename a into path_to_id.
  inv_bind Hinit. rename a into loaded.
  inv_bind Hinit. destruct a as [filtered self1].
  inv_bind Hinit. destruct a as [[self3 w1] log1].
  inv_bind Hinit. injection Hinit as <- _ _.
  simpl in Ha0. inv_bind Ha0. injection Ha0 as <-. rename a0 into m0.
  pose proof (λ H1 H2 H3,
                retrieve_keeps_filters rt w0 (SavedObjectGraph.nodes graph)
                  Hnames _ _ _ f H1 H2 H3 Ha2) as Hkeep.
  destruct Hkeep as (m & Hm & Hall); [done | by exists m0 | done |].
  exists m. split; [|done].
  by rewrite (load_all_fields _ _ _ _ _ _ Ha3).
Qed.

Lemma collect_filtered_lookup loader paths acc m :
  collect_filtered loader paths acc = Ok m →
  ∀ path,
    (path ∈ paths → ∃ v, get_path loader path = Ok v ∧ m !! path = Some v) ∧
    (path ∉ paths → m !! path = acc !! path).
Proof.
  revert acc. induction paths as [|p paths IH]; intros acc Hrun path.
  - injection Hrun as <-. split; [|done]. intros H. by apply elem_of_nil in H.
  - simpl in Hrun. inv_bind Hrun. destruct (IH _ Hrun path) as [IHin IHout].
    split.
    + intros Hin. destruct (decide (path ∈ paths)) as [Hp|Hp]; [auto|].
      apply elem_of_cons in Hin as [->|Hin]; [|done].
      exists a. split; [done|]. rewrite (IHout Hp). apply lookup_insert_eq.
    + intros Hnot. rewrite IHout by (intros Hp; apply Hnot; by right).
      apply lookup_insert_ne. intros ->. apply Hnot. left.
Qed.

(** C1, as amended.  In a graph whose local names have no dot and are
    not repeated within a node, a partial load that completes answers
    every filter from one table with one entry per node id: a filter that
    resolves to the id [i] is mapped to the table's entry for [i].  Hence
    two filters that resolve to the same id are mapped to the same object
    (the same address). *)
Theorem load_partial_same_object rt saved_model_proto meta_graph_def graph
    filters tags options w m w' :
  meta_graphs saved_model_proto = [meta_graph_def] →
  object_graph_def meta_graph_def = Some graph →
  names_ok (SavedObjectGraph.nodes graph) →
  load_partial rt saved_model_proto (Some filters) tags options w = Ok (m, w') →
  ∃ table : list value,
    (∀ path i, path ∈ filter_keys filters →
       resolve (SavedObjectGraph.nodes graph) path = Ok i →
       ∃ v, table !! i = Some v ∧ m !! path = Some v) ∧
    (∀ P1 P2 i, P1 ∈ filter_keys filters → P2 ∈ filter_keys filters →
       resolve (SavedObjectGraph.nodes graph) P1 = Ok i →
       resolve (SavedObjectGraph.nodes graph) P2 = Ok i →
       ∃ v, m !! P1 = Some v ∧ m !! P2 = Some v).
Proof.
  intros Hmeta Hgraph Hnames Hload.
  unfold load_partial, load_internal in Hload. rewrite Hmeta, Hgraph in Hload.
  unfold load_object_graph in Hload.
  destruct (match tags with Some _ => _ | None => _ end); [done|].
  destruct (Loader_init rt graph options (Some filters) w)
    as [[[loader w1] log]|e] eqn:Hinit; [|by destruct e].
  do 5 inv_bind Hload.
  destruct (Loader_init_index _ _ _ _ _ _ _ _ Hnames Hinit) as (idx & Hidx & Hall).
  assert (Htable : ∀ path i, path ∈ filter_keys filters →
            resolve (SavedObjectGraph.nodes graph) path = Ok i →
            ∃ v, _nodes loader !! i = Some v ∧ m !! path = Some v).
  { intros path i Hin Hres.
    destruct (truthy (Some filters)) eqn:Htruthy.
    - inv_bind Hload. injection Hload as <- _.
      destruct (collect_filtered_lookup _ _ _ _ Ha4 path) as [Hc _].
      destruct (Hc Hin) as (v & Hget & Hm).
      exists v. split; [|done].
      destruct (Hall path Hin) as (j & Hj & Hidxj).
      assert (j = i) as -> by congruence.
      unfold get_path, get_id in Hget. rewrite Hidx, Hidxj in Hget.
      destruct (_nodes loader !! i); [by injection Hget as ->|done].
    - simpl in Htruthy. apply bool_decide_eq_false in Htruthy.
      assert (filter_keys filters = []) as Hnil
        by (destruct (filter_keys filters); [done|by destruct Htruthy]).
      rewrite Hnil in Hin. by apply elem_of_nil in Hin. }
  exists (_nodes loader). split; [exact Htable|].
  intros P1 P2 i H1 H2 Hr1 Hr2.
  destruct (Htable P1 i H1 Hr1) as (v1 & Hv1 & Hm1).
  destruct (Htable P2 i H2 Hr2) as (v2 & Hv2 & Hm2).
  exists v1. split; [done|]. congruence.
Qed.

(** C1 on the graph whose node 1 is reached as ["root.a"] and as
    ["root.b"]. *)
Lemma load_partial_same_object_witness :
  names_ok Scenario.shared_nodes ∧
  ∃ m w',
    load_partial Scenario.runtime Scenario.shared_model
      (Some Scenario.shared_filters) None Scenario.skip_checkpoint
      Scenario.empty_world = Ok (m, w') ∧
    resolve Scenario.shared_nodes "root.a" = Ok 1 ∧
    resolve Scenario.shared_nodes "root.b" = Ok 1 ∧
    ∃ v, m !! "root.a" = Some v ∧ m !! "root.b" = Some v.
Proof.
  assert (Hnames : names_ok Scenario.shared_nodes).
  { apply names_ok_check_correct. vm_compute. reflexivity. }
  split; [exact Hnames|].
  destruct (load_partial Scenario.runtime Scenario.shared_model
              (Some Scenario.shared_filters) None Scenario.skip_checkpoint
              Scenario.empty_world) as [[m w']|e] eqn:Hload;
    [|vm_compute in Hload; discriminate].
  exists m, w'. split; [reflexivity|].
  assert (Ha : resolve Scenario.shared_nodes "root.a" = Ok 1)
    by (vm_compute; reflexivity).
  assert (Hb : resolve Scenario.shared_nodes "root.b" = Ok 1)
    by (vm_compute; reflexivity).
  split; [exact Ha|]. split; [exact Hb|].
  destruct (load_partial_same_object Scenario.runtime Scenario.shared_model
              _ Scenario.shared_graph Scenario.shared_filters None
              Scenario.skip_checkpoint Scenario.empty_world m w'
              eq_refl eq_refl Hnames Hload) as (table & _ & Hsame).
  apply (Hsame "root.a" "root.b" 1); [| |exact Ha|exact Hb].
  - left.
  - right. left.
Defined.

(** C1 as stated does not hold.  In the graph with the local name
    ["a.b"], ["root.a.b"] and ["root.c"] both resolve to node 3, no node
    repeats a local name, and the load of
    [["root.a.b"; "root.c"; "root.a"; "root"]] maps ["root.a.b"] to the
    object of node 1 and ["root.c"] to the object of node 3: visiting the
    root registers ["root.a.b"] for its child ["a.b"]. *)
Lemma load_partial_dotted_counterexample :
  forallb (λ proto,
             bool_decide
               (NoDup (ObjectReference.local_name
                         <$> SavedObject.children proto)))
    Scenario.dotted_nodes = true ∧
  resolve Scenario.dotted_nodes "root.a.b" = Ok 3 ∧
  resolve Scenario.dotted_nodes "root.c" = Ok 3 ∧
  item_of (load_partial Scenario.runtime Scenario.dotted_model
             (Some Scenario.dotted_filters) None Scenario.skip_checkpoint
             Scenario.empty_world) "root.a.b" = Some (VObj 1) ∧
  item_of (load_partial Scenario.runtime Scenario.dotted_model
             (Some Scenario.dotted_filters) None Scenario.skip_checkpoint
             Scenario.empty_world) "root.c" = Some (VObj 3) ∧
  VObj 1 ≠ VObj 3.
Proof.
  split_and!; try (vm_compute; reflexivity). discriminate.
Qed.

(** ** The scenarios of the design document *)

(** [loadPartial(["root.child_layer"; "root.child_layer.v"])]: the
    variable the layer holds as ["v"] is the object returned for
    ["root.child_layer.v"], and the dummy root leads to both. *)
Example scenario_partial_load :
  let loaded :=
    load_partial Scenario.runtime Scenario.saved_model
      (Some Scenario.scenario_filters) None Scenario.skip_checkpoint
      Scenario.empty_world in
  item_of loaded "root.child_layer.v" = Some (VObj 0) ∧
  reach loaded "root.child_layer" ["v"] = Some (VObj 0) ∧
  item_of loaded "root" = None.
Proof. split_and!; vm_compute; reflexivity. Qed.

(** [loadAll]: the root, its layer and the layer's variable, wired by
    their local names. *)
Example scenario_load_all :
  let loaded :=
    load_internal Scenario.runtime Scenario.saved_model None
      Scenario.skip_checkpoint None Scenario.empty_world in
  item_of loaded "root" = Some (VObj 0) ∧
  reach loaded "root" ["child_layer"] = Some (VObj 1) ∧
  reach loaded "root" ["child_layer"; "v"] = Some (VObj 2).
Proof. split_and!; vm_compute; reflexivity. Qed.

(** A function that captured the distributed variable 7 and the tensor 1,
    called outside any replica context and then inside replica 0. *)
Example call_flat_contexts :
  let handle := λ ctx var,
    WrapperFunction.handle_tensor var
      (WrapperFunction.get_replica_context ctx) in
  let captures := [WrapperFunction.distributed 7; WrapperFunction.other 1] in
  WrapperFunction._call_flat handle (WrapperFunction.mkContext None false)
    captures []
  = ([WrapperFunction.output_of 2; WrapperFunction.other 1],
     [WrapperFunction.placeholder_with_default false;
      WrapperFunction.Assert 0 [WrapperFunction.error_message];
      WrapperFunction.placeholder_resource [1]]) ∧
  WrapperFunction._call_flat handle (WrapperFunction.mkContext (Some 0) false)
    captures []
  = ([WrapperFunction.handle_tensor 7 (Some 0); WrapperFunction.other 1], []).
Proof. split; reflexivity. Qed.

(** ** The end of [__init__] *)

Lemma load_nodes_options rt self w self' w' log :
  _load_nodes rt self w = Ok (self', w', log) →
  _save_options self' = _save_options self.
Proof.
  unfold _load_nodes. intros H. inv_bind H. by injection H as <- _ _.
Qed.

Lemma load_all_options rt self w self' w' log :
  _load_all rt self w = Ok (self', w', log) →
  _save_options self' = _save_options self.
Proof.
  unfold _load_all. intros H. inv_bind H. destruct a as [[self1 w1] log1].
  do 4 inv_bind H. injection H as <- _ _. by eapply load_nodes_options.
Qed.

Lemma retrieve_options rt w self filtered self' :
  _retrieve_all_filtered_nodes rt w self = Ok (filtered, self') →
  _save_options self' = _save_options self.
Proof.
  unfold _retrieve_all_filtered_nodes. intros H.
  destruct (_node_filters self); [|by injection H as _ <-].
  destruct (_node_path_to_id self); [|done].
  destruct (visit_loop _ _ _ _ _); [|done].
  inv_bind H. by destruct (decide _); injection H as _ <-.
Qed.

(** C10.  When the options do not skip the checkpoint and [__init__]
    completes: after [_load_all], the checkpoint is restored, and then
    every node of [_nodes] that is a capturable resource has its
    [_initialize] called, and when not executing eagerly the op it
    returns is appended to TABLE_INITIALIZERS, all before [__init__]
    (and so the load) returns. *)
Theorem initialize_after_restore rt graph options filters w loader w' log :
  experimental_skip_checkpoint options = false →
  Loader_init rt graph options filters w = Ok (loader, w', log) →
  ∃ self w0 w_loaded,
    _load_all rt self w0 = Ok (loader, w_loaded, log) ∧
    resources_initialized rt loader w_loaded w'.
Proof.
  intros Hskip Hinit. unfold Loader_init in Hinit.
  inv_bind Hinit. rename a into w0.
  inv_bind Hinit. rename a into path_to_id.
  inv_bind Hinit. rename a into loaded.
  inv_bind Hinit. destruct a as [filtered self1].
  inv_bind Hinit. destruct a as [[self3 w1] log1].
  inv_bind Hinit. injection Hinit as <- <- <-.
  exists (with_filtered_nodes self1 filtered), w0, w1. split; [done|].
  apply restore_and_initialize_spec; [|done].
  rewrite (load_all_options _ _ _ _ _ _ Ha3). simpl.
  by rewrite (retrieve_options _ _ _ _ _ Ha2).
Qed.

(** C10 on the graph with a resource, when building a graph: the op of
    its [_initialize] ends up in TABLE_INITIALIZERS. *)
Lemma initialize_after_restore_witness :
  experimental_skip_checkpoint Scenario.strict = false ∧
  ∃ loader w' log,
    Loader_init Scenario.graph_runtime Scenario.table_graph Scenario.strict
      None Scenario.empty_world = Ok (loader, w', log) ∧
    TABLE_INITIALIZERS w' = [item (VObj 3)] ∧
    ∃ self w0 w_loaded,
      _load_all Scenario.graph_runtime self w0 = Ok (loader, w_loaded, log) ∧
      resources_initialized Scenario.graph_runtime loader w_loaded w'.
Proof.
  split; [reflexivity|].
  destruct (Loader_init Scenario.graph_runtime Scenario.table_graph
              Scenario.strict None Scenario.empty_world)
    as [[[loader w'] log]|e] eqn:Hinit; [|vm_compute in Hinit; discriminate].
  exists loader, w', log. split; [reflexivity|].
  split.
  - assert (Hw : (λ r, match r with
                       | Ok (_, w, _) => TABLE_INITIALIZERS w
                       | Err _ => []
                       end)
                   (Loader_init Scenario.graph_runtime Scenario.table_graph
                      Scenario.strict None Scenario.empty_world)
                 = [item (VObj 3)]) by (vm_compute; reflexivity).
    by rewrite Hinit in Hw.
  - exact (initialize_after_restore Scenario.graph_runtime Scenario.table_graph
             Scenario.strict None Scenario.empty_world loader w' log
             eq_refl Hinit).
Defined.

(** * Further properties of the loader *)

(** ** The set of nodes a filtered load selects *)

Lemma reaches_trans nodes i j k :
  reaches nodes i j → reaches nodes j k → reaches nodes i k.
Proof.
  induction 1 as [|i proto reference j Hp Hin _ IH]; [done|].
  intros Hjk. eapply reaches_step; eauto.
Qed.

Lemma reaches_child nodes i j proto reference :
  reaches nodes i j → nodes !! j = Some proto →
  reference ∈ SavedObject.children proto →
  reaches nodes i (ObjectReference.node_id reference).
Proof.
  intros Hij Hp Hin. eapply reaches_trans; [done|].
  eapply reaches_step; eauto. constructor.
Qed.

Section Closure.

Variable rt : Runtime.
Variable w : World.
Variable nodes : list SavedObject.t.
Hypothesis Hnames : names_ok nodes.
Variable F : list string.
Variable L0 : gmap nat (value * setter).

(** An entry of [_loaded_nodes] that holds an object is never replaced. *)
Lemma visit_children_loaded node node_path children st j x s :
  loaded_nodes st !! j = Some (x, s) → x ≠ VNone →
  loaded_nodes (visit_children rt w node node_path children st) !! j
  = Some (x, s).
Proof.
  revert st. induction children as [|r rest IH]; intros st Hj Hx; [done|].
  simpl. apply IH; [|done]. simpl.
  destruct (bool_decide (loaded_object (loaded_nodes st)
                           (ObjectReference.node_id r) = VNone)
            && bool_decide (node ≠ VNone)) eqn:Hcond; [|done].
  destruct (isinstance rt w _ TrackableDataStructure); [|done].
  rewrite lookup_insert_ne; [done|]. intros <-.
  apply andb_prop in Hcond as [Hnone _].
  apply bool_decide_eq_true in Hnone.
  unfold loaded_object in Hnone. by rewrite Hj in Hnone.
Qed.

Lemma pending_or_visited_step st node_path queue st' k :
  nodes_to_visit st = node_path :: queue →
  (∀ p, p ∈ queue → p ∈ nodes_to_visit st') →
  all_filtered_nodes st ⊆ all_filtered_nodes st' →
  (∀ j, resolve nodes node_path = Ok j → j ∈ all_filtered_nodes st') →
  pending_or_visited nodes st k → pending_or_visited nodes st' k.
Proof.
  intros Hq Hqueue Hsub Hhead [Hk|(p & Hp & Hres)]; [left; auto|].
  rewrite Hq in Hp. apply elem_of_cons in Hp as [->|Hp].
  - left. auto.
  - right. eauto.
Qed.

Lemma visit_loop_inv fuel st st' :
  traversal_inv rt w nodes F L0 st →
  visit_loop rt w nodes fuel st = Some (Ok st') →
  traversal_inv rt w nodes F L0 st' ∧ nodes_to_visit st' = [].
Proof.
  revert st. induction fuel as [|fuel IH]; intros st Hinv Hrun; [done|].
  simpl in Hrun.
  destruct (nodes_to_visit st) as [|node_path queue] eqn:Hqueue.
  { injection Hrun as <-. done. }
  destruct (node_path_to_id st !! node_path) as [node_id|] eqn:Hid; [|done].
  destruct Hinv as (Hsound & Hfilters & Hclosed & Hreq & Hqreq & Hkeep & Htrack).
  pose proof (Hsound _ _ Hid) as Hres.
  case_decide as Hvisited.
  - apply IH in Hrun; [done|].
    assert (Hpv : ∀ k, pending_or_visited nodes st k →
              pending_or_visited nodes
                (mkFilterState queue (all_filtered_nodes st)
                   (node_path_to_id st) (loaded_nodes st)) k).
    { intros k. apply (pending_or_visited_step st node_path queue); try done.
      intros j Hj. simpl. congruence. }
    split_and!; simpl; try done.
    + intros P k HP Hk. apply Hpv. eauto.
    + intros i proto reference Hi Hp Hin. apply Hpv. eauto.
    + intros p j Hp Hj. apply (Hqreq p j); [|done]. rewrite Hqueue. by right.
  - destruct (bool_decide (loaded_object (loaded_nodes st) node_id ≠ VNone)
              && negb (isinstance rt w (loaded_object (loaded_nodes st) node_id)
                         Trackable)) eqn:Hcheck; [done|].
    destruct (nodes !! node_id) as [proto|] eqn:Hproto; [|done].
    set (st1 := mkFilterState queue ({[node_id]} ∪ all_filtered_nodes st)
                  (node_path_to_id st) (loaded_nodes st)) in *.
    set (node := loaded_object (loaded_nodes st) node_id) in *.
    set (st2 := visit_children rt w node node_path
                  (SavedObject.children proto) st1) in *.
    assert (Hq2 : nodes_to_visit st2
                  = queue ++ ((λ r, PyStr.format2 node_path
                                      (ObjectReference.local_name r))
                                <$> SavedObject.children proto))
      by apply visit_children_queue.
    assert (Hv2 : all_filtered_nodes st2 = {[node_id]} ∪ all_filtered_nodes st)
      by apply visit_children_visited.
    destruct (visit_children_sound rt w nodes Hnames node node_path node_id
                proto (SavedObject.children proto) st1) as [Hsound2 _];
      try done.
    assert (Hreqn : requested nodes F node_id).
    { apply (Hqreq node_path); [|done]. rewrite Hqueue. left. }
    assert (Hpv : ∀ k, pending_or_visited nodes st k →
              pending_or_visited nodes st2 k).
    { intros k. apply (pending_or_visited_step st node_path queue); try done.
      - intros p Hp. rewrite Hq2. apply elem_of_app. by left.
      - rewrite Hv2. intros x Hx. apply elem_of_union. by right.
      - intros j Hj. rewrite Hv2. apply elem_of_union. left.
        apply elem_of_singleton. congruence. }
    apply IH in Hrun; [done|].
    split_and!; try done.
    + intros P k HP Hk. apply Hpv. eauto.
    + intros i p reference Hi Hp Hin. rewrite Hv2 in Hi.
      apply elem_of_union in Hi as [Hi|Hi]; [|apply Hpv; eauto].
      apply elem_of_singleton in Hi. subst i.
      assert (p = proto) as -> by congruence.
      right. exists (PyStr.format2 node_path
                       (ObjectReference.local_name reference)).
      split.
      * rewrite Hq2. apply elem_of_app. right.
        by apply (list_elem_of_fmap_2
                    (λ r, PyStr.format2 node_path
                             (ObjectReference.local_name r))).
      * by apply (resolve_child nodes Hnames node_path node_id proto).
    + intros i Hi. rewrite Hv2 in Hi.
      apply elem_of_union in Hi as [Hi|Hi]; [|by apply Hreq].
      apply elem_of_singleton in Hi. subst i. split; [done|by eexists].
    + intros p j Hp Hj. rewrite Hq2 in Hp.
      apply elem_of_app in Hp as [Hp|Hp].
      * apply (Hqreq p j); [|done]. rewrite Hqueue. by right.
      * apply list_elem_of_fmap in Hp as (reference & -> & Hin).
        rewrite (resolve_child nodes Hnames node_path node_id proto reference)
          in Hj by done.
        injection Hj as <-.
        destruct Hreqn as (P & k & HP & Hk & Hreach).
        exists P, k. split_and!; try done.
        by apply (reaches_child nodes k node_id proto).
    + intros j x s Hj Hx. apply visit_children_loaded; [|done].
      simpl. by apply Hkeep.
    + intros j x s Hj HL Hx. rewrite Hv2 in Hj.
      apply elem_of_union in Hj as [Hj|Hj]; [|by eapply Htrack].
      apply elem_of_singleton in Hj. subst j.
      subst node. unfold loaded_object in Hcheck.
      rewrite (Hkeep _ _ _ HL Hx) in Hcheck.
      rewrite (bool_decide_eq_true_2 _ Hx) in Hcheck. simpl in Hcheck.
      by apply negb_false_iff in Hcheck.
Qed.

End Closure.

(** What a traversal that completes leaves behind. *)
Lemma retrieve_inv rt w self f m filtered self' :
  names_ok (SavedObjectGraph.nodes (_proto self)) →
  _node_filters self = Some f →
  _node_path_to_id self = Some m →
  convert_loop (SavedObjectGraph.nodes (_proto self)) (filter_keys f) ∅ = Ok m →
  _retrieve_all_filtered_nodes rt w self = Ok (filtered, self') →
  ∃ st,
    traversal_inv rt w (SavedObjectGraph.nodes (_proto self)) (filter_keys f)
      (_loaded_nodes self) st ∧
    nodes_to_visit st = [] ∧
    _loaded_nodes self' = loaded_nodes st ∧
    filtered = if decide (0 ∈ all_filtered_nodes st) then None
               else Some (all_filtered_nodes st).
Proof.
  intros Hnames Hf Hm Hconv Hret.
  unfold _retrieve_all_filtered_nodes in Hret. rewrite Hf, Hm in Hret.
  destruct (visit_loop _ _ _ _ _) as [r|] eqn:Hloop; [|done].
  inv_bind Hret. subst r. rename a into st.
  assert (Hinit : traversal_inv rt w (SavedObjectGraph.nodes (_proto self))
            (filter_keys f) (_loaded_nodes self)
            (mkFilterState (filter_keys f) ∅ m (_loaded_nodes self))).
  { split_and!; simpl; try done.
    - intros path i Hpath.
      destruct (convert_loop_lookup _ _ _ _ path Hconv) as [Hin Hout].
      destruct (decide (path ∈ filter_keys f)) as [Hk|Hk].
      + destruct (Hin Hk) as (j & Hj & Hmj). congruence.
      + rewrite (Hout Hk) in Hpath. done.
    - intros P k HP Hk. right. eauto.
    - intros p j Hp Hj. exists p, j. split_and!; try done. constructor. }
  destruct (visit_loop_inv rt w _ Hnames _ _ _ _ _ Hinit Hloop)
    as [Hinv Hempty].
  exists st. split_and!; try done;
    by destruct (decide (0 ∈ all_filtered_nodes st)); injection Hret as <- <-.
Qed.

(** The ids [_retrieve_all_filtered_nodes] returns are the nodes of the
    filters and all their descendants, no more and no less; it returns
    [None] exactly when node 0 is among them.  (Local names free of dots
    and not repeated within a node; [m] is what
    [_convert_node_paths_to_ints] made of the filters.) *)
Theorem filtered_nodes_are_descendants rt w self f m filtered self' :
  names_ok (SavedObjectGraph.nodes (_proto self)) →
  _node_filters self = Some f →
  _node_path_to_id self = Some m →
  convert_loop (SavedObjectGraph.nodes (_proto self)) (filter_keys f) ∅ = Ok m →
  _retrieve_all_filtered_nodes rt w self = Ok (filtered, self') →
  match filtered with
  | Some s =>
      (¬ requested (SavedObjectGraph.nodes (_proto self)) (filter_keys f) 0) ∧
      ∀ i, i ∈ s ↔
           requested (SavedObjectGraph.nodes (_proto self)) (filter_keys f) i
  | None => requested (SavedObjectGraph.nodes (_proto self)) (filter_keys f) 0
  end.
Proof.
  intros Hnames Hf Hm Hconv Hret.
  destruct (retrieve_inv _ _ _ _ _ _ _ Hnames Hf Hm Hconv Hret)
    as (st & Hinv & Hempty & _ & ->).
  destruct Hinv as (_ & Hfilters & Hclosed & Hreq & _).
  assert (Hdone : ∀ k, pending_or_visited (SavedObjectGraph.nodes (_proto self))
                         st k → k ∈ all_filtered_nodes st).
  { intros k [Hk|(p & Hp & _)]; [done|].
    rewrite Hempty in Hp. by apply elem_of_nil in Hp. }
  assert (Hall : ∀ i, i ∈ all_filtered_nodes st ↔
            requested (SavedObjectGraph.nodes (_proto self)) (filter_keys f) i).
  { intros i. split; [by intros Hi; apply Hreq|].
    intros (P & k & HP & Hk & Hreach).
    assert (Hkv : k ∈ all_filtered_nodes st) by (apply Hdone; eauto).
    clear Hk. induction Hreach as [|i proto reference j Hp Hin _ IH]; [done|].
    apply IH. apply Hdone. eauto. }
  case_decide as H0.
  - by apply Hall.
  - split; [|done]. intros Hr. by apply H0, Hall.
Qed.

(** On the scenario graph the filter ["root.child_layer"] selects the
    layer and its variable. *)
Lemma filtered_nodes_are_descendants_witness :
  names_ok (SavedObjectGraph.nodes (_proto layer_loader)) ∧
  _retrieve_all_filtered_nodes Scenario.runtime Scenario.empty_world
    layer_loader
  = Ok (Some {[1; 2]},
        mkLoader Scenario.graph Scenario.skip_checkpoint
          (Some (filters_list ["root.child_layer"]))
          (Some (<["root.child_layer.v" := 2]> {["root.child_layer" := 1]}))
          ∅ None [] ∅) ∧
  (¬ requested Scenario.nodes ["root.child_layer"] 0) ∧
  ∀ i, i ∈ ({[1; 2]} : gset nat) ↔
       requested Scenario.nodes ["root.child_layer"] i.
Proof.
  assert (Hnames : names_ok (SavedObjectGraph.nodes (_proto layer_loader))).
  { apply names_ok_check_correct. vm_compute. reflexivity. }
  assert (Hret : _retrieve_all_filtered_nodes Scenario.runtime
                   Scenario.empty_world layer_loader
                 = Ok (Some {[1; 2]},
                       mkLoader Scenario.graph Scenario.skip_checkpoint
                         (Some (filters_list ["root.child_layer"]))
                         (Some (<["root.child_layer.v" := 2]>
                                  {["root.child_layer" := 1]}))
                         ∅ None [] ∅)) by (vm_compute; reflexivity).
  split; [exact Hnames|]. split; [exact Hret|].
  exact (filtered_nodes_are_descendants Scenario.runtime Scenario.empty_world
           layer_loader (filters_list ["root.child_layer"])
           {["root.child_layer" := 1]} _ _ Hnames eq_refl eq_refl eq_refl Hret).
Defined.



(** ** The path index *)

Lemma walks_in_range nodes cur names target :
  valid_targets nodes → walks nodes cur names target →
  cur < length nodes → target < length nodes.
Proof.
  intros [_ Hvalid] Hw. induction Hw as [|cur name rest proto child target Hp Hf _ IH];
    [done|].
  intros _. apply IH.
  apply find_child_Some in Hf as (reference & Hin & _ & <-). eauto.
Qed.

Lemma resolve_split nodes path i :
  resolve nodes path = Ok i →
  ∃ names, PyStr.split path = "root" :: names ∧ walks nodes 0 names i.
Proof.
  unfold resolve. destruct (PyStr.split path) as [|first names] eqn:Hsplit; [done|].
  case_decide as Hroot; [|done]. subst first.
  intros Hw. exists names. split; [done|]. by eapply walk_names_Ok.
Qed.

(** When [_convert_node_paths_to_ints] succeeds, its dictionary has the
    filters as its keys and nothing else, and every value is a node of the
    graph: the one the segments after ["root"] lead to from node 0. *)
Theorem convert_node_paths_index nodes l m :
  valid_targets nodes →
  _convert_node_paths_to_ints nodes (Some l) = Ok (Some m) →
  (∀ path, is_Some (m !! path) ↔ path ∈ l) ∧
  ∀ path i, m !! path = Some i →
    i < length nodes ∧
    ∃ names, PyStr.split path = "root" :: names ∧ walks nodes 0 names i.
Proof.
  intros Hvalid Hconv. simpl in Hconv. inv_bind Hconv.
  injection Hconv as <-. rename Ha into Hloop.
  split.
  - intros path. destruct (convert_loop_lookup _ _ _ _ path Hloop) as [Hin Hout].
    split.
    + intros [i Hi]. destruct (decide (path ∈ l)) as [|Hn]; [done|].
      rewrite (Hout Hn) in Hi. done.
    + intros Hp. destruct (Hin Hp) as (i & _ & Hi). by eexists.
  - intros path i Hi.
    destruct (convert_loop_lookup _ _ _ _ path Hloop) as [Hin Hout].
    destruct (decide (path ∈ l)) as [Hp|Hn].
    + destruct (Hin Hp) as (j & Hj & Hmj).
      assert (j = i) as -> by congruence.
      apply resolve_split in Hj as (names & Hsplit & Hw).
      split; [|eauto]. eapply walks_in_range; eauto. apply Hvalid.
    + rewrite (Hout Hn) in Hi. done.
Qed.

Lemma convert_node_paths_index_witness :
  valid_targets Scenario.nodes ∧
  _convert_node_paths_to_ints Scenario.nodes
    (Some ["root.child_layer.v"; "root"])
  = Ok (Some (<["root" := 0]> {["root.child_layer.v" := 2]})) ∧
  (∀ path, is_Some ((<["root" := 0]> {["root.child_layer.v" := 2]}
                       : gmap string nat) !! path)
           ↔ path ∈ ["root.child_layer.v"; "root"]) ∧
  ∀ path i, (<["root" := 0]> {["root.child_layer.v" := 2]} : gmap string nat)
            !! path = Some i →
    i < length Scenario.nodes ∧
    ∃ names, PyStr.split path = "root" :: names ∧
             walks Scenario.nodes 0 names i.
Proof.
  assert (Hvalid : valid_targets Scenario.nodes).
  { apply valid_targets_check_correct. vm_compute. reflexivity. }
  assert (Hconv : _convert_node_paths_to_ints Scenario.nodes
                    (Some ["root.child_layer.v"; "root"])
                  = Ok (Some (<["root" := 0]> {["root.child_layer.v" := 2]})))
    by (vm_compute; reflexivity).
  split; [exact Hvalid|]. split; [exact Hconv|].
  exact (convert_node_paths_index Scenario.nodes _ _ Hvalid Hconv).
Defined.

Lemma join_split s : PyStr.join (PyStr.split s) = s.
Proof.
  unfold PyStr.join. induction s as [|c s IH]; [done|].
  cbn [PyStr.split]. destruct (PyStr.split s) as [|h t] eqn:Hs.
  { by apply split_nonempty in Hs. }
  case_decide as Hc.
  - subst c. change (String.concat "." ("" :: h :: t))
      with (String "." (String.concat "." (h :: t))). by rewrite IH.
  - destruct t as [|h' t].
    + simpl in *. by rewrite IH.
    + change (String.concat "." (String c h :: h' :: t))
        with (String c (String.concat "." (h :: h' :: t))). by rewrite IH.
Qed.

(** When all the segments of a filter but the last lead somewhere and the
    last names no child, the error of [_convert_node_paths_to_ints] carries
    the filter as it was written. *)
Theorem last_segment_missing nodes path before after init name cur :
  Forall (λ p, ∃ i, resolve nodes p = Ok i) before →
  PyStr.split path = "root" :: init ++ [name] →
  walks nodes 0 init cur →
  no_child nodes cur name →
  _convert_node_paths_to_ints nodes (Some (before ++ path :: after))
  = Err (UnknownChildError path).
Proof.
  intros Hbefore Hsplit Hw Hno. simpl.
  rewrite (convert_loop_Err nodes before path after ∅ (UnknownChildError path));
    [done..|].
  unfold resolve. rewrite Hsplit. rewrite decide_True by done.
  rewrite (walk_names_missing nodes _ 0 (init ++ [name]) 0 (length init) cur name).
  - rewrite take_ge by (simpl; rewrite length_app; simpl; lia).
    by rewrite <- Hsplit, join_split.
  - by rewrite take_app_length.
  - by rewrite lookup_app_r, Nat.sub_diag.
  - done.
Qed.

Lemma last_segment_missing_witness :
  Forall (λ p, ∃ i, resolve Scenario.nodes p = Ok i) ["root"] ∧
  PyStr.split "root.child_layer.w" = "root" :: ["child_layer"] ++ ["w"] ∧
  walks Scenario.nodes 0 ["child_layer"] 1 ∧
  no_child Scenario.nodes 1 "w" ∧
  _convert_node_paths_to_ints Scenario.nodes
    (Some (["root"] ++ "root.child_layer.w" :: ["root.child_layer"]))
  = Err (UnknownChildError "root.child_layer.w").
Proof.
  assert (Hbefore : Forall (λ p, ∃ i, resolve Scenario.nodes p = Ok i) ["root"]).
  { repeat constructor. by exists 0. }
  assert (Hw : walks Scenario.nodes 0 ["child_layer"] 1).
  { econstructor; [reflexivity|reflexivity|constructor]. }
  assert (Hno : no_child Scenario.nodes 1 "w").
  { eexists. split; [reflexivity|]. intros reference Hin.
    apply list_elem_of_singleton in Hin. by subst. }
  split; [exact Hbefore|]. split; [reflexivity|].
  split; [exact Hw|]. split; [exact Hno|].
  exact (last_segment_missing Scenario.nodes "root.child_layer.w" ["root"]
           ["root.child_layer"] ["child_layer"] "w" 1 Hbefore eq_refl Hw Hno).
Defined.

(** ** What [_load_nodes] builds and what it leaves alone *)

Lemma mapM_result_elem {A B} (f : A → result B) l k y :
  mapM f l = Ok k → y ∈ k → ∃ x, x ∈ l ∧ f x = Ok y.
Proof.
  revert k. induction l as [|x l IH]; intros k Hk Hy; simpl in Hk.
  - injection Hk as <-. by apply elem_of_nil in Hy.
  - inv_bind Hk. inv_bind Hk. injection Hk as <-.
    apply elem_of_cons in Hy as [->|Hy].
    + exists x. split; [left|done].
    + destruct (IH _ Ha0 Hy) as (x' & ? & ?). exists x'. split; [by right|done].
Qed.

Lemma mapM_result_all {A B} (f : A → result B) l k x :
  mapM f l = Ok k → x ∈ l → ∃ y, f x = Ok y ∧ y ∈ k.
Proof.
  revert k. induction l as [|x' l IH]; intros k Hk Hx; simpl in Hk.
  - by apply elem_of_nil in Hx.
  - inv_bind Hk. inv_bind Hk. injection Hk as <-.
    apply elem_of_cons in Hx as [->|Hx].
    + eexists. split; [done|left].
    + destruct (IH _ Ha0 Hx) as (y & ? & ?). exists y. split; [done|by right].
Qed.

(** The iteration pairs an id with the node of the graph at that id. *)
Lemma iter_all_nodes_lookup rt self iter i proto :
  _iter_all_nodes rt self = Ok iter → (i, proto) ∈ iter →
  SavedObjectGraph.nodes (_proto self) !! i = Some proto.
Proof.
  unfold _iter_all_nodes. destruct (_filtered_nodes self) as [s|].
  - intros Hm Hin.
    destruct (mapM_result_elem _ _ _ _ Hm Hin) as (x & _ & Hx).
    destruct (SavedObjectGraph.nodes (_proto self) !! x) eqn:Hl; [|done].
    by injection Hx as -> ->.
  - intros [= <-] Hin. apply list_elem_of_lookup in Hin as [k Hk].
    rewrite list_lookup_imap in Hk.
    destruct (SavedObjectGraph.nodes (_proto self) !! k) eqn:Hl; [|done].
    simpl in Hk. by injection Hk as -> ->.
Qed.

(** Which ids the iteration has, when a set is iterated element by
    element. *)
Lemma iter_all_nodes_elem rt self iter i proto :
  set_order_ok rt →
  _iter_all_nodes rt self = Ok iter →
  (i, proto) ∈ iter ↔
  SavedObjectGraph.nodes (_proto self) !! i = Some proto ∧
  match _filtered_nodes self with
  | Some s => i ∈ s
  | None => True
  end.
Proof.
  intros Hset Hiter. split.
  - intros Hin. split; [by eapply iter_all_nodes_lookup|].
    unfold _iter_all_nodes in Hiter.
    destruct (_filtered_nodes self) as [s|]; [|done].
    destruct (mapM_result_elem _ _ _ _ Hiter Hin) as (x & Hx & Hfx).
    destruct (SavedObjectGraph.nodes (_proto self) !! x); [|done].
    injection Hfx as -> _. rewrite (Hset s) in Hx. by apply elem_of_elements.
  - intros [Hl Hs]. unfold _iter_all_nodes in Hiter.
    destruct (_filtered_nodes self) as [s|].
    + apply elem_of_elements in Hs. rewrite <- (Hset s) in Hs.
      destruct (mapM_result_all _ _ _ _ Hiter Hs) as (y & Hy & Hin).
      rewrite Hl in Hy. by injection Hy as <-.
    + injection Hiter as <-. apply list_elem_of_lookup. exists i.
      rewrite list_lookup_imap. by rewrite Hl.
Qed.

Section LoadNodesFrame.

Variable rt : Runtime.

(** The first pass leaves alone what the table already has. *)
Lemma recreate_loop_keeps slot_ids iter st st' (j : nat) :
  recreate_loop rt slot_ids iter st = Ok st' →
  has_node (st_nodes st) j = true →
  st_nodes st' !! j = st_nodes st !! j ∧
  st_node_setters st' !! j = st_node_setters st !! j ∧
  ∀ e v, e ∈ st_log st' → constructs e j v → e ∈ st_log st.
Proof.
  revert st. induction iter as [|[node_id proto] iter IH]; intros st Hrun Hj.
  - by injection Hrun as <-.
  - simpl in Hrun.
    destruct (bool_decide (node_id ∈ slot_ids) || has_node (st_nodes st) node_id)
      eqn:Hskip; [by apply IH|].
    apply orb_false_elim in Hskip as [_ Hhas].
    inv_bind Hrun. destruct a as [[node s] w'].
    assert (Hne : node_id ≠ j) by (intros ->; congruence).
    destruct (recreate_object _ _ _ _ _ _ _ Ha) as [r ->].
    destruct (IH _ Hrun) as (Hn & Hs & Hlog).
    { simpl. by apply has_node_insert. }
    simpl in *. rewrite lookup_insert_ne in Hn by done.
    rewrite lookup_insert_ne in Hs by done.
    split_and!; try done.
    intros e v He Hc. specialize (Hlog e v He Hc).
    apply elem_of_app in Hlog as [?|Hlog]; [done|].
    apply list_elem_of_singleton in Hlog as ->. by destruct Hc.
Qed.

(** A node without a kind stops the first pass, unless the pass skips
    it. *)
Lemma recreate_loop_kinds slot_ids iter st st' (i : nat) proto :
  recreate_loop rt slot_ids iter st = Ok st' →
  (i, proto) ∈ iter →
  (∀ proto', (i, proto') ∈ iter → proto' = proto) →
  SavedObject.kind proto = kind_not_set →
  i ∈ slot_ids ∨ has_node (st_nodes st) i = true.
Proof.
  revert st. induction iter as [|[node_id p] iter IH];
    intros st Hrun Hin Hfun Hkind.
  - by apply elem_of_nil in Hin.
  - simpl in Hrun.
    destruct (bool_decide (node_id ∈ slot_ids) || has_node (st_nodes st) node_id)
      eqn:Hskip.
    + apply elem_of_cons in Hin as [[= -> ->]|Hin].
      * apply orb_prop in Hskip as [Hs|Hs]; [|by right].
        left. by apply bool_decide_eq_true in Hs.
      * apply (IH st); try done. intros proto' Hp. apply Hfun. by right.
    + inv_bind Hrun. destruct a as [[node s] w'].
      assert (Hne : node_id ≠ i).
      { intros ->. assert (p = proto) as -> by (apply Hfun; left).
        unfold _recreate in Ha. by rewrite Hkind in Ha. }
      apply elem_of_cons in Hin as [[= -> ->]|Hin]; [done|].
      destruct (IH _ Hrun Hin) as [?|Hhas]; try done; [|by left|].
      { intros proto' Hp. apply Hfun. by right. }
      right. unfold has_node in *. simpl in Hhas.
      by rewrite lookup_insert_ne in Hhas.
Qed.

(** The second pass writes only the entries of slot variables. *)
Lemma add_slots_keeps optimizer_id optimizer_object slots st st' (j : nat) :
  add_slots rt optimizer_id optimizer_object slots st = Ok st' →
  (∀ sp, sp ∈ slots → SlotVariableReference.slot_variable_node_id sp ≠ j) →
  st_nodes st' !! j = st_nodes st !! j ∧
  st_node_setters st' !! j = st_node_setters st !! j ∧
  ∀ e v, e ∈ st_log st' → constructs e j v → e ∈ st_log st.
Proof.
  revert st. induction slots as [|sp slots IH]; intros st Hrun Hj.
  - by injection Hrun as <-.
  - simpl in Hrun.
    destruct (st_nodes st !! _) as [var|]; [|done].
    destruct optimizer_object as [| |optimizer]; try done.
    inv_bind Hrun. destruct a as [slot_variable w'].
    destruct (IH _ Hrun) as (Hn & Hs & Hlog).
    { intros sp' Hin. apply Hj. by right. }
    assert (Hne : SlotVariableReference.slot_variable_node_id sp ≠ j)
      by (apply Hj; left).
    simpl in *. rewrite lookup_insert_ne in Hn by done.
    rewrite lookup_insert_ne in Hs by done.
    split_and!; try done.
    intros e v He Hc. specialize (Hlog e v He Hc).
    apply elem_of_app in Hlog as [?|Hlog]; [done|].
    apply list_elem_of_singleton in Hlog as ->. by destruct Hc.
Qed.

Lemma slot_loop_keeps iter st st' (j : nat) :
  slot_loop rt iter st = Ok st' →
  j ∉ slot_variable_node_ids iter →
  st_nodes st' !! j = st_nodes st !! j ∧
  st_node_setters st' !! j = st_node_setters st !! j ∧
  ∀ e v, e ∈ st_log st' → constructs e j v → e ∈ st_log st.
Proof.
  intros Hrun Hj.
  assert (Hj' : ∀ i proto sp, (i, proto) ∈ iter →
            sp ∈ SavedObject.slot_variables proto →
            SlotVariableReference.slot_variable_node_id sp ≠ j).
  { intros i proto sp Hin Hsp Heq. apply Hj. apply slot_ids_spec.
    by exists i, proto, sp. }
  clear Hj. revert st Hrun.
  induction iter as [|[node_id proto] iter IH]; intros st Hrun.
  - by injection Hrun as <-.
  - simpl in Hrun. destruct (st_nodes st !! node_id) as [obj|]; [|done].
    inv_bind Hrun. rename a into st1.
    destruct (add_slots_keeps _ _ _ _ _ j Ha) as (Hn1 & Hs1 & Hlog1).
    { intros sp Hsp. apply (Hj' node_id proto sp); [left|done]. }
    assert (Hj2 : ∀ i p sp, (i, p) ∈ iter →
              sp ∈ SavedObject.slot_variables p →
              SlotVariableReference.slot_variable_node_id sp ≠ j).
    { intros i p sp Hin. apply (Hj' i p sp). by right. }
    destruct (IH Hj2 _ Hrun) as (Hn & Hs & Hlog).
    rewrite Hn, Hs, Hn1, Hs1. split_and!; try done. eauto.
Qed.

(** What the three passes leave alone: an entry for which an object was
    supplied, unless the iteration marks it as a slot variable. *)
Lemma load_nodes_passes_keeps self w st iter (j : nat) :
  load_nodes_passes rt self w = Ok st →
  _iter_all_nodes rt self = Ok iter →
  j ∉ slot_variable_node_ids iter →
  has_node (fst <$> _loaded_nodes self) j = true →
  st_nodes st !! j = (fst <$> _loaded_nodes self) !! j ∧
  st_node_setters st !! j = (snd <$> _loaded_nodes self) !! j ∧
  ∀ e v, e ∈ st_log st → ¬ constructs e j v.
Proof.
  intros Hrun Hiter Hslot Hhas.
  unfold load_nodes_passes, _initialize_loaded_nodes in Hrun.
  rewrite Hiter in Hrun. simpl in Hrun.
  inv_bind Hrun. rename a into st1. inv_bind Hrun. rename a into st2.
  injection Hrun as <-.
  destruct (recreate_loop_keeps _ _ _ _ j Ha) as (Hn1 & Hs1 & Hlog1); [done|].
  destruct (slot_loop_keeps _ _ _ j Ha0 Hslot) as (Hn2 & Hs2 & Hlog2).
  simpl in *.
  assert (Hin2 : is_Some (st_nodes st2 !! j)).
  { rewrite Hn2, Hn1. unfold has_node in Hhas.
    destruct ((fst <$> _loaded_nodes self) !! j); [by eexists|done]. }
  unfold add_dummy_root.
  destruct (st_nodes st2 !! 0) as [root|] eqn:Hroot.
  - rewrite Hn2, Hs2, Hn1, Hs1. split_and!; try done.
    intros e v He Hc. specialize (Hlog1 e v (Hlog2 e v He Hc) Hc).
    by apply elem_of_nil in Hlog1.
  - unfold _recreate_base_user_object, alloc. simpl.
    assert (Hne : 0 ≠ j).
    { intros <-. rewrite Hroot in Hin2. by destruct Hin2. }
    rewrite lookup_insert_ne by done.
    rewrite Hn2, Hs2, Hn1, Hs1. split_and!; try done.
    intros e v He Hc. apply elem_of_app in He as [He|He].
    + specialize (Hlog1 e v (Hlog2 e v He Hc) Hc).
      by apply elem_of_nil in Hlog1.
    + apply list_elem_of_singleton in He as ->. by destruct Hc.
Qed.

End LoadNodesFrame.

(** An object the caller supplied for a node is not constructed again:
    after [_load_nodes] the node table holds that very object with the
    setter supplied with it, and no construction of the log is for that
    node.  (The node must not be a slot variable of an optimizer that is
    being loaded: those entries are overwritten by [add_slot].) *)
Theorem supplied_object_is_kept rt self w self' w' log iter j node s :
  _load_nodes rt self w = Ok (self', w', log) →
  _iter_all_nodes rt self = Ok iter →
  j ∉ slot_variable_node_ids iter →
  _loaded_nodes self !! j = Some (node, s) →
  node ≠ VNone →
  j < length (SavedObjectGraph.nodes (_proto self)) →
  _nodes self' !! j = Some node ∧
  _node_setters self' !! j = Some s ∧
  ∀ e v, e ∈ log → ¬ constructs e j v.
Proof.
  intros Hrun Hiter Hslot Hj Hnode Hlen.
  unfold _load_nodes in Hrun. inv_bind Hrun. rename a into st.
  injection Hrun as <- _ <-.
  destruct (load_nodes_passes_keeps rt self w st iter j Ha Hiter Hslot)
    as (Hn & Hs & Hlog).
  { unfold has_node. rewrite lookup_fmap, Hj. simpl.
    by apply bool_decide_eq_true. }
  simpl. rewrite nodes_list_lookup by done.
  rewrite Hn, Hs, !lookup_fmap, Hj. done.
Qed.

Lemma supplied_object_is_kept_witness :
  ∃ self' w' log iter,
    _load_nodes Scenario.runtime reusing_loader Scenario.small_world
    = Ok (self', w', log) ∧
    _iter_all_nodes Scenario.runtime reusing_loader = Ok iter ∧
    (2 ∉ slot_variable_node_ids iter) ∧
    (3 ∈ slot_variable_node_ids iter) ∧
    _nodes self' !! 2 = Some (VObj 0) ∧
    _node_setters self' !! 2 = Some (custom_setter 0) ∧
    ∀ e v, e ∈ log → ¬ constructs e 2 v.
Proof.
  destruct (_load_nodes Scenario.runtime reusing_loader Scenario.small_world)
    as [[[self' w'] log]|e] eqn:Hload; [|by vm_compute in Hload].
  destruct (_iter_all_nodes Scenario.runtime reusing_loader)
    as [iter|e] eqn:Hiter; [|by vm_compute in Hiter].
  assert (Hslot : 2 ∉ slot_variable_node_ids iter).
  { vm_compute in Hiter. injection Hiter as <-.
    apply (bool_decide_unpack _). vm_compute. exact I. }
  assert (Hslot3 : 3 ∈ slot_variable_node_ids iter).
  { vm_compute in Hiter. injection Hiter as <-.
    apply (bool_decide_unpack _). vm_compute. exact I. }
  exists self', w', log, iter.
  split; [done|]. split; [done|]. split; [exact Hslot|]. split; [exact Hslot3|].
  refine (supplied_object_is_kept Scenario.runtime reusing_loader
            Scenario.small_world self' w' log iter 2 (VObj 0) (custom_setter 0)
            Hload Hiter Hslot eq_refl _ _).
  - discriminate.
  - vm_compute. lia.
Defined.

(** [_load_nodes] returns a table with one entry per node of the graph,
    and constructs nothing but the nodes of the iteration, the slot
    variables of the optimizers among them, and the root: any other node
    for which the caller supplied nothing is [None] in the table, and
    no construction of the log is for it. *)
Theorem load_nodes_builds_only rt self w self' w' log iter j :
  _load_nodes rt self w = Ok (self', w', log) →
  _iter_all_nodes rt self = Ok iter →
  j ≠ 0 →
  (∀ proto, (j, proto) ∉ iter) →
  j ∉ slot_variable_node_ids iter →
  _loaded_nodes self !! j = None →
  j < length (SavedObjectGraph.nodes (_proto self)) →
  length (_nodes self') = length (SavedObjectGraph.nodes (_proto self)) ∧
  _nodes self' !! j = Some VNone ∧
  ∀ e v, e ∈ log → ¬ constructs e j v.
Proof.
  intros Hrun Hiter Hroot Hnot Hslot Hj Hlen.
  unfold _load_nodes in Hrun. inv_bind Hrun. rename a into st.
  injection Hrun as <- _ <-.
  destruct (load_nodes_passes_spec rt self w st Ha)
    as (iter' & log1 & log2 & log3 & Hiter' & Hlog & Hnodes & Hev1 & Hev2
        & Hev3 & _).
  rewrite Hiter in Hiter'. injection Hiter' as <-.
  assert (Hno : ∀ e v, e ∈ st_log st → ¬ constructs e j v).
  { intros e v He Hc. rewrite Hlog in He.
    apply elem_of_app in He as [He|He]; [|apply elem_of_app in He as [He|He]].
    - destruct (Hev1 e He) as (i & r & proto & -> & _ & Hin).
      destruct Hc as [-> _]. by apply (Hnot proto).
    - apply list_elem_of_lookup in He as [k Hk].
      destruct (Hev2 k e Hk)
        as (oid & o & var & slot & sv & proto & -> & Hin & Hsp & _).
      destruct Hc as [Hc _]. apply Hslot, slot_ids_spec.
      by exists oid, proto, slot.
    - destruct Hev3 as [->|(root & -> & _)]; [by apply elem_of_nil in He|].
      apply list_elem_of_singleton in He as ->. by destruct Hc as [-> _]. }
  simpl. split; [|split; [|done]].
  - unfold nodes_list. by rewrite length_fmap, length_seq.
  - rewrite nodes_list_lookup by done.
    destruct (st_nodes st !! j) as [v|] eqn:Hv; [|done].
    rewrite Hnodes, <- Hlog in Hv.
    apply replay_lookup in Hv as [(e & He & Hc)|Hv]; [by destruct (Hno e v)|].
    by rewrite lookup_fmap, Hj in Hv.
Qed.

(** Loading only the optimizer of the optimizer graph with a detached
    fifth node: the optimizer, its slot variable and a root are built, the
    supplied variable is used, and node 4 stays [None]. *)
Lemma load_nodes_builds_only_witness :
  ∃ self' w' log iter,
    _load_nodes Scenario.runtime optimizer_only_loader Scenario.small_world
    = Ok (self', w', log) ∧
    _iter_all_nodes Scenario.runtime optimizer_only_loader = Ok iter ∧
    (∀ proto, (4, proto) ∉ iter) ∧
    (4 ∉ slot_variable_node_ids iter) ∧
    length (_nodes self') = 5 ∧
    _nodes self' !! 4 = Some VNone ∧
    ∀ e v, e ∈ log → ¬ constructs e 4 v.
Proof.
  destruct (_load_nodes Scenario.runtime optimizer_only_loader
              Scenario.small_world)
    as [[[self' w'] log]|e] eqn:Hload; [|by vm_compute in Hload].
  destruct (_iter_all_nodes Scenario.runtime optimizer_only_loader)
    as [iter|e] eqn:Hiter; [|by vm_compute in Hiter].
  assert (Hnot : ∀ proto, (4, proto) ∉ iter).
  { vm_compute in Hiter. injection Hiter as <-. intros proto Hin.
    repeat (apply elem_of_cons in Hin as [Hin|Hin]; [discriminate Hin|]).
    by apply elem_of_nil in Hin. }
  assert (Hslot : 4 ∉ slot_variable_node_ids iter).
  { vm_compute in Hiter. injection Hiter as <-.
    apply (bool_decide_unpack _). vm_compute. exact I. }
  exists self', w', log, iter.
  split; [done|]. split; [done|]. split; [exact Hnot|]. split; [exact Hslot|].
  refine (load_nodes_builds_only Scenario.runtime optimizer_only_loader
            Scenario.small_world self' w' log iter 4
            Hload Hiter _ Hnot Hslot eq_refl _).
  - discriminate.
  - vm_compute. lia.
Defined.

(** A [_load_nodes] that completes has met no node without a kind among
    those it had to construct: a node of the iteration whose kind is not
    set is a slot variable or was supplied by the caller. *)
Theorem load_nodes_known_kinds rt self w self' w' log iter i proto :
  _load_nodes rt self w = Ok (self', w', log) →
  _iter_all_nodes rt self = Ok iter →
  (i, proto) ∈ iter →
  SavedObject.kind proto = kind_not_set →
  i ∈ slot_variable_node_ids iter ∨
  ∃ node s, _loaded_nodes self !! i = Some (node, s) ∧ node ≠ VNone.
Proof.
  intros Hrun Hiter Hin Hkind.
  unfold _load_nodes in Hrun. inv_bind Hrun. rename a into st. clear Hrun.
  unfold load_nodes_passes, _initialize_loaded_nodes in Ha.
  rewrite Hiter in Ha. simpl in Ha. inv_bind Ha. rename a into st1. clear Ha.
  destruct (recreate_loop_kinds rt _ _ _ _ i proto Ha0 Hin) as [?|Hhas];
    [|done|by left|].
  { intros proto' Hin'.
    pose proof (iter_all_nodes_lookup _ _ _ _ _ Hiter Hin).
    pose proof (iter_all_nodes_lookup _ _ _ _ _ Hiter Hin'). congruence. }
  right. unfold has_node in Hhas. simpl in Hhas.
  rewrite lookup_fmap in Hhas.
  destruct (_loaded_nodes self !! i) as [[node s]|]; [|done].
  exists node, s. split; [done|]. by apply bool_decide_eq_true in Hhas.
Qed.

Lemma load_nodes_known_kinds_witness :
  ∃ self' w' log iter,
    _load_nodes Scenario.runtime kindless_loader Scenario.small_world
    = Ok (self', w', log) ∧
    _iter_all_nodes Scenario.runtime kindless_loader = Ok iter ∧
    (1, SavedObject.mk [] [] kind_not_set []) ∈ iter ∧
    (1 ∈ slot_variable_node_ids iter ∨
     ∃ node s, _loaded_nodes kindless_loader !! 1 = Some (node, s)
               ∧ node ≠ VNone).
Proof.
  destruct (_load_nodes Scenario.runtime kindless_loader Scenario.small_world)
    as [[[self' w'] log]|e] eqn:Hload; [|by vm_compute in Hload].
  destruct (_iter_all_nodes Scenario.runtime kindless_loader)
    as [iter|e] eqn:Hiter; [|by vm_compute in Hiter].
  assert (Hin : (1, SavedObject.mk [] [] kind_not_set []) ∈ iter).
  { vm_compute in Hiter. injection Hiter as <-. right. left. }
  exists self', w', log, iter.
  split; [done|]. split; [done|]. split; [exact Hin|].
  exact (load_nodes_known_kinds Scenario.runtime kindless_loader
           Scenario.small_world self' w' log iter 1 _ Hload Hiter Hin eq_refl).
Defined.

(** ** Loading everything *)

(** A load without filters that completes has an object for every node
    of the serialized graph, whether an edge leads to it or not, and the
    loader's table is as long as the graph. *)
Theorem full_load_has_every_node rt graph options w loader w' log :
  Loader_init rt graph options None w = Ok (loader, w', log) →
  length (_nodes loader) = length (SavedObjectGraph.nodes graph) ∧
  ∀ i, i < length (SavedObjectGraph.nodes graph) →
    ∃ v, _nodes loader !! i = Some v ∧ v ≠ VNone.
Proof.
  intros Hinit. unfold Loader_init in Hinit.
  inv_bind Hinit. rename a into w0. simpl in Hinit.
  inv_bind Hinit. destruct a as [[self3 w1] log1].
  inv_bind Hinit. injection Hinit as <- _ _.
  unfold _load_all in Ha0. inv_bind Ha0. destruct a0 as [[self1 w2] log2].
  do 4 inv_bind Ha0. injection Ha0 as <- _ _.
  rename Ha2 into Hload.
  split.
  - unfold _load_nodes in Hload. inv_bind Hload. injection Hload as <- _ _.
    simpl. unfold nodes_list. by rewrite length_fmap, length_seq.
  - intros i Hi.
    destruct (lookup_lt_is_Some_2 (SavedObjectGraph.nodes graph) i Hi)
      as [proto Hproto].
    eapply (load_nodes_materializes _ _ _ _ _ _ _ i proto Hload);
      [done| |done].
    apply list_elem_of_lookup. exists i. simpl. rewrite list_lookup_imap.
    by rewrite Hproto.
Qed.

(** The full load of the scenario graph with a detached fourth node. *)
Lemma full_load_has_every_node_witness :
  ∃ loader w' log,
    Loader_init Scenario.runtime
      (SavedObjectGraph.mk Scenario.detached_nodes [])
      Scenario.skip_checkpoint None Scenario.empty_world
    = Ok (loader, w', log) ∧
    length (_nodes loader) = 4 ∧
    ∀ i, i < 4 → ∃ v, _nodes loader !! i = Some v ∧ v ≠ VNone.
Proof.
  destruct (Loader_init Scenario.runtime
              (SavedObjectGraph.mk Scenario.detached_nodes [])
              Scenario.skip_checkpoint None Scenario.empty_world)
    as [[[loader w'] log]|e] eqn:Hinit; [|by vm_compute in Hinit].
  exists loader, w', log. split; [done|].
  exact (full_load_has_every_node _ _ _ _ _ _ _ Hinit).
Defined.

(** ** A partial load, from the filters to the node table *)

Section LoadedDomain.

Variable rt : Runtime.
Variable w : World.
Variable nodes : list SavedObject.t.

Lemma visit_loop_visited_mono fuel st st' :
  visit_loop rt w nodes fuel st = Some (Ok st') →
  all_filtered_nodes st ⊆ all_filtered_nodes st'.
Proof.
  revert st. induction fuel as [|fuel IH]; intros st Hrun; [done|].
  simpl in Hrun.
  destruct (nodes_to_visit st) as [|node_path queue]; [by injection Hrun as <-|].
  destruct (node_path_to_id st !! node_path) as [node_id|]; [|done].
  case_decide as Hvisited; [by apply IH in Hrun|].
  destruct (_ && _); [done|].
  destruct (nodes !! node_id) as [proto|]; [|done].
  apply IH in Hrun. rewrite visit_children_visited in Hrun. simpl in Hrun.
  intros x Hx. apply Hrun. apply elem_of_union. by right.
Qed.

Lemma visit_children_loaded_dom node node_path children st (j : nat) :
  is_Some (loaded_nodes (visit_children rt w node node_path children st) !! j) →
  is_Some (loaded_nodes st !! j) ∨
  ∃ reference, reference ∈ children ∧ ObjectReference.node_id reference = j.
Proof.
  revert st. induction children as [|r rest IH]; intros st Hj; [by left|].
  simpl in Hj. apply IH in Hj as [Hj|(reference & Hin & Heq)].
  - simpl in Hj.
    destruct (_ && _); [|by left].
    destruct (isinstance rt w _ TrackableDataStructure); [|by left].
    destruct (decide (ObjectReference.node_id r = j)) as [Heq|Hne].
    + right. exists r. split; [left|done].
    + rewrite lookup_insert_ne in Hj by done. by left.
  - right. exists reference. split; [by right|done].
Qed.

(** The traversal adds to [_loaded_nodes] only children of nodes it has
    visited. *)
Lemma visit_loop_loaded_dom fuel st st' (j : nat) :
  visit_loop rt w nodes fuel st = Some (Ok st') →
  is_Some (loaded_nodes st' !! j) →
  is_Some (loaded_nodes st !! j) ∨
  ∃ i proto reference,
    i ∈ all_filtered_nodes st' ∧ nodes !! i = Some proto ∧
    reference ∈ SavedObject.children proto ∧
    ObjectReference.node_id reference = j.
Proof.
  revert st. induction fuel as [|fuel IH]; intros st Hrun Hj; [done|].
  simpl in Hrun.
  destruct (nodes_to_visit st) as [|node_path queue];
    [injection Hrun as <-; by left|].
  destruct (node_path_to_id st !! node_path) as [node_id|]; [|done].
  case_decide as Hvisited; [by apply IH in Hrun|].
  destruct (_ && _); [done|].
  destruct (nodes !! node_id) as [proto|] eqn:Hproto; [|done].
  pose proof (visit_loop_visited_mono _ _ _ Hrun) as Hmono.
  apply IH in Hrun as [Hl|?]; [|by right|done].
  apply visit_children_loaded_dom in Hl as [Hl|(reference & Hin & Heq)];
    [by left|].
  right. exists node_id, proto, reference. split_and!; try done.
  apply Hmono. rewrite visit_children_visited. simpl.
  apply elem_of_union. left. by apply elem_of_singleton.
Qed.

End LoadedDomain.

(** [__init__] files the supplied objects under the ids of their paths. *)
Lemma init_loaded_nodes_dom d m L L' (j : nat) :
  init_loaded_nodes d m L = Ok L' →
  is_Some (L' !! j) →
  is_Some (L !! j) ∨ ∃ path, path ∈ d.*1 ∧ m !! path = Some j.
Proof.
  revert L. induction d as [|[path node] d IH]; intros L Hrun Hj.
  - injection Hrun as <-. by left.
  - simpl in Hrun. destruct (m !! path) as [node_id|] eqn:Hpath; [|done].
    apply IH in Hrun as [Hl|(p & Hp & Hm)]; [| |done].
    + destruct (decide (node_id = j)) as [<-|Hne].
      * right. exists path. split; [left|done].
      * rewrite lookup_insert_ne in Hl by done. by left.
    + right. exists p. split; [by right|done].
Qed.

Lemma traversal_inv_init rt w nodes l m L0 :
  convert_loop nodes l ∅ = Ok m →
  traversal_inv rt w nodes l L0 (mkFilterState l ∅ m L0).
Proof.
  intros Hconv. split_and!; simpl; try done.
  - intros path i Hpath.
    destruct (convert_loop_lookup _ _ _ _ path Hconv) as [Hin Hout].
    destruct (decide (path ∈ l)) as [Hk|Hk].
    + destruct (Hin Hk) as (j & Hj & Hmj). congruence.
    + rewrite (Hout Hk) in Hpath. done.
  - intros P k HP Hk. right. eauto.
  - intros p j Hp Hj. exists p, j. split_and!; try done. constructor.
Qed.

(** What a traversal that completes has selected and loaded. *)
Lemma retrieve_selects rt w self f m filtered self' :
  names_ok (SavedObjectGraph.nodes (_proto self)) →
  _node_filters self = Some f →
  _node_path_to_id self = Some m →
  convert_loop (SavedObjectGraph.nodes (_proto self)) (filter_keys f) ∅ = Ok m →
  _retrieve_all_filtered_nodes rt w self = Ok (filtered, self') →
  ∃ visited : gset nat,
    (∀ i, i ∈ visited ↔
          requested (SavedObjectGraph.nodes (_proto self)) (filter_keys f) i) ∧
    (∀ i, i ∈ visited →
          is_Some (SavedObjectGraph.nodes (_proto self) !! i)) ∧
    filtered = (if decide (0 ∈ visited) then None else Some visited) ∧
    (∀ j, is_Some (_loaded_nodes self' !! j) →
          is_Some (_loaded_nodes self !! j) ∨
          requested (SavedObjectGraph.nodes (_proto self)) (filter_keys f) j) ∧
    _proto self' = _proto self ∧
    _node_filters self' = Some f.
Proof.
  intros Hnames Hf Hm Hconv Hret.
  unfold _retrieve_all_filtered_nodes in Hret. rewrite Hf, Hm in Hret.
  destruct (visit_loop _ _ _ _ _) as [r|] eqn:Hloop; [|done].
  inv_bind Hret. subst r. rename a into st.
  destruct (visit_loop_inv rt w _ Hnames _ _ _ _ _
              (traversal_inv_init rt w _ _ _ (_loaded_nodes self) Hconv) Hloop)
    as [Hinv Hempty].
  destruct Hinv as (_ & Hfilters & Hclosed & Hreq & _).
  assert (Hdone : ∀ k, pending_or_visited (SavedObjectGraph.nodes (_proto self))
                         st k → k ∈ all_filtered_nodes st).
  { intros k [Hk|(p & Hp & _)]; [done|].
    rewrite Hempty in Hp. by apply elem_of_nil in Hp. }
  assert (Hall : ∀ i, i ∈ all_filtered_nodes st ↔
            requested (SavedObjectGraph.nodes (_proto self)) (filter_keys f) i).
  { intros i. split; [by intros Hi; apply Hreq|].
    intros (P & k & HP & Hk & Hreach).
    assert (Hkv : k ∈ all_filtered_nodes st) by (apply Hdone; eauto).
    clear Hk. induction Hreach as [|i proto reference j Hp Hin _ IH]; [done|].
    apply IH. apply Hdone. eauto. }
  exists (all_filtered_nodes st). split_and!.
  - done.
  - intros i Hi. by apply Hreq.
  - by destruct (decide (0 ∈ all_filtered_nodes st)); injection Hret as <- _.
  - intros j Hj.
    assert (Hj' : is_Some (loaded_nodes st !! j)).
    { by destruct (decide (0 ∈ all_filtered_nodes st));
        injection Hret as _ <-. }
    destruct (visit_loop_loaded_dom _ _ _ _ _ _ j Hloop Hj')
      as [?|(i & proto & reference & Hi & Hp & Hin & <-)]; [by left|].
    right. apply Hall in Hi as (P & k & HP & Hk & Hreach).
    exists P, k. split_and!; try done.
    by apply (reaches_child _ k i proto).
  - by destruct (decide (0 ∈ all_filtered_nodes st)); injection Hret as _ <-.
  - by destruct (decide (0 ∈ all_filtered_nodes st)); injection Hret as _ <-.
Qed.

(** The steps of [__init__] for a load with filters. *)
Lemma Loader_init_steps rt graph options f w loader w' log :
  Loader_init rt graph options (Some f) w = Ok (loader, w', log) →
  ∃ w0 m L0 filtered self1 w1,
    convert_loop (SavedObjectGraph.nodes graph) (filter_keys f) ∅ = Ok m ∧
    initial_loaded_nodes f m = Ok L0 ∧
    _retrieve_all_filtered_nodes rt w0
      (mkLoader graph options (Some f) (Some m) L0 None [] ∅)
    = Ok (filtered, self1) ∧
    _load_nodes rt (with_filtered_nodes self1 filtered) w0
    = Ok (loader, w1, log).
Proof.
  intros Hinit. unfold Loader_init in Hinit.
  inv_bind Hinit. rename a into w0.
  inv_bind Hinit. rename a into path_to_id.
  inv_bind Hinit. rename a into loaded.
  inv_bind Hinit. destruct a as [filtered self1].
  inv_bind Hinit. destruct a as [[self3 w1] log1].
  inv_bind Hinit. injection Hinit as <- _ <-.
  simpl in Ha0. inv_bind Ha0. injection Ha0 as <-. rename a0 into m.
  unfold _load_all in Ha3. inv_bind Ha3. destruct a0 as [[self1' w2] log2].
  do 4 inv_bind Ha3. injection Ha3 as <- _ <-.
  exists w0, m, loaded, filtered, self1, w2. by split_and!.
Qed.

Section LoadNodesSkips.

Variable rt : Runtime.

(** The first pass writes only entries of the iteration. *)
Lemma recreate_loop_skips slot_ids iter st st' (j : nat) :
  recreate_loop rt slot_ids iter st = Ok st' →
  (∀ proto, (j, proto) ∉ iter) →
  st_nodes st' !! j = st_nodes st !! j ∧
  st_node_setters st' !! j = st_node_setters st !! j ∧
  ∀ e v, e ∈ st_log st' → constructs e j v → e ∈ st_log st.
Proof.
  revert st. induction iter as [|[node_id proto] iter IH]; intros st Hrun Hj.
  - by injection Hrun as <-.
  - assert (Hj' : ∀ proto, (j, proto) ∉ iter).
    { intros p Hin. apply (Hj p). by right. }
    simpl in Hrun.
    destruct (bool_decide (node_id ∈ slot_ids) || has_node (st_nodes st) node_id);
      [by apply IH|].
    inv_bind Hrun. destruct a as [[node s] w'].
    assert (Hne : node_id ≠ j) by (intros ->; apply (Hj proto); left).
    destruct (IH _ Hrun Hj') as (Hn & Hs & Hlog).
    simpl in *. rewrite lookup_insert_ne in Hn by done.
    rewrite lookup_insert_ne in Hs by done.
    split_and!; try done.
    intros e v He Hc. specialize (Hlog e v He Hc).
    apply elem_of_app in Hlog as [?|Hlog]; [done|].
    apply list_elem_of_singleton in Hlog as ->. by destruct Hc.
Qed.

(** What the three passes do about a node that is not in the iteration,
    is not a slot variable of it, and for which nothing was supplied:
    nothing, except that node 0 gets a new [_UserObject] without a
    setter. *)
Lemma load_nodes_passes_skips self w st iter (j : nat) :
  load_nodes_passes rt self w = Ok st →
  _iter_all_nodes rt self = Ok iter →
  (∀ proto, (j, proto) ∉ iter) →
  j ∉ slot_variable_node_ids iter →
  _loaded_nodes self !! j = None →
  st_node_setters st !! j = None ∧
  if decide (j = 0)
  then ∃ r log0 w0,
         st_nodes st !! 0 = Some (VObj r) ∧
         st_log st = log0 ++ [ev_dummy_root (VObj r)] ∧
         (∀ e v, e ∈ log0 → ¬ constructs e 0 v) ∧
         alloc w0 (λ r, mkPyObject (UserObject_cls r) ∅ ∅ ∅)
         = (r, st_world st)
  else st_nodes st !! j = None ∧ ∀ e v, e ∈ st_log st → ¬ constructs e j v.
Proof.
  intros Hrun Hiter Hnot Hslot Hj.
  unfold load_nodes_passes, _initialize_loaded_nodes in Hrun.
  rewrite Hiter in Hrun. simpl in Hrun.
  inv_bind Hrun. rename a into st1. inv_bind Hrun. rename a into st2.
  injection Hrun as <-.
  destruct (recreate_loop_skips _ _ _ _ j Ha Hnot) as (Hn1 & Hs1 & Hlog1).
  destruct (slot_loop_keeps _ _ _ _ j Ha0 Hslot) as (Hn2 & Hs2 & Hlog2).
  simpl in *. rewrite lookup_fmap, Hj in Hn1. rewrite lookup_fmap, Hj in Hs1.
  simpl in Hn1, Hs1.
  assert (Hno : ∀ e v, e ∈ st_log st2 → ¬ constructs e j v).
  { intros e v He Hc. specialize (Hlog1 e v (Hlog2 e v He Hc) Hc).
    by apply elem_of_nil in Hlog1. }
  unfold add_dummy_root. case_decide as H0.
  - subst j. rewrite Hn2, Hn1.
    unfold _recreate_base_user_object.
    destruct (alloc (st_world st2) _) as [r wr] eqn:Halloc. simpl.
    split; [by rewrite Hs2|].
    exists r, (st_log st2), (st_world st2). split_and!; try done.
    unfold alloc in Halloc. injection Halloc as <- _.
    by rewrite lookup_insert_eq.
  - destruct (st_nodes st2 !! 0) as [root|] eqn:Hroot.
    + rewrite Hn2, Hs2. done.
    + unfold _recreate_base_user_object, alloc. simpl.
      rewrite lookup_insert_ne by done. rewrite Hn2, Hs2.
      split_and!; try done. intros e v He Hc.
      apply elem_of_app in He as [He|He]; [by apply (Hno e v)|].
      apply list_elem_of_singleton in He as ->. by destruct Hc.
Qed.

End LoadNodesSkips.

(** When the iteration leaves out node 0 and nothing was supplied for it,
    [_load_nodes] ends by putting a new empty [_UserObject] in its place:
    this is the last construction of the log and the only one for node 0,
    and the root gets no setter. *)
Theorem dummy_root_created rt self w self' w' log iter :
  _load_nodes rt self w = Ok (self', w', log) →
  _iter_all_nodes rt self = Ok iter →
  (∀ proto, (0, proto) ∉ iter) →
  0 ∉ slot_variable_node_ids iter →
  _loaded_nodes self !! 0 = None →
  0 < length (SavedObjectGraph.nodes (_proto self)) →
  ∃ r log0,
    _nodes self' !! 0 = Some (VObj r) ∧
    log = log0 ++ [ev_dummy_root (VObj r)] ∧
    (∀ e v, e ∈ log0 → ¬ constructs e 0 v) ∧
    heap w' !! r = Some (mkPyObject (UserObject_cls r) ∅ ∅ ∅) ∧
    _node_setters self' !! 0 = None.
Proof.
  intros Hrun Hiter Hnot Hslot H0 Hlen.
  unfold _load_nodes in Hrun. inv_bind Hrun. rename a into st.
  injection Hrun as <- <- <-.
  destruct (load_nodes_passes_skips rt self w st iter 0 Ha Hiter Hnot Hslot H0)
    as (Hs & r & log0 & w0 & Hn & Hlog & Hno & Halloc).
  exists r, log0. simpl. rewrite nodes_list_lookup by done. rewrite Hn.
  split_and!; try done.
  unfold alloc in Halloc. injection Halloc as Hr <-. simpl.
  rewrite Hr. by rewrite lookup_insert_eq.
Qed.

Lemma dummy_root_created_witness :
  ∃ self' w' log iter,
    _load_nodes Scenario.runtime optimizer_only_loader Scenario.small_world
    = Ok (self', w', log) ∧
    _iter_all_nodes Scenario.runtime optimizer_only_loader = Ok iter ∧
    (∀ proto, (0, proto) ∉ iter) ∧
    (0 ∉ slot_variable_node_ids iter) ∧
    ∃ r log0,
      _nodes self' !! 0 = Some (VObj r) ∧
      log = log0 ++ [ev_dummy_root (VObj r)] ∧
      (∀ e v, e ∈ log0 → ¬ constructs e 0 v) ∧
      heap w' !! r = Some (mkPyObject (UserObject_cls r) ∅ ∅ ∅) ∧
      _node_setters self' !! 0 = None.
Proof.
  destruct (_load_nodes Scenario.runtime optimizer_only_loader
              Scenario.small_world)
    as [[[self' w'] log]|e] eqn:Hload; [|by vm_compute in Hload].
  destruct (_iter_all_nodes Scenario.runtime optimizer_only_loader)
    as [iter|e] eqn:Hiter; [|by vm_compute in Hiter].
  assert (Hnot : ∀ proto, (0, proto) ∉ iter).
  { vm_compute in Hiter. injection Hiter as <-. intros proto Hin.
    repeat (apply elem_of_cons in Hin as [Hin|Hin]; [discriminate Hin|]).
    by apply elem_of_nil in Hin. }
  assert (Hslot : 0 ∉ slot_variable_node_ids iter).
  { vm_compute in Hiter. injection Hiter as <-.
    apply (bool_decide_unpack _). vm_compute. exact I. }
  exists self', w', log, iter.
  split; [done|]. split; [done|]. split; [exact Hnot|]. split; [exact Hslot|].
  refine (dummy_root_created Scenario.runtime optimizer_only_loader
            Scenario.small_world self' w' log iter
            Hload Hiter Hnot Hslot eq_refl _).
  vm_compute. lia.
Defined.

Lemma load_nodes_iter rt self w self' w' log :
  _load_nodes rt self w = Ok (self', w', log) →
  ∃ iter st,
    _iter_all_nodes rt self = Ok iter ∧
    load_nodes_passes rt self w = Ok st ∧
    _nodes self' = nodes_list (st_nodes st)
                     (length (SavedObjectGraph.nodes (_proto self))) ∧
    log = st_log st.
Proof.
  intros Hrun. unfold _load_nodes in Hrun. inv_bind Hrun. rename a into st.
  injection Hrun as <- _ <-.
  destruct (_iter_all_nodes rt self) as [iter|e] eqn:Hiter.
  - by exists iter, st.
  - unfold load_nodes_passes in Ha. rewrite Hiter in Ha.
    by destruct (_initialize_loaded_nodes self).
Qed.

(** A load with filters that do not ask for the root, from [__init__] to
    the node table: every requested node (a filter's node or a descendant
    of one) has an object; a node that is not requested, is not a slot
    variable of a requested node and is not node 0 has none; and unless
    node 0 is such a slot variable, it is a new [_UserObject] constructed
    last. *)
Theorem partial_load_builds_requested rt graph options f w loader w' log :
  names_ok (SavedObjectGraph.nodes graph) →
  set_order_ok rt →
  Loader_init rt graph options (Some f) w = Ok (loader, w', log) →
  ¬ requested (SavedObjectGraph.nodes graph) (filter_keys f) 0 →
  (∀ i, requested (SavedObjectGraph.nodes graph) (filter_keys f) i →
     ∃ v, _nodes loader !! i = Some v ∧ v ≠ VNone) ∧
  (∀ i, i < length (SavedObjectGraph.nodes graph) → i ≠ 0 →
     ¬ requested (SavedObjectGraph.nodes graph) (filter_keys f) i →
     ¬ requested_slot (SavedObjectGraph.nodes graph) (filter_keys f) i →
     _nodes loader !! i = Some VNone) ∧
  (0 < length (SavedObjectGraph.nodes graph) →
   ¬ requested_slot (SavedObjectGraph.nodes graph) (filter_keys f) 0 →
   ∃ r log0, _nodes loader !! 0 = Some (VObj r) ∧
             log = log0 ++ [ev_dummy_root (VObj r)]).
Proof.
  intros Hnames Hset Hinit Hroot.
  destruct (Loader_init_steps _ _ _ _ _ _ _ _ Hinit)
    as (w0 & m & L0 & filtered & self1 & w1 & Hconv & HL0 & Hret & Hload).
  destruct (retrieve_selects rt w0
              (mkLoader graph options (Some f) (Some m) L0 None [] ∅)
              f m filtered self1 Hnames eq_refl eq_refl Hconv Hret)
    as (visited & Hall & Hsome & Hfilt & Hdom & Hproto & _).
  simpl in Hall, Hsome, Hdom, Hproto.
  rewrite decide_False in Hfilt by (by rewrite Hall). subst filtered.
  set (self2 := with_filtered_nodes self1 (Some visited)) in *.
  destruct (load_nodes_iter _ _ _ _ _ _ Hload)
    as (iter & st & Hiter & Hpasses & Hnodes & Hlog).
  assert (Hproto2 : SavedObjectGraph.nodes (_proto self2)
                    = SavedObjectGraph.nodes graph) by (simpl; by rewrite Hproto).
  rewrite Hproto2 in Hnodes.
  assert (Hin : ∀ i proto, (i, proto) ∈ iter ↔
            SavedObjectGraph.nodes graph !! i = Some proto ∧ i ∈ visited).
  { intros i proto.
    rewrite (iter_all_nodes_elem rt self2 iter i proto Hset Hiter).
    by rewrite Hproto2. }
  assert (Hslots : ∀ j, j ∈ slot_variable_node_ids iter →
            requested_slot (SavedObjectGraph.nodes graph) (filter_keys f) j).
  { intros j Hj. apply slot_ids_spec in Hj as (o & proto & sp & Ho & Hsp & Hid).
    apply Hin in Ho as [Hp Hv]. exists o, proto, sp. split_and!; try done.
    by apply Hall. }
  assert (Hnone : ∀ j,
            ¬ requested (SavedObjectGraph.nodes graph) (filter_keys f) j →
            _loaded_nodes self2 !! j = None).
  { intros j Hj. simpl.
    destruct (_loaded_nodes self1 !! j) as [x|] eqn:Hx; [|done].
    exfalso. destruct (Hdom j) as [Hl|?]; [by eexists| |done].
    assert (Hm : ∃ path, path ∈ filter_keys f ∧ m !! path = Some j).
    { unfold initial_loaded_nodes in HL0. destruct f as [l|d].
      - injection HL0 as <-. rewrite lookup_empty in Hl. by destruct Hl.
      - destruct (init_loaded_nodes_dom _ _ _ _ j HL0 Hl) as [He|?]; [|done].
        rewrite lookup_empty in He. by destruct He. }
    destruct Hm as (path & Hpath & Hmj). apply Hj.
    destruct (convert_loop_lookup _ _ _ _ path Hconv) as [Hc _].
    destruct (Hc Hpath) as (k & Hk & Hmk).
    exists path, j. split_and!; [done|congruence|constructor]. }
  assert (Hskip : ∀ j,
            ¬ requested (SavedObjectGraph.nodes graph) (filter_keys f) j →
            ∀ proto, (j, proto) ∉ iter).
  { intros j Hj proto Hp. apply Hin in Hp as [_ Hv]. by apply Hj, Hall. }
  split_and!.
  - intros i Hi. apply Hall in Hi. destruct (Hsome i Hi) as [proto Hp].
    eapply (load_nodes_materializes _ _ _ _ _ _ _ i proto Hload Hiter).
    + by apply Hin.
    + rewrite Hproto2. by eapply lookup_lt_Some.
  - intros i Hlen Hne Hreq Hslot.
    destruct (load_nodes_passes_skips rt self2 w0 st iter i Hpasses Hiter)
      as [_ Hres]; [by apply Hskip|by intros ?%Hslots|by apply Hnone|].
    rewrite decide_False in Hres by done. destruct Hres as [Hn _].
    rewrite Hnodes, nodes_list_lookup by done. by rewrite Hn.
  - intros Hlen Hslot.
    destruct (load_nodes_passes_skips rt self2 w0 st iter 0 Hpasses Hiter)
      as [_ Hres]; [by apply Hskip|by intros ?%Hslots|by apply Hnone|].
    rewrite decide_True in Hres by done.
    destruct Hres as (r & log0 & _ & Hn & Hl & _).
    exists r, log0. rewrite Hnodes, nodes_list_lookup by done.
    rewrite Hn. split; [done|]. by rewrite Hlog.
Qed.

(** Asking for the variable of the optimizer graph: the variable is
    built, the optimizer and its slot variable are not, and the root is a
    new object. *)
Lemma partial_load_builds_requested_witness :
  names_ok Scenario.optimizer_nodes ∧
  set_order_ok Scenario.runtime ∧
  (¬ requested Scenario.optimizer_nodes ["root.v"] 0) ∧
  requested Scenario.optimizer_nodes ["root.v"] 2 ∧
  ∃ loader w' log,
    Loader_init Scenario.runtime
      (SavedObjectGraph.mk Scenario.optimizer_nodes [])
      Scenario.skip_checkpoint (Some variable_only_filters)
      Scenario.empty_world = Ok (loader, w', log) ∧
    (∃ v, _nodes loader !! 2 = Some v ∧ v ≠ VNone) ∧
    (∀ i, i < 4 → i ≠ 0 →
       ¬ requested Scenario.optimizer_nodes ["root.v"] i →
       ¬ requested_slot Scenario.optimizer_nodes ["root.v"] i →
       _nodes loader !! i = Some VNone) ∧
    (0 < 4 → ¬ requested_slot Scenario.optimizer_nodes ["root.v"] 0 →
     ∃ r log0, _nodes loader !! 0 = Some (VObj r) ∧
               log = log0 ++ [ev_dummy_root (VObj r)]).
Proof.
  assert (Hnames : names_ok Scenario.optimizer_nodes).
  { apply names_ok_check_correct. vm_compute. reflexivity. }
  assert (Hset : set_order_ok Scenario.runtime) by (intros s; reflexivity).
  assert (Hreq : ∀ i, requested Scenario.optimizer_nodes ["root.v"] i → i = 2).
  { intros i (P & k & HP & Hk & Hreach).
    apply list_elem_of_singleton in HP as ->.
    vm_compute in Hk. injection Hk as <-.
    inversion Hreach as [|? proto reference ? Hp Hin _]; [done|]; subst.
    injection Hp as <-. by apply elem_of_nil in Hin. }
  assert (Hroot : ¬ requested Scenario.optimizer_nodes ["root.v"] 0).
  { intros H. by apply Hreq in H. }
  assert (Htwo : requested Scenario.optimizer_nodes ["root.v"] 2).
  { exists "root.v", 2. split_and!; [left|reflexivity|constructor]. }
  destruct (Loader_init Scenario.runtime
              (SavedObjectGraph.mk Scenario.optimizer_nodes [])
              Scenario.skip_checkpoint (Some variable_only_filters)
              Scenario.empty_world)
    as [[[loader w'] log]|e] eqn:Hinit; [|by vm_compute in Hinit].
  split; [exact Hnames|]. split; [exact Hset|]. split; [exact Hroot|].
  split; [exact Htwo|]. exists loader, w', log. split; [done|].
  destruct (partial_load_builds_requested Scenario.runtime
              (SavedObjectGraph.mk Scenario.optimizer_nodes [])
              Scenario.skip_checkpoint variable_only_filters
              Scenario.empty_world loader w' log Hnames Hset Hinit Hroot)
    as (H1 & H2 & H3).
  split; [exact (H1 2 Htwo)|]. split; [exact H2|exact H3].
Defined.

(** ** The entry points *)

(** Runs [t] and names the result [r], keeping [H : t = r]. *)
Ltac evaluate t r H :=
  pose (r := t); assert (H : t = r) by reflexivity; vm_compute in (value of r).

Lemma getattr_setattr obj name x w w' :
  py_setattr obj name x w = Ok w' → getattr w' obj name = Ok x.
Proof.
  unfold py_setattr, getattr. destruct obj as [| |r]; try done.
  destruct (heap w !! r) as [o|]; [|done]. intros [= <-]. simpl.
  rewrite lookup_insert_eq. simpl. by rewrite lookup_insert_eq.
Qed.

Lemma getattr_setattr_ne obj name x w w' v name' :
  py_setattr obj name x w = Ok w' → v ≠ obj ∨ name' ≠ name →
  getattr w' v name' = getattr w v name'.
Proof.
  unfold py_setattr, getattr. destruct obj as [| |r]; try done.
  destruct (heap w !! r) as [o|] eqn:Ho; [|done]. intros [= <-] Hne. simpl.
  destruct v as [| |r']; try done.
  destruct (decide (r' = r)) as [->|Hr].
  - rewrite lookup_insert_eq, Ho. simpl.
    destruct Hne as [?|Hn]; [done|]. by rewrite lookup_insert_ne.
  - by rewrite lookup_insert_ne.
Qed.

(** The steps of [load_internal] for a SavedModel with an object graph. *)
Lemma load_object_graph_steps rt meta_graph_def graph tags options filters w
    m w' :
  load_object_graph rt meta_graph_def graph tags options filters w
  = Ok (m, w') →
  ∃ loader w1 log root debug_info w2 w3,
    Loader_init rt graph options filters w = Ok (loader, w1, log) ∧
    get_id loader 0 = Ok root ∧
    rt_adjust_debug_info rt w1 = Ok debug_info ∧
    py_setattr root "graph_debug_info" debug_info w1 = Ok w2 ∧
    py_setattr root "tensorflow_version"
      (VStr (tensorflow_version meta_graph_def)) w2 = Ok w3 ∧
    py_setattr root "tensorflow_git_version"
      (VStr (tensorflow_git_version meta_graph_def)) w3 = Ok w' ∧
    match filters with
    | Some f =>
        if truthy filters then collect_filtered loader (filter_keys f) ∅ = Ok m
        else m = {["root" := root]}
    | None => m = {["root" := root]}
    end.
Proof.
  unfold load_object_graph. intros Hload.
  destruct (match tags with Some _ => _ | None => _ end); [done|].
  destruct (Loader_init rt graph options filters w)
    as [[[loader w1] log]|e] eqn:Hinit; [|by destruct e].
  inv_bind Hload. rename a into root. inv_bind Hload. rename a into debug_info.
  inv_bind Hload. rename a into w2. inv_bind Hload. rename a into w3.
  inv_bind Hload. rename a into w4.
  exists loader, w1, log, root, debug_info, w2, w3.
  destruct filters as [f|].
  - destruct (truthy (Some f)) eqn:Htruthy.
    + inv_bind Hload. injection Hload as <- <-. by split_and!.
    + injection Hload as <- <-. by split_and!.
  - injection Hload as <- <-. by split_and!.
Qed.

(** A load that completes on a SavedModel with an object graph has
    stamped node 0 of the loader with the versions recorded in the
    SavedModel and with the adjusted debug info; without filters that
    node is what the result holds under ["root"]. *)
Theorem root_carries_versions rt saved_model_proto meta_graph_def graph tags
    options filters w m w' :
  meta_graphs saved_model_proto = [meta_graph_def] →
  object_graph_def meta_graph_def = Some graph →
  load_internal rt saved_model_proto tags options filters w = Ok (m, w') →
  ∃ loader w1 log root debug_info,
    Loader_init rt graph options filters w = Ok (loader, w1, log) ∧
    _nodes loader !! 0 = Some root ∧
    rt_adjust_debug_info rt w1 = Ok debug_info ∧
    getattr w' root "graph_debug_info" = Ok debug_info ∧
    getattr w' root "tensorflow_version"
    = Ok (VStr (tensorflow_version meta_graph_def)) ∧
    getattr w' root "tensorflow_git_version"
    = Ok (VStr (tensorflow_git_version meta_graph_def)) ∧
    (filters = None → m = {["root" := root]}).
Proof.
  intros Hmeta Hgraph Hload. unfold load_internal in Hload.
  rewrite Hmeta, Hgraph in Hload.
  destruct (load_object_graph_steps _ _ _ _ _ _ _ _ _ Hload)
    as (loader & w1 & log & root & debug_info & w2 & w3 & Hinit & Hroot
        & Hadj & H2 & H3 & H4 & Hm).
  exists loader, w1, log, root, debug_info. split_and!; try done.
  - unfold get_id in Hroot.
    destruct (_nodes loader !! 0); [by injection Hroot as ->|done].
  - rewrite (getattr_setattr_ne _ _ _ _ _ root "graph_debug_info" H4)
      by (by right).
    rewrite (getattr_setattr_ne _ _ _ _ _ root "graph_debug_info" H3)
      by (by right).
    by eapply getattr_setattr.
  - rewrite (getattr_setattr_ne _ _ _ _ _ root "tensorflow_version" H4)
      by (by right).
    by eapply getattr_setattr.
  - by eapply getattr_setattr.
  - intros ->. done.
Qed.

Lemma root_carries_versions_witness :
  meta_graphs Scenario.saved_model
  = [mkMetaGraphDef (Some Scenario.graph) ["serve"] "2.6.0" ""] ∧
  ∃ m w',
    load_internal Scenario.runtime Scenario.saved_model None
      Scenario.skip_checkpoint None Scenario.empty_world = Ok (m, w') ∧
    ∃ loader w1 log root debug_info,
      Loader_init Scenario.runtime Scenario.graph Scenario.skip_checkpoint None
        Scenario.empty_world = Ok (loader, w1, log) ∧
      _nodes loader !! 0 = Some root ∧
      rt_adjust_debug_info Scenario.runtime w1 = Ok debug_info ∧
      getattr w' root "graph_debug_info" = Ok debug_info ∧
      getattr w' root "tensorflow_version" = Ok (VStr "2.6.0") ∧
      getattr w' root "tensorflow_git_version" = Ok (VStr "") ∧
      ((None : option node_filters) = None → m = {["root" := root]}).
Proof.
  split; [reflexivity|].
  evaluate (load_internal Scenario.runtime Scenario.saved_model None
              Scenario.skip_checkpoint None Scenario.empty_world) r Hload.
  destruct r as [[m w']|e] eqn:Hr; [clear Hr|discriminate Hr].
  exists m, w'. split; [exact Hload|].
  exact (root_carries_versions Scenario.runtime Scenario.saved_model
           (mkMetaGraphDef (Some Scenario.graph) ["serve"] "2.6.0" "")
           Scenario.graph None Scenario.skip_checkpoint None
           Scenario.empty_world m w' eq_refl eq_refl Hload).
Defined.

(** With filters that are not empty, the dictionary a load returns has
    the filters as its keys and nothing else. *)
Theorem load_partial_returns_filters rt saved_model_proto meta_graph_def graph
    f tags options w m w' :
  meta_graphs saved_model_proto = [meta_graph_def] →
  object_graph_def meta_graph_def = Some graph →
  filter_keys f ≠ [] →
  load_partial rt saved_model_proto (Some f) tags options w = Ok (m, w') →
  ∀ path, is_Some (m !! path) ↔ path ∈ filter_keys f.
Proof.
  intros Hmeta Hgraph Hne Hload path.
  unfold load_partial, load_internal in Hload. rewrite Hmeta, Hgraph in Hload.
  destruct (load_object_graph_steps _ _ _ _ _ _ _ _ _ Hload)
    as (loader & w1 & log & root & debug_info & w2 & w3 & _ & _ & _ & _ & _
        & _ & Hm).
  assert (Htruthy : truthy (Some f) = true) by by apply bool_decide_eq_true.
  rewrite Htruthy in Hm.
  destruct (collect_filtered_lookup _ _ _ _ Hm path) as [Hin Hout]. split.
  - intros Hsome. destruct (decide (path ∈ filter_keys f)) as [|Hn]; [done|].
    rewrite (Hout Hn), lookup_empty in Hsome. by destruct Hsome.
  - intros Hp. destruct (Hin Hp) as (v & _ & Hv). by eexists.
Qed.

Lemma load_partial_returns_filters_witness :
  filter_keys Scenario.scenario_filters ≠ [] ∧
  ∃ m w',
    load_partial Scenario.runtime Scenario.saved_model
      (Some Scenario.scenario_filters) None Scenario.skip_checkpoint
      Scenario.empty_world = Ok (m, w') ∧
    ∀ path, is_Some (m !! path) ↔
            path ∈ ["root.child_layer"; "root.child_layer.v"].
Proof.
  split; [discriminate|].
  evaluate (load_partial Scenario.runtime Scenario.saved_model
              (Some Scenario.scenario_filters) None Scenario.skip_checkpoint
              Scenario.empty_world) r Hload.
  destruct r as [[m w']|e] eqn:Hr; [clear Hr|discriminate Hr].
  exists m, w'. split; [exact Hload|].
  refine (load_partial_returns_filters Scenario.runtime Scenario.saved_model
            (mkMetaGraphDef (Some Scenario.graph) ["serve"] "2.6.0" "")
            Scenario.graph Scenario.scenario_filters None
            Scenario.skip_checkpoint Scenario.empty_world m w'
            eq_refl eq_refl _ Hload).
  discriminate.
Defined.

(** The tags are compared as sets: tags that differ from the
    SavedModel's as a set fail the load before anything is loaded, and
    tags that are the same set, in any order and with repetitions, load
    what omitting the tags loads. *)
Theorem tags_compared_as_sets rt saved_model_proto meta_graph_def graph t
    options filters w :
  meta_graphs saved_model_proto = [meta_graph_def] →
  object_graph_def meta_graph_def = Some graph →
  ((∀ x, x ∈ t ↔ x ∈ meta_info_def_tags meta_graph_def) →
   load_internal rt saved_model_proto (Some t) options filters w
   = load_internal rt saved_model_proto None options filters w) ∧
  (¬ (∀ x, x ∈ t ↔ x ∈ meta_info_def_tags meta_graph_def) →
   load_internal rt saved_model_proto (Some t) options filters w
   = Err TagMismatchError).
Proof.
  intros Hmeta Hgraph. unfold load_internal. rewrite Hmeta, Hgraph.
  unfold load_object_graph.
  assert (Hset : (list_to_set t : gset string)
                 = list_to_set (meta_info_def_tags meta_graph_def)
                 ↔ ∀ x, x ∈ t ↔ x ∈ meta_info_def_tags meta_graph_def).
  { split.
    - intros Heq x. rewrite <- !(elem_of_list_to_set (C := gset string)).
      by rewrite Heq.
    - intros Hall. apply set_eq. intros x.
      rewrite !elem_of_list_to_set. apply Hall. }
  split; intros Hall.
  - rewrite bool_decide_eq_false_2; [done|]. intros Hne. by apply Hne, Hset.
  - rewrite bool_decide_eq_true_2; [done|]. intros Heq. by apply Hall, Hset.
Qed.

Lemma tags_compared_as_sets_witness :
  (∀ x, x ∈ repeated_tags ↔ x ∈ ["serve"]) ∧
  (¬ (∀ x, x ∈ other_tags ↔ x ∈ ["serve"])) ∧
  load_internal Scenario.runtime Scenario.saved_model (Some repeated_tags)
    Scenario.skip_checkpoint None Scenario.empty_world
  = load_internal Scenario.runtime Scenario.saved_model None
      Scenario.skip_checkpoint None Scenario.empty_world ∧
  load_internal Scenario.runtime Scenario.saved_model (Some other_tags)
    Scenario.skip_checkpoint None Scenario.empty_world
  = Err TagMismatchError.
Proof.
  assert (Hsame : ∀ x, x ∈ repeated_tags ↔ x ∈ ["serve"]).
  { intros x. unfold repeated_tags. rewrite !elem_of_cons. tauto. }
  assert (Hother : ¬ (∀ x, x ∈ other_tags ↔ x ∈ ["serve"])).
  { intros H. assert (Hin : "train" ∈ ["serve"]) by (apply H; left).
    apply list_elem_of_singleton in Hin. discriminate. }
  split; [exact Hsame|]. split; [exact Hother|].
  split.
  - exact (proj1 (tags_compared_as_sets Scenario.runtime Scenario.saved_model
                    (mkMetaGraphDef (Some Scenario.graph) ["serve"] "2.6.0" "")
                    Scenario.graph repeated_tags Scenario.skip_checkpoint None
                    Scenario.empty_world eq_refl eq_refl) Hsame).
  - exact (proj2 (tags_compared_as_sets Scenario.runtime Scenario.saved_model
                    (mkMetaGraphDef (Some Scenario.graph) ["serve"] "2.6.0" "")
                    Scenario.graph other_tags Scenario.skip_checkpoint None
                    Scenario.empty_world eq_refl eq_refl) Hother).
Defined.

(** [load] is [load_internal] without filters followed by the lookup of
    ["root"], and that lookup cannot fail: without filters the dictionary
    of [load_internal] is [{"root": root}], for SavedModels with an object
    graph and for the others. *)
Theorem load_is_root_of_load_internal rt saved_model_proto tags options w :
  match load_internal rt saved_model_proto tags options None w with
  | Ok (m, w1) =>
      ∃ root, m = {["root" := root]} ∧
        load rt saved_model_proto tags options w = Ok (root, w1)
  | Err e => load rt saved_model_proto tags options w = Err e
  end.
Proof.
  unfold load.
  destruct (load_internal rt saved_model_proto tags options None w)
    as [[m w1]|e] eqn:Hload; [|done].
  assert (Hroot : ∃ root, m = {["root" := root]}).
  { unfold load_internal in Hload.
    assert (Hv1 : load_v1 rt None w = Ok (m, w1) → ∃ root, m = {["root" := root]}).
    { unfold load_v1. simpl. intros H. inv_bind H. destruct a as [root w2].
      inv_bind H. injection H as <- _. by eexists. }
    destruct (meta_graphs saved_model_proto) as [|mg [|]]; [auto| |auto].
    destruct (object_graph_def mg) as [graph|]; [|auto].
    destruct (load_object_graph_steps _ _ _ _ _ _ _ _ _ Hload)
      as (loader & w2 & log & root & debug_info & w3 & w4 & _ & _ & _ & _ & _
          & _ & Hm).
    by exists root. }
  destruct Hroot as [root ->]. exists root. split; [done|].
  simpl. by rewrite lookup_singleton_eq.
Qed.

(** ** Edge cases of the filters *)

(** Filters that are given but empty load nothing: [__init__] constructs
    one object, the empty [_UserObject] put in place of the root, and
    every other entry of the node table is [None]. *)
Theorem empty_filters_load_nothing rt graph options f w loader w' log :
  set_order_ok rt →
  filter_keys f = [] →
  0 < length (SavedObjectGraph.nodes graph) →
  Loader_init rt graph options (Some f) w = Ok (loader, w', log) →
  ∃ r, log = [ev_dummy_root (VObj r)] ∧
    _nodes loader !! 0 = Some (VObj r) ∧
    ∀ i, 0 < i < length (SavedObjectGraph.nodes graph) →
      _nodes loader !! i = Some VNone.
Proof.
  intros Hset Hf Hlen Hinit.
  destruct (Loader_init_steps _ _ _ _ _ _ _ _ Hinit)
    as (w0 & m & L0 & filtered & self1 & w1 & Hconv & HL0 & Hret & Hload).
  rewrite Hf in Hconv. injection Hconv as <-.
  assert (L0 = ∅) as ->.
  { unfold initial_loaded_nodes in HL0. destruct f as [l|d].
    - by injection HL0 as <-.
    - destruct d; [by injection HL0 as <-|done]. }
  unfold _retrieve_all_filtered_nodes in Hret. simpl in Hret.
  rewrite Hf in Hret. simpl in Hret.
  rewrite decide_False in Hret by apply not_elem_of_empty.
  injection Hret as <- <-.
  assert (Hiter : rt_iter_set rt ∅ = []).
  { apply Permutation_nil_r. rewrite (Hset ∅). by rewrite elements_empty. }
  unfold _load_nodes, load_nodes_passes, _iter_all_nodes in Hload.
  simpl in Hload. rewrite Hiter in Hload. simpl in Hload.
  rewrite fmap_empty in Hload. unfold add_dummy_root in Hload. simpl in Hload.
  rewrite lookup_empty in Hload.
  unfold _recreate_base_user_object, alloc in Hload. simpl in Hload.
  injection Hload as <- _ <-. eexists. split; [done|]. simpl.
  split.
  - rewrite nodes_list_lookup by done. by rewrite lookup_insert_eq.
  - intros i [Hi Hn]. rewrite nodes_list_lookup by done.
    rewrite lookup_insert_ne by lia. by rewrite lookup_empty.
Qed.

Lemma empty_filters_load_nothing_witness :
  set_order_ok Scenario.runtime ∧
  ∃ loader w' log,
    Loader_init Scenario.runtime Scenario.graph Scenario.skip_checkpoint
      (Some (filters_list [])) Scenario.empty_world = Ok (loader, w', log) ∧
    ∃ r, log = [ev_dummy_root (VObj r)] ∧
      _nodes loader !! 0 = Some (VObj r) ∧
      ∀ i, 0 < i < 3 → _nodes loader !! i = Some VNone.
Proof.
  assert (Hset : set_order_ok Scenario.runtime) by (intros s; reflexivity).
  split; [exact Hset|].
  evaluate (Loader_init Scenario.runtime Scenario.graph Scenario.skip_checkpoint
              (Some (filters_list [])) Scenario.empty_world) r Hinit.
  destruct r as [[[loader w'] log]|e] eqn:Hr; [clear Hr|discriminate Hr].
  exists loader, w', log. split; [exact Hinit|].
  refine (empty_filters_load_nothing Scenario.runtime Scenario.graph
            Scenario.skip_checkpoint (filters_list []) Scenario.empty_world
            loader w' log Hset eq_refl _ Hinit).
  vm_compute. lia.
Defined.

(** After [__init__] every requested node has an object. *)
Lemma Loader_init_requested rt graph options f w loader w' log i :
  names_ok (SavedObjectGraph.nodes graph) →
  set_order_ok rt →
  Loader_init rt graph options (Some f) w = Ok (loader, w', log) →
  requested (SavedObjectGraph.nodes graph) (filter_keys f) i →
  ∃ v, _nodes loader !! i = Some v ∧ v ≠ VNone.
Proof.
  intros Hnames Hset Hinit Hi.
  destruct (Loader_init_steps _ _ _ _ _ _ _ _ Hinit)
    as (w0 & m & L0 & filtered & self1 & w1 & Hconv & HL0 & Hret & Hload).
  destruct (retrieve_selects rt w0
              (mkLoader graph options (Some f) (Some m) L0 None [] ∅)
              f m filtered self1 Hnames eq_refl eq_refl Hconv Hret)
    as (visited & Hall & Hsome & Hfilt & _ & Hproto & _).
  simpl in Hall, Hsome, Hproto.
  set (self2 := with_filtered_nodes self1 filtered) in *.
  destruct (load_nodes_iter _ _ _ _ _ _ Hload)
    as (iter & st & Hiter & _ & _ & _).
  assert (Hproto2 : SavedObjectGraph.nodes (_proto self2)
                    = SavedObjectGraph.nodes graph) by (simpl; by rewrite Hproto).
  apply Hall in Hi. destruct (Hsome i Hi) as [proto Hp].
  eapply (load_nodes_materializes _ _ _ _ _ _ _ i proto Hload Hiter).
  - apply (iter_all_nodes_elem rt self2 iter i proto Hset Hiter).
    rewrite Hproto2. split; [done|]. simpl. rewrite Hfilt.
    by destruct (decide (0 ∈ visited)).
  - rewrite Hproto2. by eapply lookup_lt_Some.
Qed.

(** What a load with filters returns for a filter is never [None]: it is
    the object the loader has for the filter's node. *)
Theorem load_partial_values_loaded rt saved_model_proto meta_graph_def graph
    f tags options w m w' path v :
  meta_graphs saved_model_proto = [meta_graph_def] →
  object_graph_def meta_graph_def = Some graph →
  names_ok (SavedObjectGraph.nodes graph) →
  set_order_ok rt →
  load_partial rt saved_model_proto (Some f) tags options w = Ok (m, w') →
  path ∈ filter_keys f →
  m !! path = Some v →
  v ≠ VNone.
Proof.
  intros Hmeta Hgraph Hnames Hset Hload Hpath Hv.
  unfold load_partial, load_internal in Hload. rewrite Hmeta, Hgraph in Hload.
  destruct (load_object_graph_steps _ _ _ _ _ _ _ _ _ Hload)
    as (loader & w1 & log & root & debug_info & w2 & w3 & Hinit & _ & _ & _
        & _ & _ & Hm).
  assert (Htruthy : truthy (Some f) = true).
  { apply bool_decide_eq_true. intros Hnil. rewrite Hnil in Hpath.
    by apply elem_of_nil in Hpath. }
  rewrite Htruthy in Hm.
  destruct (collect_filtered_lookup _ _ _ _ Hm path) as [Hin _].
  destruct (Hin Hpath) as (v' & Hget & Hv'). assert (v' = v) as -> by congruence.
  destruct (Loader_init_index _ _ _ _ _ _ _ _ Hnames Hinit) as (idx & Hidx & Hall).
  destruct (Hall path Hpath) as (i & Hres & Hi).
  destruct (Loader_init_requested _ _ _ _ _ _ _ _ i Hnames Hset Hinit)
    as (x & Hx & Hne).
  { exists path, i. split_and!; [done|done|constructor]. }
  unfold get_path, get_id in Hget. rewrite Hidx, Hi, Hx in Hget.
  by injection Hget as <-.
Qed.

Lemma load_partial_values_loaded_witness :
  names_ok Scenario.nodes ∧
  set_order_ok Scenario.runtime ∧
  ∃ m w' v,
    load_partial Scenario.runtime Scenario.saved_model
      (Some Scenario.scenario_filters) None Scenario.skip_checkpoint
      Scenario.empty_world = Ok (m, w') ∧
    m !! "root.child_layer.v" = Some v ∧
    v ≠ VNone.
Proof.
  assert (Hnames : names_ok Scenario.nodes).
  { apply names_ok_check_correct. vm_compute. reflexivity. }
  assert (Hset : set_order_ok Scenario.runtime) by (intros s; reflexivity).
  split; [exact Hnames|]. split; [exact Hset|].
  evaluate (load_partial Scenario.runtime Scenario.saved_model
              (Some Scenario.scenario_filters) None Scenario.skip_checkpoint
              Scenario.empty_world) r Hload.
  destruct r as [[m w']|e] eqn:Hr; [|discriminate Hr].
  destruct (m !! "root.child_layer.v") as [v|] eqn:Hv.
  - clear Hr. exists m, w', v. split; [exact Hload|]. split; [exact Hv|].
    refine (load_partial_values_loaded Scenario.runtime Scenario.saved_model
              (mkMetaGraphDef (Some Scenario.graph) ["serve"] "2.6.0" "")
              Scenario.graph Scenario.scenario_filters None
              Scenario.skip_checkpoint Scenario.empty_world m w'
              "root.child_layer.v" v eq_refl eq_refl Hnames Hset Hload _ Hv).
    right. left.
  - exfalso. injection Hr as <- _. vm_compute in Hv. discriminate Hv.
Defined.

(** ** The traversal: when it succeeds and what it adds *)

Section TraversalProgress.

Variable rt : Runtime.
Variable w : World.
Variable nodes : list SavedObject.t.
Hypothesis Hvalid : valid_targets nodes.

Lemma visit_children_none node_path children st :
  loaded_nodes (visit_children rt w VNone node_path children st)
  = loaded_nodes st.
Proof.
  revert st. induction children as [|r rest IH]; intros st; [done|].
  simpl. rewrite IH. simpl. by rewrite andb_false_r.
Qed.

Lemma visit_children_index node node_path children st path i :
  (∀ reference, reference ∈ children →
     ObjectReference.node_id reference < length nodes) →
  (∀ p k, node_path_to_id st !! p = Some k → k < length nodes) →
  node_path_to_id (visit_children rt w node node_path children st) !! path
  = Some i →
  i < length nodes.
Proof.
  revert st. induction children as [|r rest IH]; intros st Hch Hst Hi;
    [by eapply Hst|].
  simpl in Hi. refine (IH _ _ _ Hi).
  - intros reference Hin. apply Hch. by right.
  - simpl. intros p k Hp. destruct (decide (PyStr.format2 node_path
                                      (ObjectReference.local_name r) = p))
      as [<-|Hne].
    + rewrite lookup_insert_eq in Hp. injection Hp as <-. apply Hch. left.
    + rewrite lookup_insert_ne in Hp by done. by eapply Hst.
Qed.

Lemma visit_children_index_keeps node node_path children st path :
  is_Some (node_path_to_id st !! path) →
  is_Some (node_path_to_id (visit_children rt w node node_path children st)
             !! path).
Proof.
  revert st. induction children as [|r rest IH]; intros st Hp; [done|].
  simpl. apply IH. simpl. rewrite lookup_insert_is_Some.
  destruct (decide (PyStr.format2 node_path (ObjectReference.local_name r)
                    = path)); auto.
Qed.

Lemma visit_children_index_new node node_path children st reference :
  reference ∈ children →
  is_Some (node_path_to_id (visit_children rt w node node_path children st)
             !! PyStr.format2 node_path (ObjectReference.local_name reference)).
Proof.
  revert st. induction children as [|r rest IH]; intros st Hin.
  - by apply elem_of_nil in Hin.
  - simpl. apply elem_of_cons in Hin as [->|Hin]; [|by apply IH].
    apply visit_children_index_keeps. simpl. rewrite lookup_insert_eq.
    by eexists.
Qed.

(** With nothing supplied, the traversal cannot fail: every path of the
    queue is in the index, and every id of the index is a node. *)
Lemma visit_loop_no_error fuel st r :
  (∀ p, p ∈ nodes_to_visit st → is_Some (node_path_to_id st !! p)) →
  (∀ p k, node_path_to_id st !! p = Some k → k < length nodes) →
  loaded_nodes st = ∅ →
  visit_loop rt w nodes fuel st = Some r →
  ∃ st', r = Ok st' ∧ loaded_nodes st' = ∅.
Proof.
  revert st. induction fuel as [|fuel IH]; intros st Hq Hidx Hl Hrun; [done|].
  simpl in Hrun.
  destruct (nodes_to_visit st) as [|node_path queue] eqn:Hqueue.
  { injection Hrun as <-. by exists st. }
  destruct (Hq node_path) as [node_id Hid]; [left|]. rewrite Hid in Hrun.
  case_decide as Hvisited.
  - apply IH in Hrun; try done. intros p Hp. apply Hq. by right.
  - unfold loaded_object in Hrun. rewrite Hl, lookup_empty in Hrun.
    rewrite bool_decide_eq_false_2 in Hrun by (by intros ?). simpl in Hrun.
    destruct (lookup_lt_is_Some_2 nodes node_id (Hidx _ _ Hid)) as [proto Hp].
    rewrite Hp in Hrun. apply IH in Hrun; try done.
    + intros p Hin. rewrite visit_children_queue in Hin. simpl in Hin.
      apply elem_of_app in Hin as [Hin|Hin].
      * apply visit_children_index_keeps. simpl. apply Hq. by right.
      * apply list_elem_of_fmap in Hin as (reference & -> & Hin).
        by apply visit_children_index_new.
    + intros p k Hk.
      refine (visit_children_index VNone node_path (SavedObject.children proto)
                (mkFilterState queue ({[node_id]} ∪ all_filtered_nodes st)
                   (node_path_to_id st) ∅) p k _ Hidx Hk).
      intros reference Hin. by eapply (proj2 Hvalid).
    + by rewrite visit_children_none.
Qed.

End TraversalProgress.

(** With a list of filters that [_convert_node_paths_to_ints] has
    resolved, the traversal of a graph whose edges all point at nodes
    ends and succeeds, whatever the shape of the graph (shared children,
    cycles), and leaves [_loaded_nodes] empty. *)
Theorem traversal_succeeds rt w self l m :
  valid_targets (SavedObjectGraph.nodes (_proto self)) →
  _node_filters self = Some (filters_list l) →
  _node_path_to_id self = Some m →
  convert_loop (SavedObjectGraph.nodes (_proto self)) l ∅ = Ok m →
  _loaded_nodes self = ∅ →
  ∃ filtered self',
    _retrieve_all_filtered_nodes rt w self = Ok (filtered, self') ∧
    _loaded_nodes self' = ∅.
Proof.
  intros Hvalid Hf Hm Hconv Hl.
  unfold _retrieve_all_filtered_nodes. rewrite Hf, Hm.
  destruct (visit_fuel_enough rt w (SavedObjectGraph.nodes (_proto self))
              (filters_list l) m (_loaded_nodes self)) as [r Hr].
  rewrite Hr.
  assert (Hok : ∃ st, r = Ok st ∧ loaded_nodes st = ∅);
    [refine (visit_loop_no_error rt w _ Hvalid _ _ r _ _ _ Hr); simpl|].
  - intros p Hp.
    destruct (convert_loop_lookup _ _ _ _ p Hconv) as [Hin _].
    destruct (Hin Hp) as (i & _ & Hi). by eexists.
  - intros p k Hk.
    destruct (convert_loop_lookup _ _ _ _ p Hconv) as [Hin Hout].
    destruct (decide (p ∈ l)) as [Hp|Hp].
    + destruct (Hin Hp) as (i & Hres & Hi). assert (i = k) as -> by congruence.
      apply resolve_split in Hres as (names & _ & Hw).
      eapply walks_in_range; eauto. apply Hvalid.
    + rewrite (Hout Hp) in Hk. done.
  - done.
  - destruct Hok as (st & -> & Hst). simpl.
    destruct (decide (0 ∈ all_filtered_nodes st)); by eexists _, _.
Qed.

(** The traversal of a graph with a cycle. *)
Lemma traversal_succeeds_witness :
  valid_targets cyclic_nodes ∧
  reaches cyclic_nodes 1 0 ∧ reaches cyclic_nodes 0 1 ∧
  ∃ filtered self',
    _retrieve_all_filtered_nodes Scenario.runtime Scenario.empty_world
      cyclic_loader = Ok (filtered, self') ∧
    _loaded_nodes self' = ∅.
Proof.
  assert (Hvalid : valid_targets cyclic_nodes).
  { apply valid_targets_check_correct. vm_compute. reflexivity. }
  split; [exact Hvalid|]. split; [|split].
  - apply (reaches_step cyclic_nodes 1 _ (Scenario.edge "back" 0) 0 eq_refl);
      [left|constructor].
  - apply (reaches_step cyclic_nodes 0 _ (Scenario.edge "a" 1) 1 eq_refl);
      [left|constructor].
  - exact (traversal_succeeds Scenario.runtime Scenario.empty_world
             cyclic_loader ["root.a"] {["root.a" := 1]} Hvalid
             eq_refl eq_refl eq_refl eq_refl).
Defined.

Section TraversalAdds.

Variable rt : Runtime.
Variable w : World.
Variable nodes : list SavedObject.t.

(** What the loop over the children adds to [_loaded_nodes]. *)
Lemma visit_children_adds node node_path children st (j : nat) x s :
  loaded_nodes (visit_children rt w node node_path children st) !! j
  = Some (x, s) →
  loaded_nodes st !! j = Some (x, s) ∨
  (s = noop_setter ∧ node ≠ VNone ∧
   isinstance rt w x TrackableDataStructure = true ∧
   ∃ reference, reference ∈ children ∧
     ObjectReference.node_id reference = j ∧
     x = _lookup_dependency w node (ObjectReference.local_name reference)).
Proof.
  revert st. induction children as [|r rest IH]; intros st Hj; [by left|].
  simpl in Hj. apply IH in Hj as [Hj|(-> & Hn & Hx & reference & Hin & ? & ?)].
  - simpl in Hj.
    destruct (_ && _) eqn:Hcond; [|by left].
    destruct (isinstance rt w (_lookup_dependency _ _ _) TrackableDataStructure)
      eqn:Hds; [|by left].
    destruct (decide (ObjectReference.node_id r = j)) as [Heq|Hne].
    + rewrite Heq, lookup_insert_eq in Hj. injection Hj as <- <-.
      apply andb_prop in Hcond as [_ Hnode].
      apply bool_decide_eq_true in Hnode.
      right. split_and!; try done. exists r. split_and!; [left|done|done].
    + rewrite lookup_insert_ne in Hj by done. by left.
  - right. split_and!; try done. exists reference. split_and!; try done.
    by right.
Qed.

Lemma visit_loop_adds fuel st st' (j : nat) x s :
  visit_loop rt w nodes fuel st = Some (Ok st') →
  loaded_nodes st' !! j = Some (x, s) →
  loaded_nodes st !! j = Some (x, s) ∨
  (s = noop_setter ∧
   isinstance rt w x TrackableDataStructure = true ∧
   ∃ parent_id parent parent_setter proto reference,
     loaded_nodes st' !! parent_id = Some (parent, parent_setter) ∧
     parent ≠ VNone ∧
     nodes !! parent_id = Some proto ∧
     reference ∈ SavedObject.children proto ∧
     ObjectReference.node_id reference = j ∧
     x = _lookup_dependency w parent (ObjectReference.local_name reference)).
Proof.
  revert st. induction fuel as [|fuel IH]; intros st Hrun Hj; [done|].
  simpl in Hrun.
  destruct (nodes_to_visit st) as [|node_path queue];
    [injection Hrun as <-; by left|].
  destruct (node_path_to_id st !! node_path) as [node_id|]; [|done].
  case_decide as Hvisited; [by apply IH in Hrun|].
  destruct (_ && _); [done|].
  destruct (nodes !! node_id) as [proto|] eqn:Hproto; [|done].
  pose proof Hrun as Hrun'.
  apply IH with (1 := Hrun) in Hj as [Hl|?]; [|by right].
  apply visit_children_adds in Hl
    as [Hl|(-> & Hn & Hx & reference & Hin & Hid & Hdep)]; [by left|].
  right. split_and!; try done.
  unfold loaded_object in Hn, Hdep. simpl in Hn, Hdep.
  destruct (loaded_nodes st !! node_id) as [[parent ps]|] eqn:Hparent; [|done].
  exists node_id, parent, ps, proto, reference. split_and!; try done.
  assert (Hkeep : ∀ fuel st0 st1,
            visit_loop rt w nodes fuel st0 = Some (Ok st1) →
            loaded_nodes st0 !! node_id = Some (parent, ps) →
            loaded_nodes st1 !! node_id = Some (parent, ps)).
  { clear -Hn. intros fuel0. induction fuel0 as [|fuel0 IH0];
      intros st0 st1 Hrun0 H0; [done|].
    simpl in Hrun0.
    destruct (nodes_to_visit st0) as [|np q]; [by injection Hrun0 as <-|].
    destruct (node_path_to_id st0 !! np) as [nid|]; [|done].
    case_decide; [by apply IH0 in Hrun0|].
    destruct (_ && _); [done|].
    destruct (nodes !! nid) as [p|]; [|done].
    apply IH0 in Hrun0; [done|].
    apply (visit_children_loaded rt w); [|done]. done. }
  apply (Hkeep _ _ _ Hrun').
  apply (visit_children_loaded rt w); [|done]. done.
Qed.

End TraversalAdds.

(** What the traversal adds to the objects the caller supplied: an entry
    of [_loaded_nodes] after [_retrieve_all_filtered_nodes] is an entry it
    had before, or else a trackable data structure that an object already
    in the table tracks under the name of the edge to that node, paired
    with the setter that does nothing. *)
Theorem traversal_adds_tracked_containers rt w self filtered self' j x s :
  _retrieve_all_filtered_nodes rt w self = Ok (filtered, self') →
  _loaded_nodes self' !! j = Some (x, s) →
  _loaded_nodes self !! j = Some (x, s) ∨
  (s = noop_setter ∧
   isinstance rt w x TrackableDataStructure = true ∧
   ∃ parent_id parent parent_setter proto reference,
     _loaded_nodes self' !! parent_id = Some (parent, parent_setter) ∧
     parent ≠ VNone ∧
     SavedObjectGraph.nodes (_proto self) !! parent_id = Some proto ∧
     reference ∈ SavedObject.children proto ∧
     ObjectReference.node_id reference = j ∧
     x = _lookup_dependency w parent (ObjectReference.local_name reference)).
Proof.
  intros Hret Hj. unfold _retrieve_all_filtered_nodes in Hret.
  destruct (_node_filters self) as [f|]; [|injection Hret as _ <-; by left].
  destruct (_node_path_to_id self) as [m|]; [|done].
  destruct (visit_loop _ _ _ _ _) as [r|] eqn:Hloop; [|done].
  inv_bind Hret. subst r. rename a into st.
  assert (Hl : _loaded_nodes self' = loaded_nodes st).
  { by destruct (decide (0 ∈ all_filtered_nodes st)); injection Hret as _ <-. }
  rewrite Hl in Hj |- *.
  by apply (visit_loop_adds rt w _ _ _ _ j x s Hloop) in Hj.
Qed.

Lemma traversal_adds_tracked_containers_witness :
  ∃ filtered self',
    _retrieve_all_filtered_nodes Scenario.runtime tracking_world
      tracking_loader = Ok (filtered, self') ∧
    _loaded_nodes self' !! 2 = Some (VObj 1, noop_setter) ∧
    _loaded_nodes tracking_loader !! 2 = None ∧
    (_loaded_nodes tracking_loader !! 2 = Some (VObj 1, noop_setter) ∨
     (noop_setter = noop_setter ∧
      isinstance Scenario.runtime tracking_world (VObj 1)
        TrackableDataStructure = true ∧
      ∃ parent_id parent parent_setter proto reference,
        _loaded_nodes self' !! parent_id = Some (parent, parent_setter) ∧
        parent ≠ VNone ∧
        SavedObjectGraph.nodes (_proto tracking_loader) !! parent_id
        = Some proto ∧
        reference ∈ SavedObject.children proto ∧
        ObjectReference.node_id reference = 2 ∧
        VObj 1 = _lookup_dependency tracking_world parent
                   (ObjectReference.local_name reference))).
Proof.
  evaluate (_retrieve_all_filtered_nodes Scenario.runtime tracking_world
              tracking_loader) r Hret.
  destruct r as [[filtered self']|e] eqn:Hr; [|discriminate Hr].
  assert (Hj : _loaded_nodes self' !! 2 = Some (VObj 1, noop_setter)).
  { injection Hr as _ <-. vm_compute. reflexivity. }
  clear Hr. exists filtered, self'.
  split; [exact Hret|]. split; [exact Hj|]. split; [reflexivity|].
  exact (traversal_adds_tracked_containers Scenario.runtime tracking_world
           tracking_loader filtered self' 2 (VObj 1) noop_setter Hret Hj).
Defined.

(** ** Wiring the edges *)


Lemma set_call_attribute_heap w obj w' :
  set_call_attribute w obj = Ok w' →
  heap w' = heap w ∧ TABLE_INITIALIZERS w' = TABLE_INITIALIZERS w.
Proof.
  unfold set_call_attribute. destruct (type_of w obj); [|done].
  by intros [= <-].
Qed.

Section Edges.

Variable rt : Runtime.
Variable self : Loader.



(** Edges "set" with the setter that does nothing. *)
Lemma add_edges_noop obj children w w' :
  for_each (add_edge rt self obj noop_setter) children w = Ok w' →
  heap w' = heap w ∧ TABLE_INITIALIZERS w' = TABLE_INITIALIZERS w.
Proof.
  revert w. induction children as [|r rest IH]; intros w Hrun.
  - by injection Hrun as <-.
  - simpl in Hrun. inv_bind Hrun. rename a into w1.
    destruct (IH _ Hrun) as [-> ->]. unfold add_edge in Ha.
    destruct (_nodes self !! _); [|done]. simpl in Ha.
    destruct (_ && _); [|by injection Ha as <-].
    by apply set_call_attribute_heap in Ha.
Qed.

End Edges.



(** For a node whose setter is the one that does nothing (a container
    found through its parent), [_add_object_graph_edges] writes to no
    object: the heap and TABLE_INITIALIZERS are as before. *)
Theorem noop_setter_leaves_heap rt self proto node_id w w' :
  _node_setters self !! node_id = Some noop_setter →
  _add_object_graph_edges rt self proto node_id w = Ok w' →
  heap w' = heap w ∧ TABLE_INITIALIZERS w' = TABLE_INITIALIZERS w.
Proof.
  intros Hset Hrun. unfold _add_object_graph_edges in Hrun.
  destruct (_nodes self !! node_id) as [obj|]; [|done].
  rewrite Hset in Hrun. exact (add_edges_noop rt self _ _ _ _ Hrun).
Qed.

Lemma noop_setter_leaves_heap_witness :
  ∃ w',
    _add_object_graph_edges Scenario.runtime (wired_loader noop_setter)
      (Scenario.object_node [Scenario.edge "v" 2]) 1 Scenario.small_world
    = Ok w' ∧
    heap w' = heap Scenario.small_world ∧
    TABLE_INITIALIZERS w' = TABLE_INITIALIZERS Scenario.small_world.
Proof.
  evaluate (_add_object_graph_edges Scenario.runtime (wired_loader noop_setter)
              (Scenario.object_node [Scenario.edge "v" 2]) 1
              Scenario.small_world) r Hrun.
  destruct r as [w'|e] eqn:Hr; [clear Hr|discriminate Hr].
  exists w'. split; [exact Hrun|].
  exact (noop_setter_leaves_heap Scenario.runtime (wired_loader noop_setter)
           (Scenario.object_node [Scenario.edge "v" 2]) 1
           Scenario.small_world w' eq_refl Hrun).
Defined.

(** ** The edges from the dummy root *)

Lemma extends_refl w : extends w w.
Proof. by intros v name x. Qed.

Lemma extends_trans w1 w2 w3 : extends w1 w2 → extends w2 w3 → extends w1 w3.
Proof. intros H1 H2 v name x Hx. by apply H2, H1. Qed.

Lemma follow_extends w w' v names x :
  extends w w' → follow w v names = Some x → follow w' v names = Some x.
Proof.
  intros Hext. revert v. induction names as [|name rest IH]; intros v; [done|].
  simpl. destruct (getattr w v name) as [y|] eqn:Hy; [|done].
  rewrite (Hext _ _ _ Hy). apply IH.
Qed.

Lemma follow_app w v names1 names2 :
  follow w v (names1 ++ names2)
  = follow w v names1 ≫= λ x, follow w x names2.
Proof.
  revert v. induction names1 as [|name rest IH]; intros v; [done|].
  simpl. by destruct (getattr w v name).
Qed.

(** A new object takes no attribute away. *)
Lemma recreate_base_user_object_extends w obj s w' :
  _recreate_base_user_object w = ((obj, s), w') → extends w w'.
Proof.
  unfold _recreate_base_user_object, alloc. intros [= <- <- <-] v name x.
  unfold getattr. destruct v as [| |r]; try done. simpl.
  destruct (heap w !! r) as [o|] eqn:Ho; [|done].
  rewrite lookup_insert_ne; [by rewrite Ho|].
  intros <-. apply (is_fresh (dom (heap w))). apply elem_of_dom. by eexists.
Qed.

(** Setting an attribute the object does not have takes none away. *)
Lemma setattr_missing_extends obj name x w w' :
  hasattr w obj name = false → py_setattr obj name x w = Ok w' → extends w w'.
Proof.
  intros Hhas Hset v name' y Hy.
  destruct (decide (v = obj ∧ name' = name)) as [[-> ->]|Hne].
  - exfalso. unfold hasattr in Hhas. unfold getattr in Hy.
    destruct obj as [| |r]; try done. destruct (heap w !! r) as [o|]; [|done].
    destruct (obj_attrs o !! name); [|done].
    apply bool_decide_eq_false in Hhas. apply Hhas. by eexists.
  - rewrite (getattr_setattr_ne _ _ _ _ _ v name' Hset); [done|].
    destruct (decide (v = obj)); [right|left]; naive_solver.
Qed.

Lemma hasattr_getattr w v name :
  hasattr w v name = true → ∃ x, getattr w v name = Ok x.
Proof.
  unfold hasattr, getattr. destruct v as [| |r]; try done.
  destruct (heap w !! r) as [o|]; [|done]. intros H.
  apply bool_decide_eq_true in H as [x Hx]. rewrite Hx. by eexists.
Qed.

(** The walk from the dummy root only adds attributes, and ends at what
    the names lead to afterwards. *)
Lemma synthesize_path_spec names current_node w c w' :
  synthesize_path names current_node w = Ok (c, w') →
  extends w w' ∧ follow w' current_node names = Some c.
Proof.
  revert current_node w. induction names as [|name rest IH];
    intros cur w Hrun.
  - injection Hrun as <- <-. split; [apply extends_refl|done].
  - simpl in Hrun. inv_bind Hrun. rename a into w1. inv_bind Hrun.
    rename a into next. destruct (IH _ _ Hrun) as [Hext Hfollow].
    assert (Hext1 : extends w w1).
    { destruct (hasattr w cur name) eqn:Hhas; [injection Ha as <-;
                                                 apply extends_refl|].
      set (wa := set_heap w _) in Ha.
      assert (Hwa : extends w wa).
      { by apply (recreate_base_user_object_extends w
                    (VObj (fresh (dom (heap w)))) setattr). }
      eapply extends_trans; [exact Hwa|].
      eapply setattr_missing_extends; [|exact Ha].
      unfold hasattr in *. destruct cur as [| |r]; try done.
      subst wa. simpl.
      destruct (decide (fresh (dom (heap w)) = r)) as [<-|Hne].
      - rewrite lookup_insert_eq. simpl. apply bool_decide_eq_false.
        rewrite lookup_empty. by intros [? ?].
      - by rewrite lookup_insert_ne. }
    split; [by eapply extends_trans|].
    simpl. by rewrite (Hext _ _ _ Ha0).
Qed.

Lemma attach_to_root_spec self root node_path w w' :
  attach_to_root self root node_path w = Ok w' →
  extends w w' ∧ is_Some (follow w' root (names_from_root node_path)).
Proof.
  unfold attach_to_root, names_from_root. intros Hrun.
  inv_bind Hrun. rename a into loaded_node. inv_bind Hrun.
  destruct a as [current_node w1].
  destruct (synthesize_path_spec _ _ _ _ _ Ha0) as [Hext Hfollow].
  rewrite follow_app.
  destruct (hasattr w1 current_node (List.last (PyStr.split node_path) ""))
    eqn:Hhas.
  - injection Hrun as <-. split; [done|]. rewrite Hfollow. simpl.
    destruct (hasattr_getattr _ _ _ Hhas) as [x Hx]. rewrite Hx. by eexists.
  - split.
    + eapply extends_trans; [done|]. by eapply setattr_missing_extends.
    + assert (Hext2 : extends w1 w') by by eapply setattr_missing_extends.
      rewrite (follow_extends _ _ _ _ _ Hext2 Hfollow). simpl.
      rewrite (getattr_setattr _ _ _ _ _ Hrun). by eexists.
Qed.

Lemma attach_all_spec self root paths w w' :
  for_each (attach_to_root self root) paths w = Ok w' →
  extends w w' ∧
  ∀ node_path, node_path ∈ paths →
    is_Some (follow w' root (names_from_root node_path)).
Proof.
  revert w. induction paths as [|p paths IH]; intros w Hrun.
  - injection Hrun as <-. split; [apply extends_refl|].
    intros ? Hin. by apply elem_of_nil in Hin.
  - simpl in Hrun. inv_bind Hrun. rename a into w1.
    destruct (attach_to_root_spec _ _ _ _ _ Ha) as [Hext1 [x Hx]].
    destruct (IH _ Hrun) as [Hext Hall].
    split; [by eapply extends_trans|].
    intros node_path Hin. apply elem_of_cons in Hin as [->|Hin]; [|auto].
    exists x. by eapply follow_extends.
Qed.

(** When the root is not among the nodes to load, [_load_edges] ends by
    linking the filters under the dummy root: after the edges of the object
    graph are wired (world [w1]) it only adds attributes, replacing none
    that could be read in [w1], and in the end following each filter's
    names from node 0 leads somewhere. *)
Theorem filters_linked_from_root rt self s f w w' :
  _filtered_nodes self = Some s →
  0 ∉ s →
  _node_filters self = Some f →
  _load_edges rt self w = Ok w' →
  ∃ root iter w1,
    _nodes self !! 0 = Some root ∧
    _iter_all_nodes rt self = Ok iter ∧
    for_each (λ '(node_id, object_proto),
                _add_object_graph_edges rt self object_proto node_id) iter w
    = Ok w1 ∧
    extends w1 w' ∧
    ∀ node_path, node_path ∈ filter_keys f →
      is_Some (follow w' root (names_from_root node_path)).
Proof.
  intros Hs H0 Hf Hrun. unfold _load_edges in Hrun.
  inv_bind Hrun. rename a into iter. inv_bind Hrun. rename a into w1.
  rewrite Hs, Hf in Hrun. rewrite bool_decide_eq_true_2 in Hrun by done.
  inv_bind Hrun. rename a into root. exists root, iter, w1.
  apply attach_all_spec in Hrun as [Hext Hall].
  split_and!; try done.
  unfold get_id in Ha1. destruct (_nodes self !! 0); [|done].
  by injection Ha1 as ->.
Qed.

Lemma filters_linked_from_root_witness :
  (0 ∉ ({[2]} : gset nat)) ∧
  names_from_root "root.child_layer.v" = ["child_layer"; "v"] ∧
  ∃ w',
    _load_edges Scenario.runtime rooted_loader Scenario.small_world = Ok w' ∧
    follow w' (VObj 2) ["child_layer"; "v"] = Some (VObj 0) ∧
    ∃ root iter w1,
      _nodes rooted_loader !! 0 = Some root ∧
      _iter_all_nodes Scenario.runtime rooted_loader = Ok iter ∧
      for_each (λ '(node_id, object_proto),
                  _add_object_graph_edges Scenario.runtime rooted_loader
                    object_proto node_id) iter Scenario.small_world
      = Ok w1 ∧
      extends w1 w' ∧
      ∀ node_path, node_path ∈ ["root.child_layer.v"] →
        is_Some (follow w' root (names_from_root node_path)).
Proof.
  assert (H0 : 0 ∉ ({[2]} : gset nat)).
  { apply (bool_decide_unpack _). vm_compute. exact I. }
  split; [exact H0|]. split; [reflexivity|].
  evaluate (_load_edges Scenario.runtime rooted_loader Scenario.small_world)
    r Hrun.
  destruct r as [w'|e] eqn:Hr; [|discriminate Hr].
  assert (Hfollow : follow w' (VObj 2) ["child_layer"; "v"] = Some (VObj 0)).
  { injection Hr as <-. vm_compute. reflexivity. }
  clear Hr. exists w'. split; [exact Hrun|]. split; [exact Hfollow|].
  exact (filters_linked_from_root Scenario.runtime rooted_loader {[2]}
           (filters_list ["root.child_layer.v"]) Scenario.small_world w'
           eq_refl H0 eq_refl Hrun).
Defined.

(** ** Captures *)

Lemma for_each_elem {A S} (body : A → S → result S) l s s' x :
  for_each body l s = Ok s' → x ∈ l → ∃ s1 s2, body x s1 = Ok s2.
Proof.
  revert s. induction l as [|y l IH]; intros s Hrun Hin.
  - by apply elem_of_nil in Hin.
  - simpl in Hrun. inv_bind Hrun.
    apply elem_of_cons in Hin as [->|Hin]; [by eexists _, _|eauto].
Qed.

Lemma get_tensor_from_node_object rt self node_id fn_name w t w' :
  _get_tensor_from_node rt self node_id fn_name w = Ok (t, w') →
  ∃ r, _nodes self !! node_id = Some (VObj r) ∧ is_Some (heap w !! r).
Proof.
  unfold _get_tensor_from_node.
  destruct (_nodes self !! node_id) as [obj|]; [|done].
  destruct (_ && _); [done|].
  unfold isinstance, type_of. destruct obj as [| |r]; [done..|].
  destruct (heap w !! r) as [o|] eqn:Ho; [|done].
  intros _. exists r. split; [done|by eexists].
Qed.

Lemma bound_inputs_of_elem rt self fn_name ids w ts w' node_id :
  bound_inputs_of rt self fn_name ids w = Ok (ts, w') →
  node_id ∈ ids →
  ∃ w1 t w2, _get_tensor_from_node rt self node_id fn_name w1 = Ok (t, w2).
Proof.
  revert w ts. induction ids as [|i ids IH]; intros w ts Hrun Hin.
  - by apply elem_of_nil in Hin.
  - simpl in Hrun. inv_bind Hrun. destruct a as [t w1].
    inv_bind Hrun. destruct a as [ts' w2]. injection Hrun as <- <-.
    apply elem_of_cons in Hin as [->|Hin]; [by eexists _, _, _|eauto].
Qed.

(** [_setup_functions_captures] completes only if every capture of every
    restored function is an object of the node table: a capture whose
    node was not loaded ([None] in the table) stops it, with or without
    filters. *)
Theorem captures_are_objects rt self w w' name proto node_id :
  _setup_functions_captures rt self w = Ok w' →
  (name, proto) ∈ SavedObjectGraph.concrete_functions (_proto self) →
  node_id ∈ SavedConcreteFunction.bound_inputs proto →
  ∃ r, _nodes self !! node_id = Some (VObj r).
Proof.
  intros Hrun Hin Hid. unfold _setup_functions_captures in Hrun.
  destruct (for_each_elem _ _ _ _ _ Hrun Hin) as (w1 & w2 & Hbody).
  simpl in Hbody. inv_bind Hbody. destruct a as [bound_inputs w3].
  destruct (bound_inputs_of_elem _ _ _ _ _ _ _ node_id Ha Hid)
    as (w4 & t & w5 & Ht).
  destruct (get_tensor_from_node_object _ _ _ _ _ _ _ Ht) as (r & Hr & _).
  by exists r.
Qed.

Lemma captures_are_objects_witness :
  ∃ w',
    _setup_functions_captures Scenario.runtime capturing_loader
      Scenario.small_world = Ok w' ∧
    ∃ r, _nodes capturing_loader !! 2 = Some (VObj r).
Proof.
  evaluate (_setup_functions_captures Scenario.runtime capturing_loader
              Scenario.small_world) r Hrun.
  destruct r as [w'|e] eqn:Hr; [clear Hr|discriminate Hr].
  exists w'. split; [exact Hrun|].
  refine (captures_are_objects Scenario.runtime capturing_loader
            Scenario.small_world w' "f" (SavedConcreteFunction.mk [2]) 2
            Hrun _ _); left.
Defined.

(** ** [_setattr_and_track] *)

(** The setter of restored resources: the value can be read back as the
    attribute, and a trackable value also as the dependency of that name,
    which is where the traversal of a later partial load looks for it. *)
Theorem setattr_and_track_round_trip rt obj name x w w' :
  apply_setter rt _setattr_and_track obj name x w = Ok w' →
  getattr w' obj name = Ok x ∧
  (isinstance rt w x Trackable = true → _lookup_dependency w' obj name = x) ∧
  (isinstance rt w x Trackable = false → w' = match py_setattr obj name x w with
                                              | Ok w1 => w1
                                              | Err _ => w
                                              end).
Proof.
  simpl. intros Hrun. inv_bind Hrun. rename a into w1. rewrite Ha.
  assert (Hinst : isinstance rt w1 x Trackable = isinstance rt w x Trackable).
  { unfold py_setattr in Ha. destruct obj as [| |r]; try done.
    destruct (heap w !! r) as [o|] eqn:Ho; [|done]. injection Ha as <-.
    unfold isinstance, type_of. destruct x as [| |rx]; try done. simpl.
    destruct (decide (r = rx)) as [->|Hne].
    - by rewrite lookup_insert_eq, Ho.
    - by rewrite lookup_insert_ne. }
  rewrite Hinst in Hrun.
  destruct (isinstance rt w x Trackable).
  - split_and!; [|intros _|done].
    + unfold _track_trackable in Hrun. destruct obj as [| |r]; try done.
      destruct (heap w1 !! r) as [o|] eqn:Ho; [|done]. injection Hrun as <-.
      pose proof (getattr_setattr _ _ _ _ _ Ha) as Hget.
      unfold getattr in *. simpl. rewrite lookup_insert_eq. simpl.
      by rewrite Ho in Hget.
    + unfold _track_trackable in Hrun. destruct obj as [| |r]; try done.
      destruct (heap w1 !! r) as [o|] eqn:Ho; [|done]. injection Hrun as <-.
      unfold _lookup_dependency. simpl. rewrite lookup_insert_eq. simpl.
      by rewrite lookup_insert_eq.
  - injection Hrun as <-. split_and!; [|done|done].
    by eapply getattr_setattr.
Qed.

Lemma setattr_and_track_round_trip_witness :
  ∃ w',
    apply_setter Scenario.runtime _setattr_and_track (VObj 2) "child" (VObj 3)
      Scenario.small_world = Ok w' ∧
    isinstance Scenario.runtime Scenario.small_world (VObj 3) Trackable = true ∧
    getattr w' (VObj 2) "child" = Ok (VObj 3) ∧
    _lookup_dependency w' (VObj 2) "child" = VObj 3.
Proof.
  evaluate (apply_setter Scenario.runtime _setattr_and_track (VObj 2) "child"
              (VObj 3) Scenario.small_world) r Hrun.
  destruct r as [w'|e] eqn:Hr; [clear Hr|discriminate Hr].
  exists w'. split; [exact Hrun|]. split; [reflexivity|].
  destruct (setattr_and_track_round_trip Scenario.runtime (VObj 2) "child"
              (VObj 3) Scenario.small_world w' Hrun) as (Hget & Hdep & _).
  split; [exact Hget|]. apply Hdep. reflexivity.
Defined.

(** ** The placeholders of [_call_flat] *)

Section Placeholders.

Import WrapperFunction.



End Placeholders.

(** ** The debug info *)

Section DebugInfoFacts.

Import DebugInfo.

Context {T : Type}.
Variable concrete_functions : gmap string string.

Lemma split_on_nonempty sep s : split_on sep s ≠ [].
Proof.
  destruct s as [|c s]; simpl; [done|].
  case_decide; [done|]. by destruct (split_on sep s).
Qed.

Lemma split_on_single sep s x : split_on sep s = [x] → s = x.
Proof.
  revert x. induction s as [|c s IH]; intros x Hs.
  - by injection Hs as <-.
  - simpl in Hs.
    case_decide; [injection Hs as _ Hs; by apply split_on_nonempty in Hs|].
    destruct (split_on sep s) as [|h t] eqn:Hsplit;
      [by apply split_on_nonempty in Hsplit|].
    injection Hs as <- ->. f_equal. by apply IH.
Qed.

(** A key that unpacks into [node] and [func] is [node@func]. *)
Lemma split_on_pair s node func :
  split_on "@" s = [node; func] → s = node +:+ "@" +:+ func.
Proof.
  revert node. induction s as [|c s IH]; intros node Hs; [done|].
  simpl in Hs. case_decide as Hc.
  - subst c. injection Hs as <- Hs.
    apply (split_on_single "@") in Hs. by subst.
  - destruct (split_on "@" s) as [|h t] eqn:Hsplit; [done|].
    injection Hs as <- ->. by rewrite (IH h eq_refl) at 1.
Qed.

Lemma rewrite_traces_spec (traces : list (string * T)) output output' :
  rewrite_traces concrete_functions traces output = Some output' →
  (∀ key trace, (key, trace) ∈ traces →
     ∃ node func, split_on "@" key = [node; func] ∧
       is_Some (output' !! (node +:+ "@" +:+ new_func concrete_functions func)))
  ∧ (∀ k trace, output' !! k = Some trace →
       output !! k = Some trace ∨
       ∃ key node func, (key, trace) ∈ traces ∧
         split_on "@" key = [node; func] ∧
         k = node +:+ "@" +:+ new_func concrete_functions func).
Proof.
  revert output. induction traces as [|[key trace] rest IH];
    intros output Hrun.
  - injection Hrun as <-. split; [|by left].
    intros ? ? Hin. by apply elem_of_nil in Hin.
  - simpl in Hrun.
    destruct (split_on "@" key) as [|node [|func [|]]] eqn:Hsplit; try done.
    destruct (IH _ Hrun) as [Hall Hfrom]. split.
    + intros key' trace' Hin. apply elem_of_cons in Hin as [[= -> ->]|Hin];
        [|by apply (Hall key' trace')].
      exists node, func. split; [done|].
      assert (Hkeeps : ∀ rest' (out out' : gmap string T) k,
                rewrite_traces concrete_functions rest' out = Some out' →
                is_Some (out !! k) → is_Some (out' !! k)).
      { clear. induction rest' as [|[key trace] rest' IH'];
          intros out out' k Hrun Hk.
        - by injection Hrun as <-.
        - simpl in Hrun.
          destruct (split_on "@" key) as [|node [|func [|]]]; try done.
          apply (IH' _ _ _ Hrun). rewrite lookup_insert_is_Some.
          destruct (decide (node +:+ "@" +:+ new_func concrete_functions func
                            = k)); auto. }
      apply (Hkeeps _ _ _ _ Hrun). rewrite lookup_insert_eq. by eexists.
    + intros k trace' Hk. destruct (Hfrom k trace' Hk) as [Hout|Hex].
      * destruct (decide (node +:+ "@" +:+ new_func concrete_functions func = k))
          as [<-|Hne].
        -- rewrite lookup_insert_eq in Hout. injection Hout as <-.
           right. exists key, node, func. split_and!; [left|done|done].
        -- rewrite lookup_insert_ne in Hout by done. by left.
      * destruct Hex as (key' & node' & func' & Hin & ? & ?).
        right. exists key', node', func'. split_and!; try done. by right.
Qed.

Lemma rewrite_traces_None (traces : list (string * T)) output :
  rewrite_traces concrete_functions traces output = None ↔
  ∃ key trace, (key, trace) ∈ traces ∧ length (split_on "@" key) ≠ 2.
Proof.
  revert output. induction traces as [|[key trace] rest IH]; intros output.
  - split; [done|]. intros (? & ? & Hin & _). by apply elem_of_nil in Hin.
  - simpl.
    destruct (split_on "@" key) as [|node [|func [|more ?]]] eqn:Hsplit.
    + by apply split_on_nonempty in Hsplit.
    + split; [|done]. intros _. exists key, trace. split; [left|].
      by rewrite Hsplit.
    + rewrite IH. split.
      * intros (k & t & Hin & Hlen). exists k, t. split; [by right|done].
      * intros (k & t & Hin & Hlen).
        apply elem_of_cons in Hin as [[= -> ->]|Hin].
        -- by rewrite Hsplit in Hlen.
        -- by exists k, t.
    + split; [|done]. intros _. exists key, trace. split; [left|].
      by rewrite Hsplit.
Qed.

End DebugInfoFacts.

(** [adjust_debug_info_func_names] fails exactly when some key of the
    traces is not of the form [node@func] with a single ["@"]. *)
Theorem adjust_debug_info_fails {T} concrete_functions
    (debug_info : DebugInfo.GraphDebugInfo T) :
  DebugInfo.adjust_debug_info_func_names concrete_functions debug_info = None ↔
  ∃ key trace, (key, trace) ∈ DebugInfo.traces debug_info ∧
    length (DebugInfo.split_on "@" key) ≠ 2.
Proof.
  unfold DebugInfo.adjust_debug_info_func_names.
  rewrite <- (rewrite_traces_None concrete_functions _ ∅).
  by destruct (DebugInfo.rewrite_traces _ _ _).
Qed.

(** When it succeeds, the file names are those of the input, and the
    traces are those of the input under rewritten keys: every output key
    is the key [node@func] of the trace it holds with [func] replaced by
    the signature name of the restored function of that name, or by the
    empty string if there is none; and the rewritten key of every input
    trace is in the output. *)
Theorem adjust_debug_info_keys {T} concrete_functions
    (debug_info : DebugInfo.GraphDebugInfo T) output_files output_traces :
  DebugInfo.adjust_debug_info_func_names concrete_functions debug_info
  = Some (output_files, output_traces) →
  output_files = DebugInfo.files debug_info ∧
  (∀ k trace, output_traces !! k = Some trace →
     ∃ node func,
       (node +:+ "@" +:+ func, trace) ∈ DebugInfo.traces debug_info ∧
       DebugInfo.split_on "@" (node +:+ "@" +:+ func) = [node; func] ∧
       k = node +:+ "@" +:+ DebugInfo.new_func concrete_functions func) ∧
  (∀ key trace, (key, trace) ∈ DebugInfo.traces debug_info →
     ∃ node func,
       key = node +:+ "@" +:+ func ∧
       is_Some (output_traces
                  !! (node +:+ "@"
                      +:+ DebugInfo.new_func concrete_functions func))).
Proof.
  unfold DebugInfo.adjust_debug_info_func_names. intros Hrun.
  destruct (DebugInfo.rewrite_traces _ _ _) as [out|] eqn:Hout; [|done].
  injection Hrun as <- <-.
  destruct (rewrite_traces_spec concrete_functions _ _ _ Hout) as [Hall Hfrom].
  split_and!; [done| |].
  - intros k trace Hk. destruct (Hfrom k trace Hk) as [He|Hex].
    { by rewrite lookup_empty in He. }
    destruct Hex as (key & node & func & Hin & Hsplit & ->).
    exists node, func. pose proof (split_on_pair _ _ _ Hsplit) as <-.
    done.
  - intros key trace Hin. destruct (Hall key trace Hin)
      as (node & func & Hsplit & Hsome).
    exists node, func. split; [|done]. by apply split_on_pair.
Qed.

Lemma adjust_debug_info_keys_witness :
  DebugInfo.adjust_debug_info_func_names DebugInfo.sample_functions
    DebugInfo.sample_debug_info
  = Some (["model.py"],
          <["a@" := 3]> (<["b@f1" := 2]> {["a@f1" := 1]}))
  ∧ ∀ key trace, (key, trace) ∈ DebugInfo.traces DebugInfo.sample_debug_info →
      ∃ node func,
        key = node +:+ "@" +:+ func ∧
        is_Some ((<["a@" := 3]> (<["b@f1" := 2]> {["a@f1" := 1]})
                  : gmap string nat)
                   !! (node +:+ "@"
                       +:+ DebugInfo.new_func DebugInfo.sample_functions func)).
Proof.
  assert (Hrun : DebugInfo.adjust_debug_info_func_names
                   DebugInfo.sample_functions DebugInfo.sample_debug_info
                 = Some (["model.py"],
                         <["a@" := 3]> (<["b@f1" := 2]> {["a@f1" := 1]})))
    by (vm_compute; reflexivity).
  split; [exact Hrun|].
  exact (proj2 (proj2 (adjust_debug_info_keys DebugInfo.sample_functions
                         DebugInfo.sample_debug_info _ _ Hrun))).
Defined.

(** ** Slot variables in the node table *)

Section SlotTable.

Variable rt : Runtime.

Lemma add_slots_table optimizer_id optimizer_object slots st st' :
  add_slots rt optimizer_id optimizer_object slots st = Ok st' →
  (∀ sp, sp ∈ slots →
     ∃ r e, e ∈ st_log st' ∧ is_add_slot e = true ∧
       constructs e (SlotVariableReference.slot_variable_node_id sp) (VObj r))
  ∧ (∀ e, e ∈ st_log st → e ∈ st_log st')
  ∧ (∀ j, (∃ sp, sp ∈ slots ∧ SlotVariableReference.slot_variable_node_id sp = j)
          ∨ st_node_setters st !! j = Some setattr →
          st_node_setters st' !! j = Some setattr).
Proof.
  revert st. induction slots as [|sp slots IH]; intros st Hrun.
  - injection Hrun as <-. split_and!; [|done|].
    + intros ? Hin. by apply elem_of_nil in Hin.
    + intros j [(sp & Hin & _)|?]; [by apply elem_of_nil in Hin|done].
  - simpl in Hrun.
    destruct (st_nodes st !! _) as [var|]; [|done].
    destruct optimizer_object as [| |optimizer]; try done.
    inv_bind Hrun. destruct a as [slot_variable w'].
    destruct (IH _ Hrun) as (Hall & Hmono & Hset). simpl in Hmono, Hset.
    split_and!.
    + intros sp' Hin. apply elem_of_cons in Hin as [->|Hin]; [|auto].
      exists slot_variable. eexists. split; [|split].
      * apply Hmono. apply elem_of_app. right. left.
      * done.
      * done.
    + intros e He. apply Hmono. apply elem_of_app. by left.
    + intros j Hj. apply Hset.
      destruct (decide (SlotVariableReference.slot_variable_node_id sp = j))
        as [<-|Hne].
      * right. by rewrite lookup_insert_eq.
      * rewrite lookup_insert_ne by done.
        destruct Hj as [(sp' & Hin & Heq)|?]; [|by right].
        apply elem_of_cons in Hin as [->|Hin]; [done|]. left. eauto.
Qed.

Lemma slot_loop_table iter st st' :
  slot_loop rt iter st = Ok st' →
  (∀ j, j ∈ slot_variable_node_ids iter →
     ∃ r e, e ∈ st_log st' ∧ is_add_slot e = true ∧ constructs e j (VObj r))
  ∧ (∀ e, e ∈ st_log st → e ∈ st_log st')
  ∧ (∀ j, j ∈ slot_variable_node_ids iter
          ∨ st_node_setters st !! j = Some setattr →
          st_node_setters st' !! j = Some setattr).
Proof.
  assert (Hgen : ∀ iter st st',
            slot_loop rt iter st = Ok st' →
            (∀ i proto sp, (i, proto) ∈ iter →
               sp ∈ SavedObject.slot_variables proto →
               ∃ r e, e ∈ st_log st' ∧ is_add_slot e = true ∧
                 constructs e (SlotVariableReference.slot_variable_node_id sp)
                   (VObj r))
            ∧ (∀ e, e ∈ st_log st → e ∈ st_log st')
            ∧ (∀ j, (∃ i proto sp, (i, proto) ∈ iter ∧
                       sp ∈ SavedObject.slot_variables proto ∧
                       SlotVariableReference.slot_variable_node_id sp = j)
                    ∨ st_node_setters st !! j = Some setattr →
                    st_node_setters st' !! j = Some setattr)).
  { clear. induction iter as [|[node_id proto] iter IH]; intros st st' Hrun.
    - injection Hrun as <-. split_and!; [|done|].
      + intros ? ? ? Hin. by apply elem_of_nil in Hin.
      + intros j [(? & ? & ? & Hin & _)|?]; [by apply elem_of_nil in Hin|done].
    - simpl in Hrun. destruct (st_nodes st !! node_id) as [obj|]; [|done].
      inv_bind Hrun. rename a into st1.
      destruct (add_slots_table _ _ _ _ _ Ha) as (Hall1 & Hmono1 & Hset1).
      destruct (IH _ _ Hrun) as (Hall & Hmono & Hset).
      split_and!.
      + intros i p sp Hin Hsp.
        apply elem_of_cons in Hin as [[= -> ->]|Hin]; [|eauto].
        destruct (Hall1 sp Hsp) as (r & e & He & ? & ?).
        exists r, e. split_and!; auto.
      + auto.
      + intros j Hj. apply Hset.
        destruct Hj as [(i & p & sp & Hin & Hsp & Heq)|Hj].
        * apply elem_of_cons in Hin as [[= -> ->]|Hin].
          -- right. apply Hset1. left. eauto.
          -- left. eauto 6.
        * right. apply Hset1. by right. }
  intros Hrun. destruct (Hgen _ _ _ Hrun) as (Hall & Hmono & Hset).
  split_and!; [|done|].
  - intros j Hj. apply slot_ids_spec in Hj as (i & proto & sp & Hin & Hsp & <-).
    eauto.
  - intros j [Hj|Hj]; apply Hset; [left|by right].
    by apply slot_ids_spec in Hj.
Qed.

(** The table a log leads to holds, for a node some event constructs,
    what the last such event constructed. *)
Lemma replay_constructed table log (j : nat) :
  (∃ e v, e ∈ log ∧ constructs e j v) →
  ∃ e v, e ∈ log ∧ constructs e j v ∧ replay table log !! j = Some v.
Proof.
  induction log as [|e log IH] using rev_ind.
  - intros (e & v & Hin & _). by apply elem_of_nil in Hin.
  - intros Hex. rewrite replay_snoc.
    assert (Hdec : (∃ v, constructs e j v) ∨ ∀ v, ¬ constructs e j v).
    { destruct e as [i x|? ? ? slot sv|root]; simpl.
      - destruct (decide (i = j)) as [->|]; [left; eauto|right].
        by intros v [? _].
      - destruct (decide (SlotVariableReference.slot_variable_node_id slot = j))
          as [<-|]; [left; eauto|right]. by intros v [? _].
      - destruct (decide (j = 0)) as [->|]; [left; eauto|right].
        by intros v [? _]. }
    destruct Hdec as [[v Hv]|Hno].
    + exists e, v. split_and!; [apply elem_of_app; right; left|done|].
      destruct e as [i x|? ? ? slot sv|root]; simpl in *;
        destruct Hv as [<- <-] || destruct Hv as [-> <-];
        by rewrite lookup_insert_eq.
    + destruct IH as (e' & v & Hin & Hc & Hl).
      { destruct Hex as (e' & v & Hin & Hc).
        apply elem_of_app in Hin as [Hin|Hin]; [eauto|].
        apply list_elem_of_singleton in Hin as ->. by destruct (Hno v). }
      exists e', v. split_and!; [apply elem_of_app; by left|done|].
      destruct e as [i x|? ? ? slot sv|root]; simpl in *.
      * rewrite lookup_insert_ne; [done|]. intros ->. by apply (Hno x).
      * rewrite lookup_insert_ne; [done|]. intros <-. by apply (Hno (VObj sv)).
      * rewrite lookup_insert_ne; [done|]. intros <-. by apply (Hno root).
Qed.

End SlotTable.

(** The entry of the node table for a slot variable of a loaded optimizer
    is what [add_slot] returned, with the setter [setattr], also when the
    caller supplied an object and a setter for that node: those are
    replaced. *)
Theorem slot_variable_from_add_slot rt self w self' w' log iter j :
  _load_nodes rt self w = Ok (self', w', log) →
  _iter_all_nodes rt self = Ok iter →
  j ∈ slot_variable_node_ids iter →
  j < length (SavedObjectGraph.nodes (_proto self)) →
  ∃ e r, e ∈ log ∧ is_add_slot e = true ∧ constructs e j (VObj r) ∧
    _nodes self' !! j = Some (VObj r) ∧
    _node_setters self' !! j = Some setattr.
Proof.
  intros Hrun Hiter Hj Hlen.
  unfold _load_nodes in Hrun. inv_bind Hrun. rename a into st.
  injection Hrun as <- _ <-.
  destruct (load_nodes_passes_spec rt self w st Ha)
    as (iter' & log1 & log2 & log3 & Hiter' & Hlog & Hnodes & Hev1 & Hev2
        & Hev3 & _).
  rewrite Hiter in Hiter'. injection Hiter' as <-.
  assert (Honly : ∀ e v, e ∈ st_log st → constructs e j v →
            is_add_slot e = true).
  { intros e v He Hc. rewrite Hlog in He.
    apply elem_of_app in He as [He|He]; [|apply elem_of_app in He as [He|He]].
    - destruct (Hev1 e He) as (i' & r & p & -> & Hn & _).
      destruct Hc as [-> _]. done.
    - apply list_elem_of_lookup in He as [k Hk].
      by destruct (Hev2 k e Hk) as (? & ? & ? & ? & ? & ? & -> & _).
    - destruct Hev3 as [->|(root & -> & H0)]; [by apply elem_of_nil in He|].
      apply list_elem_of_singleton in He as ->. by destruct Hc as [-> _]. }
  rewrite <- Hlog in Hnodes.
  unfold load_nodes_passes, _initialize_loaded_nodes in Ha.
  rewrite Hiter in Ha. simpl in Ha.
  inv_bind Ha. rename a into st1. inv_bind Ha. rename a into st2.
  injection Ha as <-.
  destruct (slot_loop_table rt _ _ _ Ha1) as (Hall & _ & Hset).
  destruct (Hall j Hj) as (r0 & e0 & He0 & _ & Hc0).
  assert (Hin : ∃ e v, e ∈ st_log (add_dummy_root st2) ∧ constructs e j v).
  { exists e0, (VObj r0). split; [|done]. unfold add_dummy_root.
    destruct (st_nodes st2 !! 0); [done|].
    unfold _recreate_base_user_object, alloc. simpl.
    apply elem_of_app. by left. }
  destruct (replay_constructed (fst <$> _loaded_nodes self) _ j Hin)
    as (e & v & He & Hc & Hl).
  rewrite <- Hnodes in Hl.
  pose proof (Honly e v He Hc) as Hslot.
  destruct e as [| oid o var slot sv |]; try done.
  destruct Hc as [Hid <-].
  exists (ev_add_slot oid o var slot sv), sv. simpl.
  rewrite nodes_list_lookup by done. rewrite Hl.
  split_and!; try done.
  assert (Hs2 : st_node_setters st2 !! j = Some setattr)
    by (apply Hset; by left).
  unfold add_dummy_root. destruct (st_nodes st2 !! 0); [done|].
  by unfold _recreate_base_user_object, alloc.
Qed.

Lemma slot_variable_from_add_slot_witness :
  _loaded_nodes slot_supplied_loader !! 3 = Some (VObj 3, custom_setter 0) ∧
  ∃ self' w' log iter,
    _load_nodes Scenario.runtime slot_supplied_loader Scenario.small_world
    = Ok (self', w', log) ∧
    _iter_all_nodes Scenario.runtime slot_supplied_loader = Ok iter ∧
    3 ∈ slot_variable_node_ids iter ∧
    ∃ e r, e ∈ log ∧ is_add_slot e = true ∧ constructs e 3 (VObj r) ∧
      _nodes self' !! 3 = Some (VObj r) ∧
      _node_setters self' !! 3 = Some setattr.
Proof.
  split; [reflexivity|].
  evaluate (_load_nodes Scenario.runtime slot_supplied_loader
              Scenario.small_world) r Hload.
  destruct r as [[[self' w'] log]|e] eqn:Hr; [clear Hr|discriminate Hr].
  evaluate (_iter_all_nodes Scenario.runtime slot_supplied_loader) ri Hiter.
  destruct ri as [iter|e] eqn:Hri; [|discriminate Hri].
  assert (Hslot : 3 ∈ slot_variable_node_ids iter).
  { injection Hri as <-. apply (bool_decide_unpack _). vm_compute. exact I. }
  clear Hri. exists self', w', log, iter.
  split; [exact Hload|]. split; [exact Hiter|]. split; [exact Hslot|].
  refine (slot_variable_from_add_slot Scenario.runtime slot_supplied_loader
            Scenario.small_world self' w' log iter 3 Hload Hiter Hslot _).
  vm_compute. lia.
Defined.

(** ** Restore ops when building a graph *)


